(** * School Data Manager (src/app.js): data layer, query engine and import

    A shallow embedding of the JavaScript of [src/app.js].  In-memory objects
    live in an explicit heap of cells (arrays and plain objects) addressed by
    locations, so that in-place mutation ([push], [sort], index and property
    assignment), object identity ([===] on objects) and copying
    ([JSON.parse (JSON.stringify v)]) are modelled as the program performs
    them.  A JSON text is represented by the document it denotes ([value]).

    Conventions of the model:
    - strings are sequences of characters with a code below 256, with the
      case mapping and the white space of these characters;
    - numbers are the integral ones ([Z]), each standing for the double
      nearest to it; they print as [Number::toString] prints that double;
    - a property holds a defined value; [undefined] is the [None] of
      [option hval];
    - the cells of the heap hold own data properties.  Where the program
      reads a property under a name it does not fix ([filterByTerm],
      [sortBy], [groupBy], [toCSV]), the members a plain object inherits
      from [Object.prototype] are modelled too; their text is left to the
      engine ([Engine]).  The order of an object's properties is not
      modelled, except for the result of [groupBy], whose order
      [Object.entries] exposes;
    - DOM effects are left out, except the strings written to the page and
      the call of a method the page object [UI] does not have
      ([UI_renderAll]). *)

From Stdlib Require Import Ascii.
From stdpp Require Import gmap strings list fin_maps functions pretty.

Local Open Scope string_scope.
Local Open Scope list_scope.

(** ** JSON documents *)

Inductive value : Type :=
| VNull
| VBool (b : bool)
| VNum (n : Z)
| VStr (s : string)
| VArr (l : list value)
| VObj (m : gmap string value).

(** Number of arrays and objects of a document: the cells [JSON.parse]
    allocates for it, and a bound on its nesting depth. *)
Fixpoint nodes (j : value) : nat :=
  match j with
  | VArr l => S (foldr (fun x acc => nodes x + acc) 0 l)
  | VObj m => S (map_fold (fun _ x acc => nodes x + acc) 0 m)
  | _ => 0
  end.

(** ** The heap *)

Abbreviation loc := nat.

Inductive hval : Type :=
| HNull
| HBool (b : bool)
| HNum (n : Z)
| HStr (s : string)
| HRef (l : loc).

Inductive cell : Type :=
| CArr (vs : list hval)
| CObj (m : gmap string hval).

Abbreviation heap := (list cell).

Global Instance hval_eq_dec : EqDecision hval.
Proof. solve_decision. Defined.

Global Instance cell_eq_dec : EqDecision cell.
Proof. solve_decision. Defined.

Definition is_ref (v : hval) : bool :=
  match v with HRef _ => true | _ => false end.

(** [a === b]: values by content, objects by identity. *)
Definition strict_eq (a b : option hval) : bool := bool_decide (a = b).

(** Sequencing an option-valued function over the fields of an object. *)
Definition map_mapM {A B} (f : A -> option B) (m : gmap string A)
  : option (gmap string B) :=
  if decide (map_Forall (fun _ x => is_Some (f x)) m)
  then Some (omap f m) else None.

(** [view n h v]: the JSON document of [v], following at most [n] nested
    references; [None] when the structure is deeper (or cyclic). *)
Fixpoint view (n : nat) (h : heap) (v : hval) {struct n} : option value :=
  match v with
  | HNull => Some VNull
  | HBool b => Some (VBool b)
  | HNum z => Some (VNum z)
  | HStr s => Some (VStr s)
  | HRef l =>
      match n with
      | O => None
      | S n' =>
          match h !! l with
          | Some (CArr vs) => VArr <$> mapM (view n' h) vs
          | Some (CObj m) => VObj <$> map_mapM (view n' h) m
          | None => None
          end
      end
  end.

(** [JSON.stringify v], as the document written; [None] stands for the
    TypeError raised on a cyclic structure.  An acyclic structure nests at
    most as deep as the heap has cells. *)
Definition JSON_stringify (h : heap) (v : hval) : option value :=
  view (length h) h v.

(** Allocation of the children of an array, left to right. *)
Definition alloc_list {A} (f : A -> heap -> hval * heap)
  : list A -> heap -> list hval * heap :=
  fix go (l : list A) (h : heap) : list hval * heap :=
    match l with
    | [] => ([], h)
    | x :: l' =>
        let '(v, h1) := f x h in
        let '(vs, h2) := go l' h1 in
        (v :: vs, h2)
    end.

(** Allocation of the members of an object. *)
Definition alloc_fields {A} (f : A -> heap -> hval * heap)
  (m : gmap string A) (h : heap) : gmap string hval * heap :=
  map_fold (fun k x (acc : gmap string hval * heap) =>
              let '(v, h1) := f x (snd acc) in (<[k := v]> (fst acc), h1))
           (∅, h) m.

(** [JSON.parse] of the text of document [j]: every array and object of the
    document becomes a new cell. *)
Fixpoint JSON_parse (j : value) (h : heap) : hval * heap :=
  match j with
  | VNull => (HNull, h)
  | VBool b => (HBool b, h)
  | VNum z => (HNum z, h)
  | VStr s => (HStr s, h)
  | VArr l =>
      let '(vs, h1) := alloc_list JSON_parse l h in
      (HRef (length h1), h1 ++ [CArr vs])
  | VObj m =>
      let '(mh, h1) := alloc_fields JSON_parse m h in
      (HRef (length h1), h1 ++ [CObj mh])
  end.

(** Locations reachable from a value. *)
Inductive reach (h : heap) : hval -> loc -> Prop :=
| reach_root l : reach h (HRef l) l
| reach_elem l vs v l' :
    h !! l = Some (CArr vs) -> v ∈ vs -> reach h v l' -> reach h (HRef l) l'
| reach_field l m k v l' :
    h !! l = Some (CObj m) -> m !! k = Some v -> reach h v l' ->
    reach h (HRef l) l'.

(** Two heaps hold the same cells at the locations from [lo] up to [hi]. *)
Definition agree_on (lo hi : nat) (h1 h2 : heap) : Prop :=
  forall l, lo <= l < hi -> h2 !! l = h1 !! l.

(** ** Properties of documents and of the heap *)

Lemma map_mapM_Some {A B} (f : A -> option B) (m : gmap string A)
    (m' : gmap string B) :
  map_mapM f m = Some m' <->
  forall k, option_Forall2 (fun x y => f x = Some y) (m !! k) (m' !! k).
Proof.
  unfold map_mapM. split.
  - destruct (decide _) as [Hall|]; [|discriminate].
    intros [= <-] k. rewrite lookup_omap.
    destruct (m !! k) as [x|] eqn:Hk; simpl; [|constructor].
    destruct (Hall k x Hk) as [y Hy]. rewrite Hy. by constructor.
  - intros Hrel. destruct (decide _) as [Hall|Hnot].
    + f_equal. apply map_eq. intros k. rewrite lookup_omap.
      specialize (Hrel k). inversion Hrel as [x y Hxy Hx Hy|]; simpl; congruence.
    + exfalso. apply Hnot. intros k x Hk. specialize (Hrel k).
      rewrite Hk in Hrel. inversion Hrel; subst. eauto.
Qed.

Lemma view_mono n n' h v j :
  view n h v = Some j -> n <= n' -> view n' h v = Some j.
Proof.
  revert n' v j. induction n as [|n IH]; intros n' v j Hv Hle.
  - destruct v; simpl in Hv; try discriminate; destruct n'; exact Hv.
  - destruct n' as [|n']; [lia|].
    destruct v as [| | | |l]; simpl in *; try exact Hv.
    destruct (h !! l) as [[vs|m]|]; [| |discriminate].
    + destruct (mapM (view n h) vs) as [js|] eqn:Hm; [|discriminate].
      simpl in Hv. injection Hv as <-.
      apply mapM_Some_1 in Hm.
      rewrite (mapM_Some_2 (view n' h) vs js); [done|].
      eapply Forall2_impl; [exact Hm|]. intros x y Hxy. apply IH; [done|lia].
    + destruct (map_mapM (view n h) m) as [jm|] eqn:Hm; [|discriminate].
      simpl in Hv. injection Hv as <-.
      pose proof (proj1 (map_mapM_Some (view n h) m jm) Hm) as Hrel.
      assert (map_mapM (view n' h) m = Some jm) as ->; [|done].
      apply map_mapM_Some. intros k. specialize (Hrel k). clear Hm.
      rename Hrel into Hm.
      inversion Hm; constructor. apply IH; [done|lia].
Qed.

Definition sum_nodes (l : list value) : nat :=
  foldr (fun x acc => nodes x + acc) 0 l.

Lemma nodes_VArr l : nodes (VArr l) = S (sum_nodes l).
Proof. reflexivity. Qed.

Lemma nodes_VObj m :
  nodes (VObj m) = S (sum_nodes (snd <$> map_to_list m)).
Proof.
  change (nodes (VObj m))
    with (S (map_fold (fun (_ : string) x acc => nodes x + acc) 0 m)).
  rewrite map_fold_foldr. f_equal.
  induction (map_to_list m) as [|[k x] l IH]; [done|].
  cbn [foldr uncurry fmap list_fmap snd sum_nodes]. unfold sum_nodes in IH.
  by rewrite IH.
Qed.

Lemma sum_nodes_cons x l : sum_nodes (x :: l) = nodes x + sum_nodes l.
Proof. reflexivity. Qed.

Lemma sum_nodes_elem (x : value) (l : list value) :
  x ∈ l -> nodes x <= sum_nodes l.
Proof.
  intros Hin. induction Hin as [x l|x y l Hin IH];
    rewrite sum_nodes_cons; lia.
Qed.

Lemma nodes_elem (x : value) (l : list value) :
  x ∈ l -> nodes x < nodes (VArr l).
Proof.
  intros Hin. rewrite nodes_VArr. apply sum_nodes_elem in Hin. lia.
Qed.

Lemma nodes_field (x : value) (m : gmap string value) k :
  m !! k = Some x -> nodes x < nodes (VObj m).
Proof.
  intros Hk. rewrite nodes_VObj.
  apply elem_of_map_to_list in Hk.
  assert (x ∈ (snd <$> map_to_list m)) as Hin.
  { apply list_elem_of_fmap. by exists (k, x). }
  apply sum_nodes_elem in Hin. lia.
Qed.

Lemma agree_on_sub lo hi lo' hi' h1 h2 :
  agree_on lo hi h1 h2 -> lo <= lo' -> hi' <= hi -> agree_on lo' hi' h1 h2.
Proof. intros H ? ? l ?. apply H. lia. Qed.

Lemma agree_on_app lo hi h1 new h2 :
  agree_on lo (length (h1 ++ new)) (h1 ++ new) h2 -> hi <= length h1 ->
  agree_on lo hi h1 h2.
Proof.
  intros H Hle l Hl. rewrite H.
  - apply lookup_app_l. lia.
  - rewrite length_app. lia.
Qed.

(** What parsing document [j] in heap [h] yields: [nodes j] new cells after
    those of [h], holding a structure whose document is [j] and which stays
    within the new cells, in every heap that has these cells. *)
Definition parsed (j : value) (h : heap) (v : hval) (h' : heap) : Prop :=
  (exists new, h' = h ++ new /\ length new = nodes j) /\
  forall h2, agree_on (length h) (length h') h' h2 ->
    view (nodes j) h2 v = Some j /\
    forall l, reach h2 v l -> length h <= l < length h'.

Lemma alloc_list_spec (f : value -> heap -> hval * heap) (l : list value) :
  (forall x, x ∈ l -> forall h v h', f x h = (v, h') -> parsed x h v h') ->
  forall h vs h1, alloc_list f l h = (vs, h1) ->
    (exists new, h1 = h ++ new /\ length new = sum_nodes l) /\
    forall h2, agree_on (length h) (length h1) h1 h2 ->
      Forall2 (fun x v => view (nodes x) h2 v = Some x) l vs /\
      Forall (fun v => forall l, reach h2 v l -> length h <= l < length h1) vs.
Proof.
  induction l as [|x l IH]; intros Hf h vs h1 Ha; simpl in Ha.
  - injection Ha as <- <-. split.
    + exists []. by rewrite app_nil_r.
    + intros h2 _. split; constructor.
  - destruct (f x h) as [v ha] eqn:Hx.
    destruct (alloc_list f l ha) as [vs' hb] eqn:Hl.
    injection Ha as <- <-.
    destruct (Hf x (list_elem_of_here _ _) _ _ _ Hx) as [[n1 [-> Hn1]] Hv].
    destruct (IH (fun y Hy => Hf y (list_elem_of_further _ _ _ Hy)) _ _ _ Hl)
      as [[n2 [-> Hn2]] Hvs].
    split.
    + exists (n1 ++ n2). rewrite app_assoc, length_app, sum_nodes_cons.
      split; [done|lia].
    + intros h2 Hag.
      destruct (Hv h2) as [Hview Hreach].
      { eapply agree_on_app; [|reflexivity].
        eapply agree_on_sub; [exact Hag|lia|lia]. }
      destruct (Hvs h2) as [Hviews Hreaches].
      { eapply agree_on_sub; [exact Hag| |lia]. rewrite length_app. lia. }
      split; constructor; try done.
      * intros l' Hl'. apply Hreach in Hl'.
        rewrite !length_app in *. lia.
      * eapply Forall_impl; [exact Hreaches|]. intros w Hw l' Hl'.
        apply Hw in Hl'. rewrite !length_app in *. lia.
Qed.

Lemma alloc_pairs_spec (f : value -> heap -> hval * heap)
    (kvs : list (string * value)) :
  NoDup (kvs.*1) ->
  (forall k x, (k, x) ∈ kvs -> forall h v h', f x h = (v, h') -> parsed x h v h') ->
  forall h mh h1,
    foldr (uncurry (fun k x (acc : gmap string hval * heap) =>
                      let '(v, h1) := f x (snd acc) in
                      (<[k := v]> (fst acc), h1))) (∅, h) kvs = (mh, h1) ->
    (exists new, h1 = h ++ new /\ length new = sum_nodes (kvs.*2)) /\
    (forall k, k ∉ kvs.*1 -> mh !! k = None) /\
    forall h2, agree_on (length h) (length h1) h1 h2 ->
      (forall k x, (k, x) ∈ kvs ->
         exists v, mh !! k = Some v /\ view (nodes x) h2 v = Some x) /\
      (forall k v, mh !! k = Some v ->
         forall l, reach h2 v l -> length h <= l < length h1).
Proof.
  induction kvs as [|[k x] kvs IH]; intros Hnd Hf h mh h1 Ha; simpl in Ha.
  - injection Ha as <- <-. split; [|split].
    + exists []. by rewrite app_nil_r.
    + intros k _. apply lookup_empty.
    + intros h2 _. split.
      * intros k x Hin. by apply elem_of_nil in Hin.
      * intros k v Hk. by rewrite lookup_empty in Hk.
  - destruct (foldr _ _ kvs) as [mh' ha] eqn:Hl. simpl in Ha.
    destruct (f x ha) as [v hb] eqn:Hx. injection Ha as <- <-.
    apply NoDup_cons in Hnd as [Hk Hnd].
    destruct (IH Hnd (fun k' y Hy => Hf k' y (list_elem_of_further _ _ _ Hy))
                _ _ _ Hl) as [[n1 [-> Hn1]] [Hnone Hrest]].
    destruct (Hf k x (list_elem_of_here _ _) _ _ _ Hx) as [[n2 [-> Hn2]] Hv].
    split; [|split].
    + exists (n1 ++ n2). rewrite app_assoc, length_app.
      split; [done|]. cbn [fmap list_fmap snd]. rewrite sum_nodes_cons. lia.
    + intros k' Hk'. cbn [fmap list_fmap fst] in Hk'.
      apply not_elem_of_cons in Hk' as [Hne Hk'].
      rewrite lookup_insert_ne by done. by apply Hnone.
    + intros h2 Hag.
      destruct (Hv h2) as [Hview Hreach].
      { eapply agree_on_sub; [exact Hag| |lia]. rewrite length_app. lia. }
      destruct (Hrest h2) as [Hviews Hreaches].
      { eapply agree_on_app; [|reflexivity].
        eapply agree_on_sub; [exact Hag|lia|lia]. }
      split.
      * intros k' y Hin. apply elem_of_cons in Hin as [[= -> ->]|Hin].
        -- exists v. by rewrite lookup_insert_eq.
        -- destruct (Hviews k' y Hin) as [w [Hw Hwv]]. exists w.
           split; [|done]. rewrite lookup_insert_ne; [done|].
           intros ->. apply Hk. apply list_elem_of_fmap. by exists (k', y).
      * intros k' w Hw l' Hl'.
        destruct (decide (k = k')) as [->|Hne].
        -- rewrite lookup_insert_eq in Hw. injection Hw as <-.
           apply Hreach in Hl'. rewrite !length_app in *. lia.
        -- rewrite lookup_insert_ne in Hw by done.
           apply (Hreaches _ _ Hw) in Hl'. rewrite !length_app in *. lia.
Qed.

Lemma JSON_parse_VArr l h :
  JSON_parse (VArr l) h =
  let '(vs, h1) := alloc_list JSON_parse l h in
  (HRef (length h1), h1 ++ [CArr vs]).
Proof. reflexivity. Qed.

Lemma JSON_parse_VObj m h :
  JSON_parse (VObj m) h =
  let '(mh, h1) := alloc_fields JSON_parse m h in
  (HRef (length h1), h1 ++ [CObj mh]).
Proof. reflexivity. Qed.

Lemma reach_prim h v l : is_ref v = false -> reach h v l -> False.
Proof. intros Hv Hr. destruct Hr; discriminate. Qed.

Lemma view_ref n h l :
  view (S n) h (HRef l) =
  match h !! l with
  | Some (CArr vs) => VArr <$> mapM (view n h) vs
  | Some (CObj m) => VObj <$> map_mapM (view n h) m
  | None => None
  end.
Proof. reflexivity. Qed.

Lemma JSON_parse_spec j h v h' : JSON_parse j h = (v, h') -> parsed j h v h'.
Proof.
  remember (nodes j) as n eqn:Hn. revert j Hn h v h'.
  induction n as [n IH] using lt_wf_ind. intros j Hn h v h' Hp.
  assert (forall x, nodes x < nodes j ->
            forall h v h', JSON_parse x h = (v, h') -> parsed x h v h') as IH'.
  { intros x Hx. eapply IH; [|reflexivity]. lia. }
  clear IH Hn n.
  destruct j as [| b | z | s | l | m].
  1-4: injection Hp as <- <-; (split; [exists []; by rewrite app_nil_r|]);
       intros h2 _; (split; [done|]); intros l' Hl';
       by apply reach_prim in Hl'.
  - rewrite JSON_parse_VArr in Hp.
    destruct (alloc_list JSON_parse l h) as [vs h1] eqn:Ha.
    injection Hp as <- <-.
    destruct (alloc_list_spec JSON_parse l
                (fun x Hx => IH' x (nodes_elem _ _ Hx)) _ _ _ Ha)
      as [[new [-> Hnew]] Hvs].
    split.
    + exists (new ++ [CArr vs]). rewrite app_assoc, length_app, nodes_VArr.
      split; [done|]. simpl. lia.
    + intros h2 Hag.
      assert (h2 !! length (h ++ new) = Some (CArr vs)) as Hcell.
      { rewrite Hag.
        - by rewrite lookup_app_r, Nat.sub_diag.
        - rewrite !length_app. simpl. lia. }
      destruct (Hvs h2) as [Hviews Hreaches].
      { eapply agree_on_app; [|reflexivity].
        eapply agree_on_sub; [exact Hag|lia|lia]. }
      split.
      * rewrite nodes_VArr, view_ref, Hcell.
        rewrite (mapM_Some_2 _ vs l); [done|].
        apply Forall2_same_length_lookup_2.
        { symmetry. by eapply Forall2_length. }
        intros i w x Hw Hx.
        eapply view_mono.
        -- eapply (Forall2_lookup_lr _ _ _ _ _ _ Hviews); eassumption.
        -- apply sum_nodes_elem. by eapply list_elem_of_lookup_2.
      * intros l' Hr. inversion Hr as [|? vs0 w ? Hc Hin Hr'|? ? ? ? ? Hc]; subst.
        -- rewrite !length_app. simpl. lia.
        -- rewrite Hcell in Hc. injection Hc as <-.
           rewrite Forall_forall in Hreaches.
           apply (Hreaches _ Hin) in Hr'. rewrite !length_app in *. simpl. lia.
        -- rewrite Hcell in Hc. discriminate.
  - rewrite JSON_parse_VObj in Hp. unfold alloc_fields in Hp.
    rewrite map_fold_foldr in Hp.
    destruct (foldr _ _ (map_to_list m)) as [mh h1] eqn:Ha.
    injection Hp as <- <-.
    destruct (alloc_pairs_spec JSON_parse (map_to_list m)
                (NoDup_fst_map_to_list m)
                (fun k x Hx => IH' x (nodes_field _ _ k
                                        (proj1 (elem_of_map_to_list _ _ _) Hx)))
                _ _ _ Ha) as [[new [-> Hnew]] [Hnone Hvs]].
    split.
    + exists (new ++ [CObj mh]). rewrite app_assoc, length_app, nodes_VObj.
      split; [done|]. simpl. lia.
    + intros h2 Hag.
      assert (h2 !! length (h ++ new) = Some (CObj mh)) as Hcell.
      { rewrite Hag.
        - by rewrite lookup_app_r, Nat.sub_diag.
        - rewrite !length_app. simpl. lia. }
      destruct (Hvs h2) as [Hviews Hreaches].
      { eapply agree_on_app; [|reflexivity].
        eapply agree_on_sub; [exact Hag|lia|lia]. }
      split.
      * rewrite nodes_VObj, view_ref, Hcell.
        assert (map_mapM (view (sum_nodes (map_to_list m).*2) h2) mh = Some m)
          as ->; [|done].
        apply map_mapM_Some. intros k.
        destruct (m !! k) as [x|] eqn:Hk.
        -- apply elem_of_map_to_list in Hk.
           destruct (Hviews k x Hk) as [w [-> Hw]]. constructor.
           eapply view_mono; [exact Hw|]. apply sum_nodes_elem.
           apply list_elem_of_fmap. by exists (k, x).
        -- rewrite Hnone; [constructor|].
           intros Hin. apply list_elem_of_fmap in Hin as [[k' x] [-> Hin]].
           apply elem_of_map_to_list in Hin. simpl in Hk. congruence.
      * intros l' Hr. inversion Hr as [|? ? ? ? Hc|? m0 k w ? Hc Hk Hr']; subst.
        -- rewrite !length_app. simpl. lia.
        -- rewrite Hcell in Hc. discriminate.
        -- rewrite Hcell in Hc. injection Hc as <-.
           apply (Hreaches _ _ Hk) in Hr'. rewrite !length_app in *. simpl. lia.
Qed.

(** ** Exceptions, the world and its monad *)

Inductive exn : Type :=
| TypeError
| Error (msg : string).

Inductive res (A : Type) : Type :=
| Ok (a : A)
| Throw (e : exn).
Arguments Ok {A} a.
Arguments Throw {A} e.

(** What the program can observe and change: the objects in memory, the
    property [AppState.state], the entry of [localStorage] under
    [STORAGE_KEY] (as the document its text denotes), and the documents
    written by the calls of [StorageService.save], oldest first. *)
Record World : Type := mkWorld {
  heap_of : heap;
  app_state : hval;
  storage : option value;
  saved : list value;
}.

Definition M (A : Type) : Type := World -> res A * World.

Definition ret {A} (a : A) : M A := fun w => (Ok a, w).

Definition throw {A} (e : exn) : M A := fun w => (Throw e, w).

Definition bind {A B} (m : M A) (f : A -> M B) : M B :=
  fun w =>
    match m w with
    | (Ok a, w') => f a w'
    | (Throw e, w') => (Throw e, w')
    end.

Notation "x <- m ;; k" := (bind m (fun x => k))
  (at level 100, m at next level, k at level 200, right associativity).
Notation "m ;; k" := (bind m (fun _ => k))
  (at level 100, k at level 200, right associativity).

(** Reading the heap. *)
Definition reading {A} (f : heap -> res A) : M A :=
  fun w => (f (heap_of w), w).

Definition set_heap (h : heap) (w : World) : World :=
  mkWorld h (app_state w) (storage w) (saved w).

(** A new object. *)
Definition alloc (c : cell) : M hval :=
  fun w => (Ok (HRef (length (heap_of w))), set_heap (heap_of w ++ [c]) w).

(** Sequencing a command over a list, left to right. *)
Fixpoint mmap {A B} (f : A -> M B) (l : list A) : M (list B) :=
  match l with
  | [] => ret []
  | x :: l' => y <- f x ;; ys <- mmap f l' ;; ret (y :: ys)
  end.

(** The same for a function that only reads. *)
Fixpoint rmap {A B} (f : A -> res B) (l : list A) : res (list B) :=
  match l with
  | [] => Ok []
  | x :: l' =>
      match f x with
      | Throw e => Throw e
      | Ok y =>
          match rmap f l' with
          | Throw e => Throw e
          | Ok ys => Ok (y :: ys)
          end
      end
  end.

(** Sequencing two computations that only read. *)
Definition rbind {A B} (r : res A) (f : A -> res B) : res B :=
  match r with
  | Throw e => Throw e
  | Ok a => f a
  end.

(** ** Properties of objects, arrays and strings *)

(** The array index a property name denotes: a decimal numeral without
    leading zero. *)
Definition digit_of (c : ascii) : option N :=
  let n := N_of_ascii c in
  if (48 <=? n)%N && (n <=? 57)%N then Some (n - 48)%N else None.

Fixpoint digits_value (s : string) (acc : N) : option N :=
  match s with
  | EmptyString => Some acc
  | String c r =>
      match digit_of c with
      | Some d => digits_value r (10 * acc + d)%N
      | None => None
      end
  end.

Definition parse_index (k : string) : option nat :=
  match k with
  | EmptyString => None
  | String c r =>
      if decide (c = "0"%char)
      then (if decide (r = EmptyString) then Some 0 else None)
      else N.to_nat <$> digits_value k 0%N
  end.

(** The index an array of length [n] has under the property name [k]. *)
Definition index_of_key (n : nat) (k : string) : option nat :=
  i ← parse_index k; if decide (i < n) then Some i else None.

Definition array_prop (vs : list hval) (k : string) : option hval :=
  if decide (k = "length") then Some (HNum (Z.of_nat (length vs)))
  else i ← index_of_key (length vs) k; vs !! i.

Definition char_at (s : string) (i : nat) : option hval :=
  (fun c => HStr (String c EmptyString)) <$> String.get i s.

Definition string_prop (s : string) (k : string) : option hval :=
  if decide (k = "length") then Some (HNum (Z.of_nat (String.length s)))
  else i ← index_of_key (String.length s) k; char_at s i.

(** [v[k]]: a TypeError on [null] and [undefined], [undefined] for a
    property the value does not have. *)
Definition get_prop (h : heap) (v : option hval) (k : string)
  : res (option hval) :=
  match v with
  | None | Some HNull => Throw TypeError
  | Some (HRef l) =>
      match h !! l with
      | Some (CObj m) => Ok (m !! k)
      | Some (CArr vs) => Ok (array_prop vs k)
      | None => Throw TypeError
      end
  | Some (HStr s) => Ok (string_prop s k)
  | Some (HBool _) | Some (HNum _) => Ok None
  end.

(** [k in v], for an object or an array ([v] is known to be one where the
    program uses it). *)
Definition has_prop (h : heap) (v : hval) (k : string) : res bool :=
  match v with
  | HRef l =>
      match h !! l with
      | Some (CObj m) => Ok (bool_decide (is_Some (m !! k)))
      | Some (CArr vs) => Ok (bool_decide (is_Some (array_prop vs k)))
      | None => Throw TypeError
      end
  | _ => Throw TypeError
  end.

(** The own enumerable properties [{...v}] copies: those of an object, the
    indices of an array or of a string, none for the other values. *)
Definition indexed {A} (f : A -> hval) (l : list A) : gmap string hval :=
  list_to_map (imap (fun i x => (pretty i, f x)) l).

Definition own_props (h : heap) (v : option hval) : gmap string hval :=
  match v with
  | Some (HRef l) =>
      match h !! l with
      | Some (CObj m) => m
      | Some (CArr vs) => indexed id vs
      | None => ∅
      end
  | Some (HStr s) =>
      indexed (fun c => HStr (String c EmptyString)) (String.list_ascii_of_string s)
  | _ => ∅
  end.

(** [o[k] = x] on an object.  The program assigns named properties to
    objects only: on [null] and [undefined] the assignment raises a
    TypeError, on another primitive value it does nothing, and on an array
    it is outside this model (rendered as a TypeError). *)
Definition set_prop (v : option hval) (k : string) (x : hval) : M unit :=
  fun w =>
    match v with
    | None | Some HNull => (Throw TypeError, w)
    | Some (HRef l) =>
        match heap_of w !! l with
        | Some (CObj m) =>
            (Ok tt, set_heap (<[l := CObj (<[k := x]> m)]> (heap_of w)) w)
        | _ => (Throw TypeError, w)
        end
    | Some _ => (Ok tt, w)
    end.

(** The elements of an array; calling an array method on anything else is
    a TypeError. *)
Definition elements (h : heap) (v : option hval) : res (list hval) :=
  match v with
  | Some (HRef l) =>
      match h !! l with
      | Some (CArr vs) => Ok vs
      | _ => Throw TypeError
      end
  | _ => Throw TypeError
  end.

(** [arr.push(x)]: in place. *)
Definition Array_push (arr : option hval) (x : hval) : M unit :=
  fun w =>
    match arr with
    | Some (HRef l) =>
        match heap_of w !! l with
        | Some (CArr vs) =>
            (Ok tt, set_heap (<[l := CArr (vs ++ [x])]> (heap_of w)) w)
        | _ => (Throw TypeError, w)
        end
    | _ => (Throw TypeError, w)
    end.

(** [arr[i] = x] for an index [i] within the array: in place. *)
Definition Array_set (arr : option hval) (i : nat) (x : hval) : M unit :=
  fun w =>
    match arr with
    | Some (HRef l) =>
        match heap_of w !! l with
        | Some (CArr vs) =>
            (Ok tt, set_heap (<[l := CArr (<[i := x]> vs)]> (heap_of w)) w)
        | _ => (Throw TypeError, w)
        end
    | _ => (Throw TypeError, w)
    end.

(** The position of the first element whose test is true, [-1] if none;
    the test of later elements is not run. *)
Fixpoint find_index (p : hval -> res bool) (vs : list hval) (i : Z) : res Z :=
  match vs with
  | [] => Ok (-1)%Z
  | v :: vs' =>
      match p v with
      | Throw e => Throw e
      | Ok true => Ok i
      | Ok false => find_index p vs' (i + 1)%Z
      end
  end.

(** [arr.findIndex(p)]. *)
Definition Array_findIndex (arr : option hval) (p : heap -> hval -> res bool)
  : M Z :=
  reading (fun h =>
    match elements h arr with
    | Throw e => Throw e
    | Ok vs => find_index (p h) vs 0%Z
    end).

(** The elements whose test is true, in order. *)
Fixpoint filter_res (p : hval -> res bool) (vs : list hval)
  : res (list hval) :=
  match vs with
  | [] => Ok []
  | v :: vs' =>
      match p v with
      | Throw e => Throw e
      | Ok b =>
          match filter_res p vs' with
          | Throw e => Throw e
          | Ok r => Ok (if b then v :: r else r)
          end
      end
  end.

(** [arr.filter(p)]: a new array. *)
Definition Array_filter (arr : option hval) (p : heap -> hval -> res bool)
  : M hval :=
  kept <- reading (fun h =>
            match elements h arr with
            | Throw e => Throw e
            | Ok vs => filter_res (p h) vs
            end) ;;
  alloc (CArr kept).

(** [arr.map(f)]: a new array; [f] may create objects. *)
Definition Array_map (arr : option hval) (f : hval -> M hval) : M hval :=
  vs <- reading (fun h => elements h arr) ;;
  ws <- mmap f vs ;;
  alloc (CArr ws).

(** ** The application state, the store and the repository *)

Definition APP_VERSION : string := "1.0.0".

(** [AppState.state]. *)
Definition AppState_state : M hval := fun w => (Ok (app_state w), w).

(** [AppState.state = v]. *)
Definition set_AppState_state (v : hval) : M unit :=
  fun w => (Ok tt, mkWorld (heap_of w) v (storage w) (saved w)).

(** [AppState.initial()]: a new snapshot object with four new empty
    arrays. *)
Definition AppState_initial : M hval :=
  students <- alloc (CArr []) ;;
  teachers <- alloc (CArr []) ;;
  classes <- alloc (CArr []) ;;
  enrollments <- alloc (CArr []) ;;
  alloc (CObj (<["version" := HStr APP_VERSION]>
              (<["students" := students]>
              (<["teachers" := teachers]>
              (<["classes" := classes]>
              (<["enrollments" := enrollments]>
              (<["theme" := HStr "dark"]> ∅))))))).

(** [StorageService.save(state)]: the whole of [state] is serialized and
    replaces the stored entry ([UI.flashSaved] only touches the page). *)
Definition StorageService_save (state : hval) : M unit :=
  fun w =>
    match JSON_stringify (heap_of w) state with
    | None => (Throw TypeError, w)
    | Some j =>
        (Ok tt, mkWorld (heap_of w) (app_state w) (Some j) (saved w ++ [j]))
    end.

(** [AppState.state[entity]]. *)
Definition state_get (entity : string) : M (option hval) :=
  st <- AppState_state ;;
  reading (fun h => get_prop h (Some st) entity).

(** [AppState.state[entity] = v]. *)
Definition state_set (entity : string) (v : hval) : M unit :=
  st <- AppState_state ;;
  set_prop (Some st) entity v.

Definition save_state : M unit :=
  st <- AppState_state ;;
  StorageService_save st.

(** [r => r[field] === id] and its negation. *)
Definition field_is (field : string) (id : option hval) (h : heap) (r : hval)
  : res bool :=
  match get_prop h (Some r) field with
  | Throw e => Throw e
  | Ok x => Ok (strict_eq x id)
  end.

Definition field_is_not (field : string) (id : option hval) (h : heap)
    (r : hval) : res bool :=
  match get_prop h (Some r) field with
  | Throw e => Throw e
  | Ok x => Ok (negb (strict_eq x id))
  end.

(** [Data.add]. *)
Definition Data_add (entity : string) (item : hval) : M unit :=
  collection <- state_get entity ;;
  Array_push collection item ;;
  save_state.

(** [{ ...a, ...b }]: a new object. *)
Definition spread2 (a b : option hval) : M hval :=
  props <- reading (fun h => Ok (own_props h b ∪ own_props h a)) ;;
  alloc (CObj props).

(** [Data.update]. *)
Definition Data_update (entity : string) (id : option hval) (update : hval)
  : M unit :=
  collection <- state_get entity ;;
  idx <- Array_findIndex collection (field_is "id" id) ;;
  if (0 <=? idx)%Z then
    old <- reading (fun h =>
             match elements h collection with
             | Throw e => Throw e
             | Ok vs => Ok (vs !! Z.to_nat idx)
             end) ;;
    merged <- spread2 old (Some update) ;;
    Array_set collection (Z.to_nat idx) merged ;;
    save_state
  else ret tt.

(** [c => c.teacherId === id ? { ...c, teacherId: '' } : c]. *)
Definition clear_teacher (id : option hval) (c : hval) : M hval :=
  hit <- reading (fun h => field_is "teacherId" id h c) ;;
  if hit : bool then
    props <- reading (fun h => Ok (<["teacherId" := HStr ""]>
                                     (own_props h (Some c)))) ;;
    alloc (CObj props)
  else ret c.

(** [Data.remove]. *)
Definition Data_remove (entity : string) (id : option hval) : M unit :=
  collection <- state_get entity ;;
  next <- Array_filter collection (field_is_not "id" id) ;;
  state_set entity next ;;
  (if decide (entity = "teachers") then
     classes <- state_get "classes" ;;
     mapped <- Array_map classes (clear_teacher id) ;;
     state_set "classes" mapped
   else ret tt) ;;
  (if decide (entity = "students") then
     enrollments <- state_get "enrollments" ;;
     kept <- Array_filter enrollments (field_is_not "studentId" id) ;;
     state_set "enrollments" kept
   else ret tt) ;;
  (if decide (entity = "classes") then
     enrollments <- state_get "enrollments" ;;
     kept <- Array_filter enrollments (field_is_not "classId" id) ;;
     state_set "enrollments" kept
   else ret tt) ;;
  save_state.

(** ** Snapshots: observations and well-formedness *)

(** The entity kinds of the repository and the property of the snapshot
    object that holds each collection. *)
Inductive kind : Type := Students | Teachers | Classes | Enrollments.

Definition kind_name (k : kind) : string :=
  match k with
  | Students => "students"
  | Teachers => "teachers"
  | Classes => "classes"
  | Enrollments => "enrollments"
  end.

Global Instance kind_eq_dec : EqDecision kind.
Proof. solve_decision. Defined.

(** The object a value refers to, if it refers to one. *)
Definition record (h : heap) (v : hval) : option (gmap string hval) :=
  match v with
  | HRef l => match h !! l with Some (CObj m) => Some m | _ => None end
  | _ => None
  end.

(** The array a value refers to, with its location. *)
Definition array_at (h : heap) (v : option hval)
  : option (loc * list hval) :=
  match v with
  | Some (HRef a) =>
      match h !! a with Some (CArr vs) => Some (a, vs) | _ => None end
  | _ => None
  end.

(** The snapshot object [AppState.state] refers to. *)
Definition snapshot (w : World) : option (gmap string hval) :=
  record (heap_of w) (app_state w).

(** The collection of a kind: the elements of [AppState.state[kind]]. *)
Definition collection (w : World) (k : kind) : option (list hval) :=
  sm ← snapshot w; snd <$> array_at (heap_of w) (sm !! kind_name k).

(** [r[f]] for a record [r] of the heap ([None] is [undefined]). *)
Definition field (h : heap) (r : hval) (f : string) : option hval :=
  m ← record h r; m !! f.

(** A record whose properties all hold primitive values, as the entities
    of the data model do. *)
Definition flat_record (h : heap) (v : hval) : bool :=
  match record h v with
  | Some m => bool_decide (map_Forall (fun _ x => is_ref x = false) m)
  | None => false
  end.

Definition is_kind_name (f : string) : bool :=
  bool_decide (f ∈ kind_name <$> [Students; Teachers; Classes; Enrollments]).

(** A snapshot as the data model has it: [AppState.state] is an object
    whose four collections are distinct arrays of flat records and whose
    other properties (version, theme) hold primitive values. *)
Definition well_formed (w : World) : bool :=
  match snapshot w with
  | Some sm =>
      let arr k := array_at (heap_of w) (sm !! kind_name k) in
      match arr Students, arr Teachers, arr Classes, arr Enrollments with
      | Some (a1, v1), Some (a2, v2), Some (a3, v3), Some (a4, v4) =>
          bool_decide (NoDup [a1; a2; a3; a4]) &&
          forallb (flat_record (heap_of w)) (v1 ++ v2 ++ v3 ++ v4) &&
          bool_decide (map_Forall (fun f v =>
            is_ref v = false \/ is_kind_name f = true) sm)
      | _, _, _, _ => false
      end
  | None => false
  end.

(** The facts [well_formed] decides. *)
Record shape (w : World) (st : loc) (sm : gmap string hval)
    (al : kind -> loc) (el : kind -> list hval) : Prop := {
  sh_state : app_state w = HRef st;
  sh_obj : heap_of w !! st = Some (CObj sm);
  sh_loc : forall k, sm !! kind_name k = Some (HRef (al k));
  sh_arr : forall k, heap_of w !! al k = Some (CArr (el k));
  sh_inj : forall k k', al k = al k' -> k = k';
  sh_rec : forall k r, r ∈ el k -> flat_record (heap_of w) r = true;
  sh_other : forall f v, sm !! f = Some v ->
               is_ref v = false \/ is_kind_name f = true;
}.

Lemma array_at_Some h v a vs :
  array_at h v = Some (a, vs) <-> v = Some (HRef a) /\ h !! a = Some (CArr vs).
Proof.
  unfold array_at. split.
  - destruct v as [[| | | |l]|]; try discriminate.
    destruct (h !! l) as [[ws|]|] eqn:Hl; try discriminate.
    by intros [= -> ->].
  - by intros [-> ->].
Qed.

Lemma well_formed_shape w :
  well_formed w = true -> exists st sm al el, shape w st sm al el.
Proof.
  unfold well_formed, snapshot, record.
  destruct (app_state w) as [| | | |st] eqn:Hst; try discriminate.
  destruct (heap_of w !! st) as [[|sm]|] eqn:Hsm; try discriminate.
  destruct (array_at _ (sm !! kind_name Students)) as [[a1 v1]|] eqn:H1;
    [|discriminate].
  destruct (array_at _ (sm !! kind_name Teachers)) as [[a2 v2]|] eqn:H2;
    [|discriminate].
  destruct (array_at _ (sm !! kind_name Classes)) as [[a3 v3]|] eqn:H3;
    [|discriminate].
  destruct (array_at _ (sm !! kind_name Enrollments)) as [[a4 v4]|] eqn:H4;
    [|discriminate].
  apply array_at_Some in H1 as [H1 H1'], H2 as [H2 H2'],
    H3 as [H3 H3'], H4 as [H4 H4'].
  intros H. apply andb_prop in H as [H Hother].
  apply andb_prop in H as [Hnd Hflat].
  apply bool_decide_eq_true in Hnd, Hother.
  rewrite forallb_forall in Hflat.
  exists st, sm,
    (fun k => match k with
              | Students => a1 | Teachers => a2
              | Classes => a3 | Enrollments => a4 end),
    (fun k => match k with
              | Students => v1 | Teachers => v2
              | Classes => v3 | Enrollments => v4 end).
  split; try done.
  - by intros [].
  - by intros [].
  - intros k k' Heq.
    apply NoDup_cons in Hnd as [N1 Hnd]. apply NoDup_cons in Hnd as [N2 Hnd].
    apply NoDup_cons in Hnd as [N3 Hnd].
    destruct k, k'; try done; exfalso; subst; set_solver.
  - intros k r Hr. apply Hflat. apply list_elem_of_In.
    destruct k; set_solver.
Qed.

Lemma map_mapM_is_Some {A B} (f : A -> option B) (m : gmap string A) :
  map_Forall (fun _ x => is_Some (f x)) m -> is_Some (map_mapM f m).
Proof. intros H. unfold map_mapM. by rewrite decide_True. Qed.

Lemma view_prim n h v : is_ref v = false -> is_Some (view n h v).
Proof. destruct v, n; simpl; try discriminate; eauto. Qed.

Lemma flat_record_inv h r :
  flat_record h r = true ->
  exists l m, r = HRef l /\ h !! l = Some (CObj m) /\
              map_Forall (fun _ x => is_ref x = false) m.
Proof.
  unfold flat_record, record. destruct r as [| | | |l]; try discriminate.
  destruct (h !! l) as [[vs|m]|] eqn:Hl; try discriminate.
  intros H%bool_decide_eq_true. by exists l, m.
Qed.

Lemma view_flat_record n h r :
  flat_record h r = true -> is_Some (view (S n) h r).
Proof.
  intros (l & m & -> & Hl & Hm)%flat_record_inv.
  rewrite view_ref, Hl. apply fmap_is_Some, map_mapM_is_Some.
  intros k x Hk. apply view_prim. by eapply Hm.
Qed.

Lemma is_kind_name_inv f : is_kind_name f = true -> exists k, f = kind_name k.
Proof.
  intros H%bool_decide_eq_true. apply list_elem_of_fmap in H as [k [-> _]].
  by exists k.
Qed.

Lemma is_kind_name_name k : is_kind_name (kind_name k) = true.
Proof. by destruct k. Qed.

Lemma kind_name_inj k k' : kind_name k = kind_name k' -> k = k'.
Proof. by destruct k, k'. Qed.

Lemma shape_length w st sm al el : shape w st sm al el -> 3 < length (heap_of w).
Proof.
  intros S.
  pose proof (lookup_lt_Some _ _ _ (sh_arr _ _ _ _ _ S Students)).
  pose proof (lookup_lt_Some _ _ _ (sh_arr _ _ _ _ _ S Teachers)).
  pose proof (lookup_lt_Some _ _ _ (sh_arr _ _ _ _ _ S Classes)).
  pose proof (lookup_lt_Some _ _ _ (sh_arr _ _ _ _ _ S Enrollments)).
  assert (al Students <> al Teachers) by (intros E; by apply (sh_inj _ _ _ _ _ S) in E).
  assert (al Students <> al Classes) by (intros E; by apply (sh_inj _ _ _ _ _ S) in E).
  assert (al Students <> al Enrollments) by (intros E; by apply (sh_inj _ _ _ _ _ S) in E).
  assert (al Teachers <> al Classes) by (intros E; by apply (sh_inj _ _ _ _ _ S) in E).
  assert (al Teachers <> al Enrollments) by (intros E; by apply (sh_inj _ _ _ _ _ S) in E).
  assert (al Classes <> al Enrollments) by (intros E; by apply (sh_inj _ _ _ _ _ S) in E).
  lia.
Qed.

(** A well-formed snapshot can be serialized. *)
Lemma shape_serializable w st sm al el :
  shape w st sm al el ->
  is_Some (JSON_stringify (heap_of w) (app_state w)).
Proof.
  intros S. rewrite (sh_state _ _ _ _ _ S). unfold JSON_stringify.
  assert (is_Some (view 3 (heap_of w) (HRef st))) as [j Hj].
  - rewrite view_ref, (sh_obj _ _ _ _ _ S).
    apply fmap_is_Some, map_mapM_is_Some. intros f v Hf.
    destruct (sh_other _ _ _ _ _ S f v Hf) as [Hp|Hk]; [by apply view_prim|].
    apply is_kind_name_inv in Hk as [k ->].
    rewrite (sh_loc _ _ _ _ _ S k) in Hf. injection Hf as <-.
    rewrite view_ref, (sh_arr _ _ _ _ _ S k).
    apply fmap_is_Some, mapM_is_Some, Forall_forall. intros r Hr.
    apply view_flat_record. by eapply sh_rec.
  - exists j. eapply view_mono; [exact Hj|].
    pose proof (shape_length _ _ _ _ _ S). lia.
Qed.

(** ** Frame properties: what a change of the heap leaves in place *)

(** [h'] keeps every object of [h], except possibly the one at [st]. *)
Definition keeps (st : loc) (h h' : heap) : Prop :=
  forall l m, l <> st -> h !! l = Some (CObj m) -> h' !! l = Some (CObj m).

Lemma keeps_refl st h : keeps st h h.
Proof. by intros l m _ H. Qed.

Lemma keeps_trans st h1 h2 h3 : keeps st h1 h2 -> keeps st h2 h3 -> keeps st h1 h3.
Proof. intros H1 H2 l m Hl H. by apply H2, H1. Qed.

Lemma keeps_app st h new : keeps st h (h ++ new).
Proof.
  intros l m _ H. rewrite lookup_app_l; [done|]. by eapply lookup_lt_Some.
Qed.

Lemma keeps_insert_state st h c : keeps st h (<[st := c]> h).
Proof. intros l m Hl H. by rewrite list_lookup_insert_ne. Qed.

Lemma keeps_insert_arr st h a vs vs' :
  h !! a = Some (CArr vs) -> keeps st h (<[a := CArr vs']> h).
Proof.
  intros Ha l m _ H. rewrite list_lookup_insert_ne; [done|]. congruence.
Qed.

Lemma keeps_record st h h' r m :
  keeps st h h' -> r <> HRef st -> record h r = Some m -> record h' r = Some m.
Proof.
  intros K Hr. unfold record. destruct r as [| | | |l]; try done.
  destruct (h !! l) as [[|m']|] eqn:Hl; try done. intros [= ->].
  rewrite (K l m); [done| congruence |done].
Qed.

Lemma keeps_flat st h h' r :
  keeps st h h' -> r <> HRef st ->
  flat_record h r = true -> flat_record h' r = true.
Proof.
  intros K Hr. unfold flat_record.
  destruct (record h r) as [m|] eqn:Hm; [|done].
  by rewrite (keeps_record _ _ _ _ _ K Hr Hm).
Qed.

Lemma keeps_field st h h' r f :
  keeps st h h' -> r <> HRef st -> is_Some (record h r) ->
  field h' r f = field h r f.
Proof.
  intros K Hr [m Hm]. unfold field.
  by rewrite Hm, (keeps_record _ _ _ _ _ K Hr Hm).
Qed.

Lemma flat_is_record h r : flat_record h r = true -> is_Some (record h r).
Proof. unfold flat_record. destruct (record h r); [eauto|done]. Qed.

(** No record of a collection is the snapshot object itself. *)
Lemma shape_rec_ne w st sm al el k r :
  shape w st sm al el -> r ∈ el k -> r <> HRef st.
Proof.
  intros S Hr ->. apply (sh_rec _ _ _ _ _ S) in Hr.
  apply flat_record_inv in Hr as (l & m & [= <-] & Hl & Hm).
  rewrite (sh_obj _ _ _ _ _ S) in Hl. injection Hl as <-.
  by specialize (Hm _ _ (sh_loc _ _ _ _ _ S Students)).
Qed.

Lemma shape_al_ne w st sm al el k : shape w st sm al el -> al k <> st.
Proof.
  intros S E. pose proof (sh_arr _ _ _ _ _ S k) as Ha.
  rewrite E, (sh_obj _ _ _ _ _ S) in Ha. discriminate.
Qed.

(** A shape only depends on the heap and on [AppState.state]. *)
Lemma shape_ext w w' st sm al el :
  heap_of w' = heap_of w -> app_state w' = app_state w ->
  shape w st sm al el -> shape w' st sm al el.
Proof.
  intros Hh Hs [? ? ? ? ? ? ?]. split; rewrite ?Hh, ?Hs; done.
Qed.

(** New cells after the old ones leave a shape as it is. *)
Lemma shape_app w st sm al el new :
  shape w st sm al el -> shape (set_heap (heap_of w ++ new) w) st sm al el.
Proof.
  intros S. destruct S as [H1 H2 H3 H4 H5 H6 H7]. split; simpl; try done.
  - rewrite lookup_app_l; [done|]. by eapply lookup_lt_Some.
  - intros k. rewrite lookup_app_l; [done|]. by eapply lookup_lt_Some.
  - intros k r Hr. eapply keeps_flat; [apply (keeps_app (length (heap_of w) + 1))| |by eapply H6].
    intros ->. apply H6 in Hr. apply flat_record_inv in Hr as (l & m & [= <-] & Hl & _).
    apply lookup_lt_Some in Hl. lia.
Qed.

(** Replacing the elements of the array of kind [k], in place, by flat
    records. *)
Lemma shape_write w st sm al el k vs' :
  shape w st sm al el ->
  Forall (fun r => flat_record (heap_of w) r = true) vs' ->
  shape (set_heap (<[al k := CArr vs']> (heap_of w)) w) st sm al
        (<[k := vs']> el).
Proof.
  intros S Hvs'. pose proof S as [H1 H2 H3 H4 H5 H6 H7].
  assert (keeps st (heap_of w) (<[al k := CArr vs']> (heap_of w))) as K.
  { eapply keeps_insert_arr, H4. }
  split; simpl; try done.
  - rewrite list_lookup_insert_ne; [done|]. by eapply shape_al_ne.
  - intros k'. destruct (decide (k = k')) as [<-|Hne].
    + rewrite !fn_lookup_insert. apply list_lookup_insert_eq.
      by eapply lookup_lt_Some.
    + rewrite !fn_lookup_insert_ne by done.
      rewrite list_lookup_insert_ne; [done|]. intros E. by apply H5 in E.
  - intros k' r. destruct (decide (k = k')) as [<-|Hne].
    + rewrite fn_lookup_insert. intros Hr.
      rewrite Forall_forall in Hvs'. pose proof (Hvs' _ Hr) as Hflat.
      eapply keeps_flat; [exact K| |done].
      intros ->. apply flat_record_inv in Hflat as (l & m & [= <-] & Hl & Hm).
      rewrite H2 in Hl. injection Hl as <-.
      by specialize (Hm _ _ (H3 Students)).
    + rewrite fn_lookup_insert_ne by done. intros Hr.
      eapply keeps_flat; [exact K|by eapply shape_rec_ne|by eapply H6].
Qed.

Lemma flat_ne_state w st sm al el r :
  shape w st sm al el -> flat_record (heap_of w) r = true -> r <> HRef st.
Proof.
  intros S Hflat ->.
  apply flat_record_inv in Hflat as (l & m & [= <-] & Hl & Hm).
  rewrite (sh_obj _ _ _ _ _ S) in Hl. injection Hl as <-.
  by specialize (Hm _ _ (sh_loc _ _ _ _ _ S Students)).
Qed.

(** A new array of flat records becomes the collection of kind [k]. *)
Lemma shape_install w st sm al el k vs' :
  shape w st sm al el ->
  Forall (fun r => flat_record (heap_of w) r = true) vs' ->
  shape (set_heap (<[st := CObj (<[kind_name k := HRef (length (heap_of w))]> sm)]>
                     (heap_of w ++ [CArr vs'])) w)
        st (<[kind_name k := HRef (length (heap_of w))]> sm)
        (<[k := length (heap_of w)]> al) (<[k := vs']> el).
Proof.
  intros S Hvs'. pose proof S as [H1 H2 H3 H4 H5 H6 H7].
  set (h := heap_of w) in *. set (n := length h).
  assert (st < n) as Hst by (by eapply lookup_lt_Some).
  assert (keeps st h (<[st := CObj (<[kind_name k := HRef n]> sm)]> (h ++ [CArr vs'])))
    as K.
  { eapply keeps_trans; [apply keeps_app|apply keeps_insert_state]. }
  split; simpl; try done.
  - apply list_lookup_insert_eq. rewrite length_app. lia.
  - intros k'. destruct (decide (k = k')) as [<-|Hne].
    + by rewrite fn_lookup_insert, lookup_insert_eq.
    + rewrite fn_lookup_insert_ne by done.
      rewrite lookup_insert_ne; [done|]. intros E. by apply kind_name_inj in E.
  - intros k'. destruct (decide (k = k')) as [<-|Hne].
    + rewrite !fn_lookup_insert, list_lookup_insert_ne by lia.
      unfold n. by rewrite lookup_app_r, Nat.sub_diag.
    + rewrite !fn_lookup_insert_ne by done.
      pose proof (shape_al_ne _ _ _ _ _ k' S) as Hal.
      rewrite list_lookup_insert_ne by done.
      rewrite lookup_app_l; [done|]. by eapply lookup_lt_Some.
  - intros k1 k2.
    assert (forall k', al k' < n) as Hlt by (intros k'; by eapply lookup_lt_Some).
    destruct (decide (k = k1)) as [<-|N1], (decide (k = k2)) as [<-|N2];
      rewrite ?fn_lookup_insert, ?fn_lookup_insert_ne by done; try done.
    + intros E. specialize (Hlt k2). lia.
    + intros E. specialize (Hlt k1). lia.
    + apply H5.
  - intros k' r. destruct (decide (k = k')) as [<-|Hne].
    + rewrite fn_lookup_insert. intros Hr.
      rewrite Forall_forall in Hvs'. pose proof (Hvs' _ Hr) as Hflat.
      eapply keeps_flat; [exact K|by eapply flat_ne_state|done].
    + rewrite fn_lookup_insert_ne by done. intros Hr.
      eapply keeps_flat; [exact K|by eapply shape_rec_ne|by eapply H6].
  - intros f v. destruct (decide (kind_name k = f)) as [<-|Hne].
    + intros _. right. apply is_kind_name_name.
    + rewrite lookup_insert_ne by done. apply H7.
Qed.

(** ** The commands on a well-formed snapshot *)

Lemma state_get_shape w st sm al el f :
  shape w st sm al el -> state_get f w = (Ok (sm !! f), w).
Proof.
  intros S. unfold state_get, bind, AppState_state, reading, get_prop.
  by rewrite (sh_state _ _ _ _ _ S), (sh_obj _ _ _ _ _ S).
Qed.

Lemma state_set_shape w st sm al el f v :
  shape w st sm al el ->
  state_set f v w =
  (Ok tt, set_heap (<[st := CObj (<[f := v]> sm)]> (heap_of w)) w).
Proof.
  intros S. unfold state_set, bind, AppState_state, set_prop.
  by rewrite (sh_state _ _ _ _ _ S), (sh_obj _ _ _ _ _ S).
Qed.

Lemma save_state_shape w st sm al el :
  shape w st sm al el ->
  exists j, JSON_stringify (heap_of w) (app_state w) = Some j /\
    save_state w =
    (Ok tt, mkWorld (heap_of w) (app_state w) (Some j) (saved w ++ [j])).
Proof.
  intros S. destruct (shape_serializable _ _ _ _ _ S) as [j Hj].
  exists j. split; [done|].
  unfold save_state, bind, AppState_state, StorageService_save. by rewrite Hj.
Qed.

Lemma Array_push_arr w a vs x :
  heap_of w !! a = Some (CArr vs) ->
  Array_push (Some (HRef a)) x w =
  (Ok tt, set_heap (<[a := CArr (vs ++ [x])]> (heap_of w)) w).
Proof. intros H. unfold Array_push. by rewrite H. Qed.

Lemma Array_set_arr w a vs i x :
  heap_of w !! a = Some (CArr vs) ->
  Array_set (Some (HRef a)) i x w =
  (Ok tt, set_heap (<[a := CArr (<[i := x]> vs)]> (heap_of w)) w).
Proof. intros H. unfold Array_set. by rewrite H. Qed.

Lemma elements_arr h a vs :
  h !! a = Some (CArr vs) -> elements h (Some (HRef a)) = Ok vs.
Proof. intros H. unfold elements. by rewrite H. Qed.

Lemma get_prop_record h r m f :
  record h r = Some m -> get_prop h (Some r) f = Ok (m !! f).
Proof.
  unfold record, get_prop. destruct r as [| | | |l]; try done.
  destruct (h !! l) as [[|m']|]; try done. by intros [= ->].
Qed.

Lemma field_record h r m f : record h r = Some m -> field h r f = m !! f.
Proof. intros H. unfold field. by rewrite H. Qed.

(** On records the tests of the repository do not fail, and decide the
    equation they stand for. *)
Lemma field_is_record f id h r :
  is_Some (record h r) ->
  field_is f id h r = Ok (bool_decide (field h r f = id)).
Proof.
  intros [m Hm]. unfold field_is, strict_eq.
  by rewrite (get_prop_record _ _ _ _ Hm), (field_record _ _ _ _ Hm).
Qed.

Lemma field_is_not_record f id h r :
  is_Some (record h r) ->
  field_is_not f id h r = Ok (negb (bool_decide (field h r f = id))).
Proof.
  intros [m Hm]. unfold field_is_not, strict_eq.
  by rewrite (get_prop_record _ _ _ _ Hm), (field_record _ _ _ _ Hm).
Qed.

Lemma filter_res_records (p : hval -> res bool) (P : hval -> Prop)
    `{!forall r, Decision (P r)} vs :
  Forall (fun r => p r = Ok (bool_decide (P r))) vs ->
  filter_res p vs = Ok (filter P vs).
Proof.
  induction 1 as [|r vs Hr _ IH]; [done|]. simpl. rewrite Hr, IH.
  rewrite filter_cons. destruct (decide (P r)) as [HP|HP].
  - by rewrite bool_decide_eq_true_2.
  - by rewrite bool_decide_eq_false_2.
Qed.

Lemma filter_ext_in {A} (P Q : A -> Prop) `{!forall x, Decision (P x)}
    `{!forall x, Decision (Q x)} (l : list A) :
  Forall (fun x => P x <-> Q x) l -> filter P l = filter Q l.
Proof.
  induction 1 as [|x l Hx _ IH]; [done|]. rewrite !filter_cons, IH.
  destruct (decide (P x)), (decide (Q x)); tauto.
Qed.

(** *** [Data.add] *)

Lemma Data_add_heap w st sm al el k item :
  shape w st sm al el ->
  heap_of (snd (Data_add (kind_name k) item w)) =
    <[al k := CArr (el k ++ [item])]> (heap_of w) /\
  app_state (snd (Data_add (kind_name k) item w)) = app_state w.
Proof.
  intros S. unfold Data_add, bind.
  rewrite (state_get_shape _ _ _ _ _ _ S), (sh_loc _ _ _ _ _ S).
  rewrite (Array_push_arr _ _ _ _ (sh_arr _ _ _ _ _ S k)).
  unfold save_state, bind, AppState_state, StorageService_save. simpl.
  by destruct (JSON_stringify _ _).
Qed.

Lemma Data_add_shape w st sm al el k item :
  shape w st sm al el ->
  flat_record (heap_of w) item = true ->
  exists j w',
    Data_add (kind_name k) item w = (Ok tt, w') /\
    heap_of w' = <[al k := CArr (el k ++ [item])]> (heap_of w) /\
    app_state w' = app_state w /\
    storage w' = Some j /\ saved w' = saved w ++ [j] /\
    JSON_stringify (heap_of w') (app_state w') = Some j /\
    shape w' st sm al (<[k := el k ++ [item]]> el).
Proof.
  intros S Hitem.
  assert (shape (set_heap (<[al k := CArr (el k ++ [item])]> (heap_of w)) w)
            st sm al (<[k := el k ++ [item]]> el)) as S'.
  { apply shape_write; [done|]. apply Forall_app. split.
    - apply Forall_forall. intros r Hr. by eapply sh_rec.
    - by constructor. }
  destruct (save_state_shape _ _ _ _ _ S') as [j [Hj Hsave]].
  eexists j, _. unfold Data_add, bind.
  rewrite (state_get_shape _ _ _ _ _ _ S), (sh_loc _ _ _ _ _ S).
  rewrite (Array_push_arr _ _ _ _ (sh_arr _ _ _ _ _ S k)).
  rewrite Hsave. split; [reflexivity|]. simpl. split_and!; try done.
  eapply shape_ext; [| |exact S']; done.
Qed.

(** *** [Data.update] *)

Lemma find_index_records (p : hval -> res bool) (P : hval -> Prop)
    `{!forall r, Decision (P r)} vs i :
  Forall (fun r => p r = Ok (bool_decide (P r))) vs ->
  find_index p vs i =
  Ok (match list_find P vs with
      | Some (n, _) => (i + Z.of_nat n)%Z
      | None => (-1)%Z
      end).
Proof.
  intros Hall. revert i. induction Hall as [|r vs Hr _ IH]; intros i; [done|].
  simpl. rewrite Hr. destruct (decide (P r)) as [HP|HP].
  - rewrite bool_decide_eq_true_2 by done. f_equal. lia.
  - rewrite bool_decide_eq_false_2 by done. rewrite IH.
    destruct (list_find P vs) as [[n x]|]; simpl; [|done]. f_equal. lia.
Qed.

Lemma own_props_record h r m : record h r = Some m -> own_props h (Some r) = m.
Proof.
  unfold record, own_props. destruct r as [| | | |l]; try done.
  destruct (h !! l) as [[|m']|]; try done. by intros [= ->].
Qed.

Lemma record_flat h r m :
  record h r = Some m -> flat_record h r = true ->
  map_Forall (fun _ x => is_ref x = false) m.
Proof.
  unfold flat_record. intros ->. by intros H%bool_decide_eq_true.
Qed.

Lemma record_new h m : record (h ++ [CObj m]) (HRef (length h)) = Some m.
Proof. unfold record. by rewrite lookup_app_r, Nat.sub_diag. Qed.

Lemma shape_records w st sm al el k :
  shape w st sm al el ->
  Forall (fun r => flat_record (heap_of w) r = true) (el k).
Proof. intros S. apply Forall_forall. intros r Hr. by eapply sh_rec. Qed.

Lemma Data_update_miss w st sm al el k id update :
  shape w st sm al el ->
  list_find (fun r => field (heap_of w) r "id" = id) (el k) = None ->
  Data_update (kind_name k) id update w = (Ok tt, w).
Proof.
  intros S Hfind. unfold Data_update, bind.
  rewrite (state_get_shape _ _ _ _ _ _ S), (sh_loc _ _ _ _ _ S).
  unfold Array_findIndex, reading.
  rewrite (elements_arr _ _ _ (sh_arr _ _ _ _ _ S k)).
  rewrite (find_index_records _ (fun r => field (heap_of w) r "id" = id)).
  - by rewrite Hfind.
  - eapply Forall_impl; [apply (shape_records _ _ _ _ _ k S)|].
    intros r Hr. by apply field_is_record, flat_is_record.
Qed.

Lemma Data_update_hit w st sm al el k id update u i r :
  shape w st sm al el ->
  flat_record (heap_of w) update = true ->
  record (heap_of w) update = Some u ->
  list_find (fun r => field (heap_of w) r "id" = id) (el k) = Some (i, r) ->
  exists old j w',
    record (heap_of w) r = Some old /\
    Data_update (kind_name k) id update w = (Ok tt, w') /\
    heap_of w' = <[al k := CArr (<[i := HRef (length (heap_of w))]> (el k))]>
                   (heap_of w ++ [CObj (u ∪ old)]) /\
    app_state w' = app_state w /\
    storage w' = Some j /\ saved w' = saved w ++ [j] /\
    JSON_stringify (heap_of w') (app_state w') = Some j /\
    shape w' st sm al (<[k := <[i := HRef (length (heap_of w))]> (el k)]> el).
Proof.
  intros S Hflat Hu Hfind.
  pose proof (proj1 (list_find_Some _ _ _ _) Hfind) as (Hi & Hid & _).
  assert (flat_record (heap_of w) r = true) as Hr.
  { eapply sh_rec; [exact S|]. by eapply list_elem_of_lookup_2. }
  destruct (flat_is_record _ _ Hr) as [old Hold].
  set (h1 := heap_of w ++ [CObj (u ∪ old)]).
  set (vs' := <[i := HRef (length (heap_of w))]> (el k)).
  assert (shape (set_heap (<[al k := CArr vs']> h1) (set_heap h1 w))
            st sm al (<[k := vs']> el)) as S'.
  { apply (shape_write (set_heap h1 w)); [by apply shape_app|]. simpl.
    apply Forall_insert.
    - eapply Forall_impl; [apply (shape_records _ _ _ _ _ k S)|].
      intros x Hx. eapply keeps_flat; [apply (keeps_app st)| |exact Hx].
      by eapply flat_ne_state.
    - unfold flat_record, h1. rewrite record_new.
      apply bool_decide_eq_true. apply map_Forall_union_2.
      + by eapply record_flat.
      + by eapply record_flat. }
  destruct (save_state_shape _ _ _ _ _ S') as [j [Hj Hsave]].
  exists old, j. eexists. split; [done|].
  unfold Data_update, bind.
  rewrite (state_get_shape _ _ _ _ _ _ S), (sh_loc _ _ _ _ _ S).
  unfold Array_findIndex, reading.
  rewrite (elements_arr _ _ _ (sh_arr _ _ _ _ _ S k)).
  rewrite (find_index_records _ (fun r => field (heap_of w) r "id" = id)).
  2:{ eapply Forall_impl; [apply (shape_records _ _ _ _ _ k S)|].
      intros x Hx. by apply field_is_record, flat_is_record. }
  rewrite Hfind.
  replace (0 <=? 0 + Z.of_nat i)%Z with true by (symmetry; apply Z.leb_le; lia).
  replace (Z.to_nat (0 + Z.of_nat i)) with i by lia.
  unfold spread2, bind, reading, alloc.
  rewrite (elements_arr _ _ _ (sh_arr _ _ _ _ _ S k)), Hi.
  rewrite (own_props_record _ _ _ Hu), (own_props_record _ _ _ Hold).
  fold h1. rewrite (Array_set_arr _ (al k) (el k)).
  2:{ simpl. unfold h1. rewrite lookup_app_l.
      - apply (sh_arr _ _ _ _ _ S).
      - eapply lookup_lt_Some, (sh_arr _ _ _ _ _ S). }
  fold vs'. simpl in *. rewrite Hsave.
  split; [reflexivity|]. simpl. split_and!; try done.
  eapply shape_ext; [| |exact S']; done.
Qed.

(** *** [Data.remove] *)

Lemma field_is_not_decide f id h r :
  is_Some (record h r) ->
  field_is_not f id h r = Ok (bool_decide (field h r f <> id)).
Proof.
  intros Hr. rewrite field_is_not_record by done. by rewrite bool_decide_not.
Qed.

Lemma Array_filter_shape w st sm al el k f id :
  shape w st sm al el ->
  Array_filter (Some (HRef (al k))) (field_is_not f id) w =
  (Ok (HRef (length (heap_of w))),
   set_heap (heap_of w ++
               [CArr (filter (fun r => field (heap_of w) r f <> id) (el k))]) w).
Proof.
  intros S. unfold Array_filter, bind, reading, alloc.
  rewrite (elements_arr _ _ _ (sh_arr _ _ _ _ _ S k)).
  rewrite (filter_res_records _ (fun r => field (heap_of w) r f <> id)); [done|].
  eapply Forall_impl; [apply (shape_records _ _ _ _ _ k S)|].
  intros r Hr. by apply field_is_not_decide, flat_is_record.
Qed.

(** The collection of kind [k] is replaced by a new array holding those of
    its records whose property [f] differs from [id]. *)
Definition pruned (w : World) (st : loc) (sm : gmap string hval)
    (el : kind -> list hval) (k : kind) (f : string) (id : option hval)
  : World :=
  set_heap (<[st := CObj (<[kind_name k := HRef (length (heap_of w))]> sm)]>
              (heap_of w ++
                 [CArr (filter (fun r => field (heap_of w) r f <> id) (el k))]))
           w.

Lemma pruned_shape w st sm al el k f id :
  shape w st sm al el ->
  shape (pruned w st sm el k f id) st
        (<[kind_name k := HRef (length (heap_of w))]> sm)
        (<[k := length (heap_of w)]> al)
        (<[k := filter (fun r => field (heap_of w) r f <> id) (el k)]> el).
Proof.
  intros S. apply shape_install; [done|].
  apply Forall_forall. intros r Hr%list_elem_of_filter.
  eapply sh_rec; [exact S|apply Hr].
Qed.

Lemma pruned_keeps w st sm el k f id :
  keeps st (heap_of w) (heap_of (pruned w st sm el k f id)).
Proof.
  simpl. eapply keeps_trans; [apply keeps_app|apply keeps_insert_state].
Qed.

Lemma prune_run w st sm al el k f id (rest : M unit) :
  shape w st sm al el ->
  (kept <- Array_filter (Some (HRef (al k))) (field_is_not f id) ;;
   state_set (kind_name k) kept ;; rest) w =
  rest (pruned w st sm el k f id).
Proof.
  intros S. unfold bind at 1. rewrite (Array_filter_shape _ _ _ _ _ _ _ _ S).
  unfold bind at 1.
  erewrite state_set_shape; [|by apply shape_app]. done.
Qed.

Lemma record_app h new r m :
  record h r = Some m -> record (h ++ new) r = Some m.
Proof.
  unfold record. destruct r as [| | | |l]; try done.
  destruct (h !! l) as [c|] eqn:Hl; [|done].
  rewrite lookup_app_l by (by eapply lookup_lt_Some). by rewrite Hl.
Qed.

Lemma flat_record_app h new r :
  flat_record h r = true -> flat_record (h ++ new) r = true.
Proof.
  unfold flat_record. destruct (record h r) as [m|] eqn:Hm; [|done].
  by rewrite (record_app _ new _ _ Hm).
Qed.

Lemma field_app h new r f :
  is_Some (record h r) -> field (h ++ new) r f = field h r f.
Proof. intros [m Hm]. unfold field. by rewrite (record_app _ new _ _ Hm), Hm. Qed.

(** What [clear_teacher] makes of a class [c]: a new copy without teacher
    when the class has teacher [id], the class itself otherwise. *)
Definition cleared (h h' : heap) (id : option hval) (c c' : hval) : Prop :=
  if decide (field h c "teacherId" = id)
  then exists m l, record h c = Some m /\ c' = HRef l /\ length h <= l /\
                   record h' c' = Some (<["teacherId" := HStr ""]> m)
  else c' = c.

Lemma clear_teacher_run w id c m :
  record (heap_of w) c = Some m ->
  clear_teacher id c w =
  if decide (field (heap_of w) c "teacherId" = id)
  then (Ok (HRef (length (heap_of w))),
        set_heap (heap_of w ++ [CObj (<["teacherId" := HStr ""]> m)]) w)
  else (Ok c, w).
Proof.
  intros Hm. unfold clear_teacher, bind, reading, alloc.
  rewrite field_is_record by eauto.
  destruct (decide _) as [E|E].
  - rewrite bool_decide_eq_true_2 by done.
    by rewrite (own_props_record _ _ _ Hm).
  - by rewrite bool_decide_eq_false_2.
Qed.

Lemma set_heap_set_heap h h' w : set_heap h (set_heap h' w) = set_heap h w.
Proof. reflexivity. Qed.

Lemma clear_teachers_run h0 id cs :
  Forall (fun c => flat_record h0 c = true) cs ->
  forall w pre, heap_of w = h0 ++ pre ->
  exists ws new,
    mmap (clear_teacher id) cs w = (Ok ws, set_heap (h0 ++ pre ++ new) w) /\
    Forall2 (cleared h0 (h0 ++ pre ++ new) id) cs ws /\
    Forall (fun c => flat_record (h0 ++ pre ++ new) c = true) ws.
Proof.
  induction 1 as [|c cs Hc Hcs IH]; intros w pre Hw.
  - exists [], []. rewrite app_nil_r, <- Hw. simpl. unfold ret.
    destruct w; simpl; split_and!; constructor.
  - destruct (flat_is_record _ _ Hc) as [m Hm].
    pose proof (record_flat _ _ _ Hm Hc) as Hflat.
    simpl. unfold bind at 1.
    rewrite (clear_teacher_run _ _ _ m) by (rewrite Hw; by apply record_app).
    rewrite Hw, (field_app h0 pre) by eauto.
    destruct (decide (field h0 c "teacherId" = id)) as [E|E].
    + destruct (IH (set_heap ((h0 ++ pre) ++ [CObj (<["teacherId" := HStr ""]> m)]) w)
                  (pre ++ [CObj (<["teacherId" := HStr ""]> m)]))
        as (ws & new & Hrun & Hrel & Hws).
      { simpl. by rewrite app_assoc. }
      exists (HRef (length (h0 ++ pre)) :: ws),
             (CObj (<["teacherId" := HStr ""]> m) :: new).
      unfold bind at 1. rewrite Hrun. unfold ret. simpl.
      rewrite <- !app_assoc in *. simpl in *.
      split_and!; [done| |].
      * constructor; [|done]. unfold cleared. rewrite decide_True by done.
        exists m, (length (h0 ++ pre)). split_and!; try done.
        -- rewrite length_app. lia.
        -- unfold record. rewrite (app_assoc h0 pre).
           by rewrite lookup_app_r, Nat.sub_diag.
      * constructor; [|done]. unfold flat_record, record.
        rewrite (app_assoc h0 pre), lookup_app_r, Nat.sub_diag by done. simpl.
        apply bool_decide_eq_true. apply map_Forall_insert_2; [done|exact Hflat].
    + destruct (IH w pre Hw) as (ws & new & Hrun & Hrel & Hws).
      exists (c :: ws), new. unfold bind at 1. rewrite Hrun. unfold ret.
      split_and!; [done| |].
      * constructor; [|done]. unfold cleared. by rewrite decide_False.
      * constructor; [|done]. by apply flat_record_app.
Qed.

Lemma bind_bind {A B C} (m : M A) (f : A -> M B) (g : B -> M C) w :
  bind (bind m f) g w = bind m (fun x => bind (f x) g) w.
Proof. unfold bind. by destruct (m w) as [[a|e] w']. Qed.

Lemma bind_ret {A B} (a : A) (f : A -> M B) w : bind (ret a) f w = f a w.
Proof. reflexivity. Qed.

Lemma cleared_frame st h h1 h2 h3 id c c' :
  keeps st h h1 -> keeps st h2 h3 -> st < length h1 -> length h <= length h1 ->
  is_Some (record h c) -> c <> HRef st ->
  cleared h1 h2 id c c' -> cleared h h3 id c c'.
Proof.
  intros K1 K2 Hst Hlen [m Hm] Hc. unfold cleared.
  rewrite (keeps_field _ _ _ _ _ K1 Hc) by eauto.
  destruct (decide _) as [E|E]; [|done].
  intros (m' & l & Hm' & -> & Hl & Hrec).
  rewrite (keeps_record _ _ _ _ _ K1 Hc Hm) in Hm'. injection Hm' as <-.
  exists m, l. split_and!; try done; [lia|].
  eapply keeps_record; [exact K2| |exact Hrec]. intros [= ->]. lia.
Qed.

Lemma clear_classes_run w st sm al el id :
  shape w st sm al el ->
  exists ws new,
    Array_map (Some (HRef (al Classes))) (clear_teacher id) w =
      (Ok (HRef (length (heap_of w ++ new))),
       set_heap ((heap_of w ++ new) ++ [CArr ws]) w) /\
    Forall2 (cleared (heap_of w) (heap_of w ++ new) id) (el Classes) ws /\
    Forall (fun c => flat_record (heap_of w ++ new) c = true) ws.
Proof.
  intros S.
  destruct (clear_teachers_run (heap_of w) id (el Classes)
              (shape_records _ _ _ _ _ Classes S) w [])
    as (ws & new & Hrun & Hrel & Hws); [by rewrite app_nil_r|].
  simpl in Hrun, Hrel, Hws. exists ws, new.
  unfold Array_map, bind, reading, alloc.
  rewrite (elements_arr _ _ _ (sh_arr _ _ _ _ _ S Classes)), Hrun.
  split_and!; done.
Qed.

Local Ltac name_neq := let E := fresh in intros E; vm_compute in E; discriminate.

(** The effect of [Data.remove] on a well-formed snapshot. *)
Lemma Data_remove_shape w st sm al el k id :
  shape w st sm al el ->
  exists j w' sm' al' el',
    Data_remove (kind_name k) id w = (Ok tt, w') /\
    app_state w' = app_state w /\
    storage w' = Some j /\ saved w' = saved w ++ [j] /\
    JSON_stringify (heap_of w') (app_state w') = Some j /\
    shape w' st sm' al' el' /\
    keeps st (heap_of w) (heap_of w') /\
    el' k = filter (fun r => field (heap_of w) r "id" <> id) (el k) /\
    match k with
    | Teachers =>
        Forall2 (cleared (heap_of w) (heap_of w') id) (el Classes) (el' Classes) /\
        el' Students = el Students /\ el' Enrollments = el Enrollments
    | Students =>
        el' Enrollments =
          filter (fun e => field (heap_of w) e "studentId" <> id) (el Enrollments) /\
        el' Teachers = el Teachers /\ el' Classes = el Classes
    | Classes =>
        el' Enrollments =
          filter (fun e => field (heap_of w) e "classId" <> id) (el Enrollments) /\
        el' Students = el Students /\ el' Teachers = el Teachers
    | Enrollments =>
        el' Students = el Students /\ el' Teachers = el Teachers /\
        el' Classes = el Classes
    end.
Proof.
  intros S. unfold Data_remove. unfold bind at 1.
  rewrite (state_get_shape _ _ _ _ _ _ S), (sh_loc _ _ _ _ _ S).
  rewrite (prune_run _ _ _ _ _ _ _ _ _ S).
  pose proof (pruned_shape _ _ _ _ _ k "id" id S) as S1.
  pose proof (pruned_keeps w st sm el k "id" id) as K1.
  set (w1 := pruned w st sm el k "id" id) in *.
  set (sm1 := <[kind_name k := HRef (length (heap_of w))]> sm) in *.
  set (al1 := <[k := length (heap_of w)]> al) in *.
  set (el1 := <[k := filter (fun r => field (heap_of w) r "id" <> id) (el k)]> el) in *.
  assert (forall r f, is_Some (record (heap_of w) r) -> r <> HRef st ->
            field (heap_of w1) r f = field (heap_of w) r f) as Hfield.
  { intros r f Hr Hne. by eapply keeps_field. }
  assert (forall k' f, k' <> k ->
            filter (fun e => field (heap_of w1) e f <> id) (el1 k') =
            filter (fun e => field (heap_of w) e f <> id) (el k')) as Hfilter.
  { intros k' f Hk'. unfold el1. rewrite fn_lookup_insert_ne by done.
    apply filter_ext_in, Forall_forall. intros r Hr.
    rewrite Hfield; [done| |exact (shape_rec_ne _ _ _ _ _ k' r S Hr)].
    apply flat_is_record. exact (sh_rec _ _ _ _ _ S k' r Hr). }
  assert (app_state w1 = app_state w /\ storage w1 = storage w /\
          saved w1 = saved w) as (Hst1 & Hsto1 & Hsav1) by done.
  assert (length (heap_of w) <= length (heap_of w1)) as Hlen1.
  { unfold w1, pruned. cbn [heap_of set_heap].
    rewrite length_insert, length_app. lia. }
  clearbody w1.
  destruct k.
  - (* students: the enrollments of the student go *)
    rewrite decide_False by name_neq. rewrite bind_ret.
    rewrite decide_True by reflexivity.
    rewrite bind_bind. unfold bind at 1.
    rewrite (state_get_shape _ _ _ _ _ _ S1).
    change "enrollments" with (kind_name Enrollments).
    rewrite (sh_loc _ _ _ _ _ S1), bind_bind.
    rewrite (prune_run _ _ _ _ _ _ _ _ _ S1).
    pose proof (pruned_shape _ _ _ _ _ Enrollments "studentId" id S1) as S2.
    pose proof (pruned_keeps w1 st sm1 el1 Enrollments "studentId" id) as K2.
    set (w2 := pruned w1 st sm1 el1 Enrollments "studentId" id) in *.
    assert (app_state w2 = app_state w1 /\ storage w2 = storage w1 /\
            saved w2 = saved w1) as (Hst2 & Hsto2 & Hsav2) by done.
    clearbody w2.
    rewrite decide_False by name_neq. rewrite bind_ret.
    destruct (save_state_shape _ _ _ _ _ S2) as [j [Hj Hsave]].
    rewrite Hsave. exists j. do 4 eexists. split; [reflexivity|].
    cbn [heap_of app_state storage saved].
    split_and!; [congruence|done|congruence|done|
                 eapply shape_ext; [| |exact S2]; done|..].
    + by eapply keeps_trans.
    + rewrite fn_lookup_insert_ne by done. unfold el1.
      by rewrite fn_lookup_insert.
    + by rewrite fn_lookup_insert, Hfilter.
    + rewrite fn_lookup_insert_ne by done. unfold el1.
      by rewrite fn_lookup_insert_ne.
    + rewrite fn_lookup_insert_ne by done. unfold el1.
      by rewrite fn_lookup_insert_ne.
  - (* teachers: their classes lose their teacher *)
    rewrite decide_True by reflexivity.
    rewrite bind_bind. unfold bind at 1.
    rewrite (state_get_shape _ _ _ _ _ _ S1).
    change "classes" with (kind_name Classes).
    rewrite (sh_loc _ _ _ _ _ S1), bind_bind.
    destruct (clear_classes_run _ _ _ _ _ id S1) as (ws & new & Hmap & Hrel & Hws).
    unfold bind at 1. rewrite Hmap.
    pose proof (shape_app _ _ _ _ _ new S1) as S1'.
    pose proof (shape_install _ _ _ _ _ Classes ws S1' Hws) as S2.
    unfold bind at 1.
    erewrite state_set_shape; [|apply (shape_app _ _ _ _ _ _ S1')].
    rewrite !set_heap_set_heap in *.
    change (heap_of (set_heap ?h _)) with h in *.
    set (w2 := set_heap (<[st := _]> _) w1) in *.
    assert (keeps st (heap_of w1) (heap_of w2)) as K2.
    { unfold w2. change (heap_of (set_heap ?h _)) with h.
      eapply keeps_trans; [|apply keeps_insert_state].
      rewrite <- app_assoc. apply keeps_app. }
    assert (app_state w2 = app_state w1 /\ storage w2 = storage w1 /\
            saved w2 = saved w1) as (Hst2 & Hsto2 & Hsav2) by done.
    assert (keeps st (heap_of w1 ++ new) (heap_of w2)) as K3.
    { unfold w2. change (heap_of (set_heap ?h _)) with h.
      eapply keeps_trans; [apply keeps_app|apply keeps_insert_state]. }
    clearbody w2.
    rewrite decide_False by name_neq. rewrite bind_ret.
    rewrite decide_False by name_neq. rewrite bind_ret.
    destruct (save_state_shape _ _ _ _ _ S2) as [j [Hj Hsave]].
    rewrite Hsave. exists j. do 4 eexists. split; [reflexivity|].
    cbn [heap_of app_state storage saved].
    split_and!; [congruence|done|congruence|done|
                 eapply shape_ext; [| |exact S2]; done|..].
    + by eapply keeps_trans.
    + rewrite fn_lookup_insert_ne by done. unfold el1.
      by rewrite fn_lookup_insert.
    + rewrite fn_lookup_insert.
      assert (el Classes = el1 Classes) as ->.
      { unfold el1. by rewrite fn_lookup_insert_ne. }
      apply Forall2_same_length_lookup_2; [by eapply Forall2_length|].
      intros i c c' Hc Hc'.
      pose proof (Forall2_lookup_lr _ _ _ _ _ _ Hrel Hc Hc') as Hcl.
      assert (c ∈ el1 Classes) as Hin by (by eapply list_elem_of_lookup_2).
      unfold el1 in Hin. rewrite fn_lookup_insert_ne in Hin by done.
      eapply (cleared_frame st); [exact K1|exact K3| | | | |exact Hcl].
      * eapply lookup_lt_Some, (sh_obj _ _ _ _ _ S1).
      * exact Hlen1.
      * apply flat_is_record. exact (sh_rec _ _ _ _ _ S Classes c Hin).
      * exact (shape_rec_ne _ _ _ _ _ Classes c S Hin).
    + rewrite fn_lookup_insert_ne by done. unfold el1.
      by rewrite fn_lookup_insert_ne.
    + rewrite fn_lookup_insert_ne by done. unfold el1.
      by rewrite fn_lookup_insert_ne.
  - (* classes: the enrollments in the class go *)
    rewrite decide_False by name_neq. rewrite bind_ret.
    rewrite decide_False by name_neq. rewrite bind_ret.
    rewrite decide_True by reflexivity.
    rewrite bind_bind. unfold bind at 1.
    rewrite (state_get_shape _ _ _ _ _ _ S1).
    change "enrollments" with (kind_name Enrollments).
    rewrite (sh_loc _ _ _ _ _ S1), bind_bind.
    rewrite (prune_run _ _ _ _ _ _ _ _ _ S1).
    pose proof (pruned_shape _ _ _ _ _ Enrollments "classId" id S1) as S2.
    pose proof (pruned_keeps w1 st sm1 el1 Enrollments "classId" id) as K2.
    set (w2 := pruned w1 st sm1 el1 Enrollments "classId" id) in *.
    assert (app_state w2 = app_state w1 /\ storage w2 = storage w1 /\
            saved w2 = saved w1) as (Hst2 & Hsto2 & Hsav2) by done.
    clearbody w2.
    destruct (save_state_shape _ _ _ _ _ S2) as [j [Hj Hsave]].
    rewrite Hsave. exists j. do 4 eexists. split; [reflexivity|].
    cbn [heap_of app_state storage saved].
    split_and!; [congruence|done|congruence|done|
                 eapply shape_ext; [| |exact S2]; done|..].
    + by eapply keeps_trans.
    + rewrite fn_lookup_insert_ne by done. unfold el1.
      by rewrite fn_lookup_insert.
    + by rewrite fn_lookup_insert, Hfilter.
    + rewrite fn_lookup_insert_ne by done. unfold el1.
      by rewrite fn_lookup_insert_ne.
    + rewrite fn_lookup_insert_ne by done. unfold el1.
      by rewrite fn_lookup_insert_ne.
  - (* enrollments: nothing else changes *)
    rewrite decide_False by name_neq. rewrite bind_ret.
    rewrite decide_False by name_neq. rewrite bind_ret.
    rewrite decide_False by name_neq. rewrite bind_ret.
    destruct (save_state_shape _ _ _ _ _ S1) as [j [Hj Hsave]].
    rewrite Hsave. exists j. do 4 eexists. split; [reflexivity|].
    cbn [heap_of app_state storage saved].
    split_and!; [congruence|done|congruence|done|
                 eapply shape_ext; [| |exact S1]; done|..].
    + done.
    + unfold el1. by rewrite fn_lookup_insert.
    + unfold el1. by rewrite fn_lookup_insert_ne.
    + unfold el1. by rewrite fn_lookup_insert_ne.
    + unfold el1. by rewrite fn_lookup_insert_ne.
Qed.

(** ** Observing a well-formed snapshot *)

Lemma snapshot_shape w st sm al el : shape w st sm al el -> snapshot w = Some sm.
Proof.
  intros S. unfold snapshot, record.
  by rewrite (sh_state _ _ _ _ _ S), (sh_obj _ _ _ _ _ S).
Qed.

Lemma collection_shape w st sm al el k :
  shape w st sm al el -> collection w k = Some (el k).
Proof.
  intros S. unfold collection. rewrite (snapshot_shape _ _ _ _ _ S). simpl.
  rewrite (sh_loc _ _ _ _ _ S). unfold array_at.
  by rewrite (sh_arr _ _ _ _ _ S).
Qed.

Lemma shape_field_kept w w' st sm al el k r f :
  shape w st sm al el -> keeps st (heap_of w) (heap_of w') -> r ∈ el k ->
  field (heap_of w') r f = field (heap_of w) r f.
Proof.
  intros S K Hr. eapply keeps_field; [exact K| |].
  - by eapply shape_rec_ne.
  - apply flat_is_record. by eapply sh_rec.
Qed.

(** ** The repository: cascades of [Data.remove] *)

(** What removing the teacher [id] makes of a class [c]: a copy whose
    [teacherId] is the empty string and whose other properties are those
    of [c] when [c.teacherId === id], and [c] itself otherwise. *)
Definition teacher_cleared (h h' : heap) (id : option hval) (c c' : hval)
  : Prop :=
  if decide (field h c "teacherId" = id)
  then forall f, field h' c' f =
                 if decide (f = "teacherId") then Some (HStr "")
                 else field h c f
  else c' = c.

Lemma cleared_teacher_cleared h h' id c c' :
  cleared h h' id c c' -> teacher_cleared h h' id c c'.
Proof.
  unfold cleared, teacher_cleared. destruct (decide _); [|done].
  intros (m & l & Hm & -> & _ & Hrec) f. unfold field. rewrite Hrec, Hm. simpl.
  destruct (decide (f = "teacherId")) as [->|Hne].
  - by rewrite lookup_insert_eq.
  - by rewrite lookup_insert_ne.
Qed.

(** C2. On every well-formed snapshot and for every id, [Data.remove]
    returns normally, removes from the collection of the kind the records
    whose id is [id], and applies exactly the cascade of the kind: removing
    a teacher replaces every class of that teacher by a copy whose
    [teacherId] is the empty string and keeps the other classes; removing a
    student removes the enrollments whose [studentId] is [id]; removing a
    class removes the enrollments whose [classId] is [id]; removing an
    enrollment changes no other collection.  The records that stay keep
    their properties. *)
Theorem Data_remove_cascade (w : World) (k : kind) (id : option hval) :
  well_formed w = true ->
  exists (w' : World) (old new : kind -> list hval),
    Data_remove (kind_name k) id w = (Ok tt, w') /\
    (forall k', collection w k' = Some (old k') /\
                collection w' k' = Some (new k')) /\
    new k = filter (fun r => field (heap_of w) r "id" <> id) (old k) /\
    (forall k' r f, r ∈ old k' ->
       field (heap_of w') r f = field (heap_of w) r f) /\
    match k with
    | Teachers =>
        Forall2 (teacher_cleared (heap_of w) (heap_of w') id)
                (old Classes) (new Classes) /\
        new Students = old Students /\ new Enrollments = old Enrollments
    | Students =>
        new Enrollments =
          filter (fun e => field (heap_of w) e "studentId" <> id)
                 (old Enrollments) /\
        new Teachers = old Teachers /\ new Classes = old Classes
    | Classes =>
        new Enrollments =
          filter (fun e => field (heap_of w) e "classId" <> id)
                 (old Enrollments) /\
        new Students = old Students /\ new Teachers = old Teachers
    | Enrollments =>
        new Students = old Students /\ new Teachers = old Teachers /\
        new Classes = old Classes
    end.
Proof.
  intros (st & sm & al & el & S)%well_formed_shape.
  destruct (Data_remove_shape _ _ _ _ _ k id S)
    as (j & w' & sm' & al' & el' & Hrun & _ & _ & _ & _ & S' & K & Hk & Hc).
  exists w', el, el'. split_and!; try done.
  - intros k'. split; by eapply collection_shape.
  - intros k' r f Hr. by eapply shape_field_kept.
  - destruct k; try done. destruct Hc as (Hrel & ? & ?). split_and!; try done.
    eapply Forall2_impl; [exact Hrel|]. apply cleared_teacher_cleared.
Qed.

(** ** A seeded repository *)

Definition empty_world : World := mkWorld [] HNull None [].

(** An object literal whose properties hold strings. *)
Definition new_record (fields : list (string * string)) : M hval :=
  alloc (CObj (list_to_map (prod_map id HStr <$> fields))).

(** The scenario of the specification: teacher T1, class C1 taught by T1,
    student S1, and the enrollment E1 of S1 in C1. *)
Definition seed_scenario : M unit :=
  st <- AppState_initial ;;
  set_AppState_state st ;;
  t1 <- new_record [("id", "t1"); ("firstName", "Tara"); ("lastName", "One");
                    ("email", "t1@example.edu"); ("department", "Math")] ;;
  Data_add "teachers" t1 ;;
  c1 <- new_record [("id", "c1"); ("name", "Algebra I"); ("code", "MATH101");
                    ("teacherId", "t1"); ("schedule", "Mon 9:00")] ;;
  Data_add "classes" c1 ;;
  s1 <- new_record [("id", "s1"); ("firstName", "Sam"); ("lastName", "One");
                    ("grade", "3"); ("dob", "2015-01-15"); ("email", "")] ;;
  Data_add "students" s1 ;;
  e1 <- new_record [("id", "e1"); ("studentId", "s1"); ("classId", "c1");
                    ("status", "enrolled")] ;;
  Data_add "enrollments" e1.

Definition seeded : World := snd (seed_scenario empty_world).

Lemma seeded_well_formed : well_formed seeded = true.
Proof. vm_compute. reflexivity. Qed.

Lemma Data_remove_cascade_witness :
  well_formed seeded = true /\
  exists w' c',
    Data_remove (kind_name Teachers) (Some (HStr "t1")) seeded = (Ok tt, w') /\
    collection w' Classes = Some [c'] /\
    field (heap_of w') c' "teacherId" = Some (HStr "") /\
    field (heap_of w') c' "code" = Some (HStr "MATH101").
Proof.
  split; [vm_compute; reflexivity|].
  destruct (Data_remove_cascade seeded Teachers (Some (HStr "t1")))
    as (w' & old & new & Hrun & Hcol & _ & _ & Hrel & _ & _);
    [vm_compute; reflexivity|].
  destruct (Hcol Classes) as [Hold Hnew].
  assert (old Classes = [HRef 6]) as Hc.
  { assert (collection seeded Classes = Some [HRef 6]) as E
      by (vm_compute; reflexivity).
    congruence. }
  rewrite Hc in Hrel.
  apply Forall2_cons_inv_l in Hrel as (c' & rest & Hc' & Hrest & Hnew').
  apply Forall2_nil_inv_l in Hrest as ->.
  unfold teacher_cleared in Hc'.
  rewrite decide_True in Hc' by (vm_compute; reflexivity).
  exists w', c'. split_and!.
  - exact Hrun.
  - by rewrite Hnew, Hnew'.
  - by rewrite (Hc' "teacherId"), decide_True.
  - rewrite (Hc' "code"), decide_False by done. vm_compute. reflexivity.
Defined.

(** ** The repository: [Data.update] *)

(** C3. On a well-formed snapshot, with a partial record [update] of
    properties [u]: when some record of the collection has id [id], the
    first such record, at position [i], is replaced by a new record that
    has the value of [u] for every property [u] names and its old value
    for every other property, and nothing else changes (same positions,
    same other records, same other collections); when no record has that
    id the call returns normally and the world is unchanged. *)
Theorem Data_update_merge (w : World) (k : kind) (id : option hval)
    (update : hval) (u : gmap string hval) :
  well_formed w = true ->
  flat_record (heap_of w) update = true ->
  record (heap_of w) update = Some u ->
  exists vs, collection w k = Some vs /\
    match list_find (fun r => field (heap_of w) r "id" = id) vs with
    | Some (i, r) =>
        exists w' r',
          Data_update (kind_name k) id update w = (Ok tt, w') /\
          collection w' k = Some (<[i := r']> vs) /\
          (forall f, field (heap_of w') r' f =
                     match u !! f with
                     | Some x => Some x
                     | None => field (heap_of w) r f
                     end) /\
          (forall k' xs x f, collection w k' = Some xs -> x ∈ xs ->
             field (heap_of w') x f = field (heap_of w) x f) /\
          (forall k', k' <> k -> collection w' k' = collection w k')
    | None => Data_update (kind_name k) id update w = (Ok tt, w)
    end.
Proof.
  intros (st & sm & al & el & S)%well_formed_shape Hflat Hu.
  exists (el k). split; [by eapply collection_shape|].
  destruct (list_find _ (el k)) as [[i r]|] eqn:Hfind.
  - destruct (Data_update_hit _ _ _ _ _ k id update u i r S Hflat Hu Hfind)
      as (old & j & w' & Hold & Hrun & Hheap & _ & _ & _ & _ & S').
    exists w', (HRef (length (heap_of w))). split_and!; try done.
    + rewrite (collection_shape _ _ _ _ _ k S'). by rewrite fn_lookup_insert.
    + intros f. unfold field at 1. rewrite Hheap. unfold record.
      rewrite list_lookup_insert_ne.
      2:{ pose proof (lookup_lt_Some _ _ _ (sh_arr _ _ _ _ _ S k)). lia. }
      rewrite lookup_app_r, Nat.sub_diag by done. simpl.
      rewrite lookup_union. rewrite (field_record _ _ _ _ Hold).
      destruct (u !! f), (old !! f); done.
    + intros k' xs x f Hk' Hx.
      rewrite (collection_shape _ _ _ _ _ k' S) in Hk'. injection Hk' as Hk'.
      rewrite <- Hk' in Hx.
      eapply (shape_field_kept _ _ _ _ _ _ k'); [exact S| |exact Hx].
      rewrite Hheap. eapply keeps_trans; [apply keeps_app|].
      eapply keeps_insert_arr. rewrite lookup_app_l.
      * apply (sh_arr _ _ _ _ _ S).
      * eapply lookup_lt_Some, (sh_arr _ _ _ _ _ S).
    + intros k' Hk'. rewrite (collection_shape _ _ _ _ _ k' S').
      rewrite (collection_shape _ _ _ _ _ k' S).
      by rewrite fn_lookup_insert_ne.
  - by eapply Data_update_miss.
Qed.

(** The seeded repository with a partial record [{ grade: '4' }] at hand. *)
Definition editing : World := snd (new_record [("grade", "4")] seeded).

Definition grade_edit : hval := HRef (length (heap_of seeded)).

Lemma Data_update_merge_witness :
  well_formed editing = true /\
  flat_record (heap_of editing) grade_edit = true /\
  record (heap_of editing) grade_edit = Some {["grade" := HStr "4"]} /\
  exists w' r',
    Data_update (kind_name Students) (Some (HStr "s1")) grade_edit editing =
      (Ok tt, w') /\
    collection w' Students = Some [r'] /\
    field (heap_of w') r' "grade" = Some (HStr "4") /\
    field (heap_of w') r' "firstName" = Some (HStr "Sam").
Proof.
  split_and!; [vm_compute; reflexivity..|].
  destruct (Data_update_merge editing Students (Some (HStr "s1")) grade_edit
              {["grade" := HStr "4"]})
    as (vs & Hcol & Hm); [vm_compute; reflexivity..|].
  assert (vs = [HRef 7]) as ->.
  { assert (collection editing Students = Some [HRef 7]) as E
      by (vm_compute; reflexivity).
    congruence. }
  assert (list_find (fun r => field (heap_of editing) r "id" = Some (HStr "s1"))
                    [HRef 7] = Some (0, HRef 7)) as E
    by (vm_compute; reflexivity).
  rewrite E in Hm. destruct Hm as (w' & r' & Hrun & Hnew & Hfields & _).
  exists w', r'. split_and!; [done|done| |].
  - by rewrite (Hfields "grade").
  - rewrite (Hfields "firstName"). vm_compute. reflexivity.
Defined.

(** ** The repository: persistence *)

(** The world [w'] results from [w] by exactly one save, and what is stored
    is the document of the snapshot in memory. *)
Definition saved_once (w w' : World) : Prop :=
  exists j, saved w' = saved w ++ [j] /\ storage w' = Some j /\
            JSON_stringify (heap_of w') (app_state w') = Some j.


(** No record of the collection of kind [k] has [id] as its property
    [f]. *)
Definition absent (w : World) (k : kind) (f : string) (id : option hval)
  : Prop :=
  forall vs r, collection w k = Some vs -> r ∈ vs ->
    field (heap_of w) r f <> id.


Lemma filter_all {A} (P : A -> Prop) `{!forall x, Decision (P x)} (l : list A) :
  Forall P l -> filter P l = l.
Proof.
  induction 1 as [|x l Hx _ IH]; [done|].
  by rewrite filter_cons, decide_True, IH.
Qed.









(** ** The repository: referential integrity *)

(** [e[f]] is defined and is the id of one of the [targets]. *)
Definition refers (h : heap) (e : hval) (f : string) (targets : list hval)
  : bool :=
  match field h e f with
  | Some v => existsb (fun t => bool_decide (field h t "id" = Some v)) targets
  | None => false
  end.

(** Every enrollment's [studentId] and [classId] is the id of a student and
    of a class of the snapshot. *)
Definition referential_integrity (w : World) : bool :=
  match collection w Enrollments, collection w Students,
        collection w Classes with
  | Some es, Some ss, Some cs =>
      forallb (fun e => refers (heap_of w) e "studentId" ss &&
                        refers (heap_of w) e "classId" cs) es
  | _, _, _ => false
  end.

Definition refers_to (h : heap) (e : hval) (f : string)
    (targets : list hval) : Prop :=
  exists v t, field h e f = Some v /\ t ∈ targets /\ field h t "id" = Some v.

Definition integ (h : heap) (es ss cs : list hval) : Prop :=
  forall e, e ∈ es ->
    refers_to h e "studentId" ss /\ refers_to h e "classId" cs.

Lemma refers_spec h e f targets :
  refers h e f targets = true <-> refers_to h e f targets.
Proof.
  unfold refers, refers_to. split.
  - destruct (field h e f) as [v|]; [|done].
    intros (t & Ht & Hid)%existsb_exists.
    apply bool_decide_eq_true in Hid. apply list_elem_of_In in Ht. eauto.
  - intros (v & t & -> & Ht & Hid). apply existsb_exists. exists t.
    split; [by apply list_elem_of_In|by apply bool_decide_eq_true].
Qed.

Lemma integrity_shape w st sm al el :
  shape w st sm al el ->
  referential_integrity w = true <->
  integ (heap_of w) (el Enrollments) (el Students) (el Classes).
Proof.
  intros S. unfold referential_integrity, integ.
  rewrite !(collection_shape _ _ _ _ _ _ S), forallb_forall.
  split.
  - intros H e He%list_elem_of_In. apply H in He.
    apply andb_prop in He as [H1 H2]. by rewrite <- !refers_spec.
  - intros H e He%list_elem_of_In. destruct (H e He) as [H1 H2].
    apply andb_true_intro. by rewrite !refers_spec.
Qed.

(** Integrity carries over from one snapshot to another when every
    enrollment of the second has the references of an enrollment of the
    first that satisfies [Q], and the records these refer to are still
    found. *)
Lemma integ_transfer (Q : hval -> Prop) h h' es ss cs es' ss' cs' :
  integ h es ss cs ->
  (forall e', e' ∈ es' ->
     exists e, e ∈ es /\ Q e /\
       field h' e' "studentId" = field h e "studentId" /\
       field h' e' "classId" = field h e "classId") ->
  (forall e v t, e ∈ es -> Q e -> field h e "studentId" = Some v ->
     t ∈ ss -> field h t "id" = Some v ->
     exists t', t' ∈ ss' /\ field h' t' "id" = Some v) ->
  (forall e v t, e ∈ es -> Q e -> field h e "classId" = Some v ->
     t ∈ cs -> field h t "id" = Some v ->
     exists t', t' ∈ cs' /\ field h' t' "id" = Some v) ->
  integ h' es' ss' cs'.
Proof.
  intros Hin Hes Hss Hcs e' He'.
  destruct (Hes e' He') as (e & He & HQ & E1 & E2).
  destruct (Hin e He) as [(v1 & t1 & Hv1 & Ht1 & Hid1) (v2 & t2 & Hv2 & Ht2 & Hid2)].
  destruct (Hss e v1 t1 He HQ Hv1 Ht1 Hid1) as (t1' & ? & ?).
  destruct (Hcs e v2 t2 He HQ Hv2 Ht2 Hid2) as (t2' & ? & ?).
  split.
  - exists v1, t1'. by rewrite E1.
  - exists v2, t2'. by rewrite E2.
Qed.

Lemma integrity_remove w st sm al el k id :
  shape w st sm al el ->
  integ (heap_of w) (el Enrollments) (el Students) (el Classes) ->
  referential_integrity (snd (Data_remove (kind_name k) id w)) = true.
Proof.
  intros S Hin.
  destruct (Data_remove_shape _ _ _ _ _ k id S)
    as (j & w' & sm' & al' & el' & Hrun & _ & _ & _ & _ & S' & K & Hk & Hc).
  rewrite Hrun. simpl. apply (integrity_shape _ _ _ _ _ S').
  assert (forall k' r f, r ∈ el k' ->
            field (heap_of w') r f = field (heap_of w) r f) as Hkept.
  { intros k' r f Hr. by eapply shape_field_kept. }
  destruct k.
  - (* students *)
    destruct Hc as (He & _ & Hcl). rewrite Hk, He, Hcl.
    apply (integ_transfer
             (fun e => field (heap_of w) e "studentId" <> id) _ _ _ _ _ _ _ _ Hin).
    + intros e' (Hne & He')%list_elem_of_filter. exists e'.
      by rewrite !(Hkept Enrollments).
    + intros e v t He' HQ Hv Ht Hid. exists t. split.
      * apply list_elem_of_filter. split; [congruence|done].
      * by rewrite (Hkept Students).
    + intros e v t He' HQ Hv Ht Hid. exists t. by rewrite (Hkept Classes).
  - (* teachers *)
    destruct Hc as (Hrel & Hs & He). rewrite Hs, He.
    apply (integ_transfer (fun _ => True) _ _ _ _ _ _ _ _ Hin).
    + intros e' He'. exists e'. by rewrite !(Hkept Enrollments).
    + intros e v t He' _ Hv Ht Hid. exists t. by rewrite (Hkept Students).
    + intros e v t He' _ Hv Ht Hid.
      apply list_elem_of_lookup in Ht as [i Hi].
      destruct (Forall2_lookup_l _ _ _ _ _ Hrel Hi) as (t' & Hi' & Hcl).
      exists t'. split; [by eapply list_elem_of_lookup_2|].
      unfold cleared in Hcl. destruct (decide _) as [E|E].
      * destruct Hcl as (m & l & Hm & -> & _ & Hrec).
        unfold field in Hid |- *. rewrite Hm in Hid. rewrite Hrec. simpl in *.
        by rewrite lookup_insert_ne.
      * subst t'. rewrite (Hkept Classes); [done|].
        by eapply list_elem_of_lookup_2.
  - (* classes *)
    destruct Hc as (He & Hs & _). rewrite Hk, He, Hs.
    apply (integ_transfer
             (fun e => field (heap_of w) e "classId" <> id) _ _ _ _ _ _ _ _ Hin).
    + intros e' (Hne & He')%list_elem_of_filter. exists e'.
      by rewrite !(Hkept Enrollments).
    + intros e v t He' HQ Hv Ht Hid. exists t. by rewrite (Hkept Students).
    + intros e v t He' HQ Hv Ht Hid. exists t. split.
      * apply list_elem_of_filter. split; [congruence|done].
      * by rewrite (Hkept Classes).
  - (* enrollments *)
    destruct Hc as (Hs & _ & Hcl). rewrite Hk, Hs, Hcl.
    apply (integ_transfer (fun _ => True) _ _ _ _ _ _ _ _ Hin).
    + intros e' (Hne & He')%list_elem_of_filter. exists e'.
      by rewrite !(Hkept Enrollments).
    + intros e v t He' _ Hv Ht Hid. exists t. by rewrite (Hkept Students).
    + intros e v t He' _ Hv Ht Hid. exists t. by rewrite (Hkept Classes).
Qed.

Lemma refers_to_mono h h' e f ts ts' :
  field h' e f = field h e f ->
  (forall t, t ∈ ts -> t ∈ ts' /\ field h' t "id" = field h t "id") ->
  refers_to h e f ts -> refers_to h' e f ts'.
Proof.
  intros He Hts (v & t & Hv & Ht & Hid). destruct (Hts t Ht) as [Ht' E].
  exists v, t. by rewrite He, E.
Qed.

Lemma integrity_add w st sm al el k item :
  shape w st sm al el ->
  integ (heap_of w) (el Enrollments) (el Students) (el Classes) ->
  flat_record (heap_of w) item = true ->
  k <> Enrollments \/
    (refers_to (heap_of w) item "studentId" (el Students) /\
     refers_to (heap_of w) item "classId" (el Classes)) ->
  referential_integrity (snd (Data_add (kind_name k) item w)) = true.
Proof.
  intros S Hin Hitem Hk.
  destruct (Data_add_shape _ _ _ _ _ k item S Hitem)
    as (j & w' & Hrun & Hheap & _ & _ & _ & _ & S').
  rewrite Hrun. simpl. apply (integrity_shape _ _ _ _ _ S').
  assert (keeps st (heap_of w) (heap_of w')) as K.
  { rewrite Hheap. eapply keeps_insert_arr, (sh_arr _ _ _ _ _ S). }
  assert (forall r f, flat_record (heap_of w) r = true ->
            field (heap_of w') r f = field (heap_of w) r f) as Hkept.
  { intros r f Hr. eapply keeps_field; [exact K| |by apply flat_is_record].
    exact (flat_ne_state _ _ _ _ _ r S Hr). }
  assert (forall k' t, t ∈ el k' ->
            t ∈ (<[k := el k ++ [item]]> el) k' /\
            field (heap_of w') t "id" = field (heap_of w) t "id") as Hts.
  { intros k' t Ht. split.
    - destruct (decide (k = k')) as [<-|Hne].
      + rewrite fn_lookup_insert. set_solver.
      + by rewrite fn_lookup_insert_ne.
    - apply Hkept. by eapply sh_rec. }
  intros e He.
  assert (e ∈ el Enrollments \/ (k = Enrollments /\ e = item)) as [He'|[-> ->]].
  { destruct (decide (k = Enrollments)) as [->|Hne].
    - rewrite fn_lookup_insert in He. set_solver.
    - rewrite fn_lookup_insert_ne in He by done. by left. }
  - destruct (Hin e He') as [H1 H2].
    pose proof (sh_rec _ _ _ _ _ S _ _ He') as Hflat.
    split; (eapply refers_to_mono; [by apply Hkept|apply Hts|done]).
  - destruct Hk as [?|[H1 H2]]; [done|].
    split; (eapply refers_to_mono; [by apply Hkept|apply Hts|done]).
Qed.

Lemma elem_of_insert_other {A} (l : list A) i x y z :
  l !! i = Some y -> z ∈ l -> z <> y -> z ∈ <[i := x]> l.
Proof.
  intros Hi [j Hj]%list_elem_of_lookup Hne.
  apply list_elem_of_lookup. exists j.
  rewrite list_lookup_insert_ne; [done|]. intros ->. congruence.
Qed.

Lemma elem_of_insert_inv {A} (l : list A) i x z :
  z ∈ <[i := x]> l -> z = x \/ z ∈ l.
Proof.
  intros [j Hj]%list_elem_of_lookup.
  destruct (decide (i = j)) as [->|Hne].
  - destruct (decide (j < length l)).
    + rewrite list_lookup_insert_eq in Hj by done. left. congruence.
    + rewrite list_insert_ge in Hj by lia. right.
      by eapply list_elem_of_lookup_2.
  - rewrite list_lookup_insert_ne in Hj by done. right.
    by eapply list_elem_of_lookup_2.
Qed.

(** [v] is defined and is the id of one of the [targets]. *)
Definition is_id_of (h : heap) (v : option hval) (targets : list hval) : bool :=
  match v with
  | Some x => existsb (fun t => bool_decide (field h t "id" = Some x)) targets
  | None => false
  end.

(** The property [f] of the record [Data.update] puts in the place of [r]:
    that of the partial record [u] if it names [f], that of [r]
    otherwise. *)
Definition merged (h : heap) (r : hval) (u : gmap string hval) (f : string)
  : option hval :=
  match u !! f with
  | Some x => Some x
  | None => field h r f
  end.

(** An update of the record of id [id] by [u] leaves every reference to
    that record in place: [u] names no id, or the id the record has, or no
    enrollment refers to the record (only students and classes are
    referred to). *)
Definition keeps_references (w : World) (k : kind) (id : option hval)
    (u : gmap string hval) : Prop :=
  u !! "id" = None \/ u !! "id" = id \/
  match k with
  | Students => absent w Enrollments "studentId" id
  | Classes => absent w Enrollments "classId" id
  | Teachers | Enrollments => True
  end.

Lemma is_id_of_spec h v targets :
  is_id_of h v targets = true <->
  exists x t, v = Some x /\ t ∈ targets /\ field h t "id" = Some x.
Proof.
  unfold is_id_of. split.
  - destruct v as [x|]; [|done].
    intros (t & Ht & Hid)%existsb_exists.
    apply bool_decide_eq_true in Hid. apply list_elem_of_In in Ht. eauto.
  - intros (x & t & -> & Ht & Hid). apply existsb_exists. exists t.
    split; [by apply list_elem_of_In|by apply bool_decide_eq_true].
Qed.

Lemma refers_to_is_id_of h e f targets :
  refers_to h e f targets <-> is_id_of h (field h e f) targets = true.
Proof.
  rewrite is_id_of_spec. unfold refers_to. split.
  - intros (v & t & Hv & Ht & Hid). by exists v, t.
  - intros (v & t & Hv & Ht & Hid). by exists v, t.
Qed.

(** The enrollment [Data.add] appends decides whether integrity holds
    after it. *)
Lemma integrity_add_enrollment w st sm al el item :
  shape w st sm al el ->
  integ (heap_of w) (el Enrollments) (el Students) (el Classes) ->
  flat_record (heap_of w) item = true ->
  referential_integrity (snd (Data_add "enrollments" item w)) = true <->
  refers_to (heap_of w) item "studentId" (el Students) /\
  refers_to (heap_of w) item "classId" (el Classes).
Proof.
  intros S Hin Hitem. split.
  2:{ intros H. apply (integrity_add _ _ _ _ _ Enrollments item S Hin Hitem).
      by right. }
  destruct (Data_add_shape _ _ _ _ _ Enrollments item S Hitem)
    as (j & w' & Hrun & Hheap & _ & _ & _ & _ & S').
  change "enrollments" with (kind_name Enrollments). rewrite Hrun. cbn [snd].
  intros Hint. apply (integrity_shape _ _ _ _ _ S') in Hint.
  assert (keeps st (heap_of w) (heap_of w')) as K.
  { rewrite Hheap. eapply keeps_insert_arr, (sh_arr _ _ _ _ _ S). }
  assert (forall r f, flat_record (heap_of w) r = true ->
            field (heap_of w') r f = field (heap_of w) r f) as Hkept.
  { intros r f Hr. eapply keeps_field; [exact K| |by apply flat_is_record].
    exact (flat_ne_state _ _ _ _ _ r S Hr). }
  destruct (Hint item) as [H1 H2].
  { rewrite fn_lookup_insert. set_solver. }
  rewrite !fn_lookup_insert_ne in H1, H2 by done.
  split; (eapply refers_to_mono; [symmetry; by apply Hkept| |eassumption]);
    intros t Ht; (split; [done|]); symmetry; apply Hkept; by eapply sh_rec.
Qed.

(** What an update that finds its record makes of the collections. *)
Lemma update_hit_facts w st sm al el k id update u i r :
  shape w st sm al el ->
  flat_record (heap_of w) update = true ->
  record (heap_of w) update = Some u ->
  list_find (fun r => field (heap_of w) r "id" = id) (el k) = Some (i, r) ->
  exists w' r',
    Data_update (kind_name k) id update w = (Ok tt, w') /\
    shape w' st sm al (<[k := <[i := r']> (el k)]> el) /\
    (forall k' x f, x ∈ el k' ->
       field (heap_of w') x f = field (heap_of w) x f) /\
    (forall f, field (heap_of w') r' f = merged (heap_of w) r u f).
Proof.
  intros S Hflat Hu Hfind.
  destruct (Data_update_hit _ _ _ _ _ k id update u i r S Hflat Hu Hfind)
    as (old & j & w' & Hold & Hrun & Hheap & _ & _ & _ & _ & S').
  exists w', (HRef (length (heap_of w))). split_and!; [done|done| |].
  - intros k' x f Hx. eapply shape_field_kept; [exact S| |exact Hx].
    rewrite Hheap. eapply keeps_trans; [apply keeps_app|].
    eapply keeps_insert_arr. rewrite lookup_app_l.
    + apply (sh_arr _ _ _ _ _ S).
    + eapply lookup_lt_Some, (sh_arr _ _ _ _ _ S).
  - intros f. unfold field at 1, merged. rewrite Hheap. unfold record.
    rewrite list_lookup_insert_ne.
    2:{ pose proof (lookup_lt_Some _ _ _ (sh_arr _ _ _ _ _ S k)). lia. }
    rewrite lookup_app_r, Nat.sub_diag by done. simpl.
    rewrite lookup_union, (field_record _ _ _ _ Hold).
    destruct (u !! f), (old !! f); done.
Qed.

Lemma integrity_update w st sm al el k id update u :
  shape w st sm al el ->
  integ (heap_of w) (el Enrollments) (el Students) (el Classes) ->
  flat_record (heap_of w) update = true ->
  record (heap_of w) update = Some u ->
  k <> Enrollments ->
  keeps_references w k id u ->
  referential_integrity (snd (Data_update (kind_name k) id update w)) = true.
Proof.
  intros S Hin Hflat Hu Hk Hsafe.
  destruct (list_find (fun r => field (heap_of w) r "id" = id) (el k))
    as [[i r]|] eqn:Hfind.
  2:{ rewrite (Data_update_miss _ _ _ _ _ _ _ _ S Hfind). simpl.
      by apply (integrity_shape _ _ _ _ _ S). }
  destruct (update_hit_facts _ _ _ _ _ k id update u i r S Hflat Hu Hfind)
    as (w' & r' & Hrun & S' & Hkept & Hr').
  pose proof (proj1 (list_find_Some _ _ _ _) Hfind) as (Hi & Hid & _).
  rewrite Hrun. simpl. apply (integrity_shape _ _ _ _ _ S').
  rewrite (fn_lookup_insert_ne _ k Enrollments) by done.
  (* a record an enrollment refers to is still found *)
  assert (forall k' f e v t, (k' = Students /\ f = "studentId") \/
                             (k' = Classes /\ f = "classId") ->
            e ∈ el Enrollments -> field (heap_of w) e f = Some v ->
            t ∈ el k' -> field (heap_of w) t "id" = Some v ->
            exists t', t' ∈ (<[k := <[i := r']> (el k)]> el) k' /\
                       field (heap_of w') t' "id" = Some v) as Hfound.
  { intros k' f e v t Hkf He Hv Ht Htid.
    destruct (decide (k' = k)) as [->|Hne].
    2:{ exists t. rewrite fn_lookup_insert_ne by done. by rewrite (Hkept k'). }
    rewrite fn_lookup_insert. destruct (decide (t = r)) as [->|Htr].
    2:{ exists t. split; [by eapply elem_of_insert_other|]. by rewrite (Hkept k). }
    assert (id = Some v) as -> by congruence.
    exists r'. split.
    { apply list_elem_of_lookup. exists i.
      apply list_lookup_insert_eq. by eapply lookup_lt_Some. }
    rewrite Hr'. unfold merged.
    destruct Hsafe as [Hn|[Hs|Habs]]; [by rewrite Hn|by rewrite Hs|].
    exfalso. destruct Hkf as [[-> ->]|[-> ->]]; cbn in Habs;
      by apply (Habs (el Enrollments) e (collection_shape _ _ _ _ _ _ S) He). }
  intros e He. destruct (Hin e He) as [(v1 & t1 & Hv1 & Ht1 & Hid1)
                                        (v2 & t2 & Hv2 & Ht2 & Hid2)].
  split.
  - destruct (Hfound Students "studentId" e v1 t1) as (t' & ? & ?); auto.
    exists v1, t'. by rewrite (Hkept Enrollments).
  - destruct (Hfound Classes "classId" e v2 t2) as (t' & ? & ?); auto.
    exists v2, t'. by rewrite (Hkept Enrollments).
Qed.

Lemma integrity_update_enrollment w st sm al el id update u i r :
  shape w st sm al el ->
  integ (heap_of w) (el Enrollments) (el Students) (el Classes) ->
  flat_record (heap_of w) update = true ->
  record (heap_of w) update = Some u ->
  list_find (fun r => field (heap_of w) r "id" = id) (el Enrollments)
    = Some (i, r) ->
  referential_integrity (snd (Data_update "enrollments" id update w)) = true <->
  is_id_of (heap_of w) (merged (heap_of w) r u "studentId") (el Students) = true /\
  is_id_of (heap_of w) (merged (heap_of w) r u "classId") (el Classes) = true.
Proof.
  intros S Hin Hflat Hu Hfind.
  destruct (update_hit_facts _ _ _ _ _ Enrollments id update u i r S Hflat Hu Hfind)
    as (w' & r' & Hrun & S' & Hkept & Hr').
  pose proof (proj1 (list_find_Some _ _ _ _) Hfind) as (Hi & Hid & _).
  change "enrollments" with (kind_name Enrollments). rewrite Hrun. cbn [snd].
  rewrite (integrity_shape _ _ _ _ _ S').
  rewrite fn_lookup_insert, !fn_lookup_insert_ne by done.
  assert (forall f ts, (forall t, t ∈ ts ->
              field (heap_of w') t "id" = field (heap_of w) t "id") ->
            refers_to (heap_of w') r' f ts <->
            is_id_of (heap_of w) (merged (heap_of w) r u f) ts = true) as Hnew.
  { intros f ts Hts. rewrite is_id_of_spec. unfold refers_to. rewrite Hr'.
    split; intros (v & t & Hv & Ht & Htid); exists v, t;
      (split_and!; [done|done|]); by rewrite ?Hts in *. }
  assert (r' ∈ <[i := r']> (el Enrollments)) as Hin'.
  { apply list_elem_of_lookup. exists i.
    apply list_lookup_insert_eq. by eapply lookup_lt_Some. }
  split.
  - intros Hint. destruct (Hint r' Hin') as [H1 H2]. split.
    + apply (Hnew "studentId" (el Students)); [|done].
      intros t Ht. by apply (Hkept Students).
    + apply (Hnew "classId" (el Classes)); [|done].
      intros t Ht. by apply (Hkept Classes).
  - intros [H1 H2] e' He'. apply elem_of_insert_inv in He' as [->|He'].
    + split.
      * apply (Hnew "studentId" (el Students)); [|done].
        intros t Ht. by apply (Hkept Students).
      * apply (Hnew "classId" (el Classes)); [|done].
        intros t Ht. by apply (Hkept Classes).
    + destruct (Hin e' He') as [H1' H2'].
      split; (eapply refers_to_mono; [by apply (Hkept Enrollments)| |eassumption]);
        intros t Ht; (split; [done|]).
      * by apply (Hkept Students).
      * by apply (Hkept Classes).
Qed.

(** C1 (as amended). On a well-formed snapshot whose enrollments all refer
    to existing students and classes, referential integrity still holds
    after: [remove], for every kind and id; [add] of a student, a teacher
    or a class; [update] of a teacher; [update] of a student or a class by
    a partial record that names no id, or the id the record has, or when no
    enrollment refers to the record; and an [update] that finds no record.
    After the [add] of an enrollment it holds exactly when the [studentId]
    and the [classId] of the new enrollment are ids of a student and of a
    class of the snapshot; after an [update] that finds an enrollment,
    exactly when those of the merged record are.  ([add] and [update] do
    not check the references they are given.) *)
Theorem referential_integrity_preserved (w : World) :
  well_formed w = true ->
  referential_integrity w = true ->
  exists ss cs es,
    collection w Students = Some ss /\ collection w Classes = Some cs /\
    collection w Enrollments = Some es /\
    (forall k id,
       referential_integrity (snd (Data_remove (kind_name k) id w)) = true) /\
    (forall k item, flat_record (heap_of w) item = true -> k <> Enrollments ->
       referential_integrity (snd (Data_add (kind_name k) item w)) = true) /\
    (forall item, flat_record (heap_of w) item = true ->
       referential_integrity (snd (Data_add "enrollments" item w)) = true <->
       refers (heap_of w) item "studentId" ss = true /\
       refers (heap_of w) item "classId" cs = true) /\
    (forall k id update u, flat_record (heap_of w) update = true ->
       record (heap_of w) update = Some u ->
       k <> Enrollments -> keeps_references w k id u ->
       referential_integrity (snd (Data_update (kind_name k) id update w)) = true) /\
    (forall id update u, flat_record (heap_of w) update = true ->
       record (heap_of w) update = Some u ->
       match list_find (fun r => field (heap_of w) r "id" = id) es with
       | Some (_, r) =>
           referential_integrity (snd (Data_update "enrollments" id update w))
             = true <->
           is_id_of (heap_of w) (merged (heap_of w) r u "studentId") ss = true /\
           is_id_of (heap_of w) (merged (heap_of w) r u "classId") cs = true
       | None =>
           referential_integrity (snd (Data_update "enrollments" id update w))
             = true
       end).
Proof.
  intros (st & sm & al & el & S)%well_formed_shape Hint.
  pose proof Hint as Hint'.
  apply (integrity_shape _ _ _ _ _ S) in Hint.
  exists (el Students), (el Classes), (el Enrollments).
  split_and!; try (by eapply collection_shape).
  - intros k id. by eapply integrity_remove.
  - intros k item Hitem Hk. eapply integrity_add; eauto.
  - intros item Hitem. rewrite !refers_spec.
    by apply (integrity_add_enrollment _ _ _ _ _ item S).
  - intros k id update u Hflat Hu Hk Hsafe. by eapply integrity_update.
  - intros id update u Hflat Hu.
    destruct (list_find _ (el Enrollments)) as [[i r]|] eqn:Hfind.
    + by eapply integrity_update_enrollment.
    + change "enrollments" with (kind_name Enrollments).
      by rewrite (Data_update_miss _ _ _ _ _ _ _ _ S Hfind).
Qed.

(** The seeded repository with the record the student form passes to
    [Data.update] when S1 is edited: every property of the form and the
    id of the record. *)
Definition student_form : list (string * string) :=
  [("id", "s1"); ("firstName", "Sam"); ("lastName", "One");
   ("grade", "4"); ("dob", "2015-01-15"); ("email", "")].

Definition editing_student : World := snd (new_record student_form seeded).

Lemma referential_integrity_preserved_witness :
  well_formed editing_student = true /\
  referential_integrity editing_student = true /\
  referential_integrity
    (snd (Data_update (kind_name Students) (Some (HStr "s1"))
            (HRef (length (heap_of seeded))) editing_student)) = true.
Proof.
  assert (well_formed editing_student = true) as Hwf by (vm_compute; reflexivity).
  assert (referential_integrity editing_student = true) as Hint
    by (vm_compute; reflexivity).
  split_and!; [exact Hwf|exact Hint|].
  destruct (referential_integrity_preserved editing_student Hwf Hint)
    as (ss & cs & es & _ & _ & _ & _ & _ & _ & Hupd & _).
  apply (Hupd Students (Some (HStr "s1")) (HRef (length (heap_of seeded)))
           (list_to_map (prod_map id HStr <$> student_form))).
  - vm_compute. reflexivity.
  - vm_compute. reflexivity.
  - discriminate.
  - right. left. vm_compute. reflexivity.
Defined.

(** The seeded repository with a new enrollment record at hand whose
    [studentId] is the id of no student. *)
Definition enrolling : World :=
  snd (new_record [("id", "e2"); ("studentId", "ghost"); ("classId", "c1");
                   ("status", "enrolled")] seeded).

Definition ghost_enrollment : hval := HRef (length (heap_of seeded)).

(** C1 as stated fails: [Data.add] appends an enrollment without looking
    at its references. *)
Lemma add_dangling_enrollment :
  well_formed enrolling = true /\
  referential_integrity enrolling = true /\
  fst (Data_add "enrollments" ghost_enrollment enrolling) = Ok tt /\
  referential_integrity
    (snd (Data_add "enrollments" ghost_enrollment enrolling)) = false.
Proof. vm_compute. repeat split. Qed.

(** * Further functions of [src/app.js] *)

(** ** [deepClone] *)

(** [deepClone(value)], that is [JSON.parse(JSON.stringify(value))], for a
    defined [value]. *)
Definition deepClone (v : hval) : M hval :=
  fun w =>
    match JSON_stringify (heap_of w) v with
    | None => (Throw TypeError, w)
    | Some j =>
        let '(v', h') := JSON_parse j (heap_of w) in
        (Ok v', set_heap h' w)
    end.

Lemma view_app n h ext v j :
  view n h v = Some j -> view n (h ++ ext) v = Some j.
Proof.
  revert v j. induction n as [|n IH]; intros v j Hv.
  - destruct v; simpl in *; done.
  - destruct v as [| | | |l]; try exact Hv.
    rewrite view_ref in Hv. rewrite view_ref.
    destruct (h !! l) as [c|] eqn:Hl; [|done].
    rewrite lookup_app_l by (by eapply lookup_lt_Some). rewrite Hl.
    destruct c as [vs|m].
    + destruct (mapM (view n h) vs) as [js|] eqn:Hm; [|done].
      simpl in Hv. injection Hv as <-.
      apply mapM_Some_1 in Hm.
      rewrite (mapM_Some_2 (view n (h ++ ext)) vs js); [done|].
      eapply Forall2_impl; [exact Hm|]. intros x y Hxy. by apply IH.
    + destruct (map_mapM (view n h) m) as [jm|] eqn:Hm; [|done].
      simpl in Hv. injection Hv as <-.
      pose proof (proj1 (map_mapM_Some (view n h) m jm) Hm) as Hrel.
      assert (map_mapM (view n (h ++ ext)) m = Some jm) as ->; [|done].
      apply map_mapM_Some. intros k. specialize (Hrel k).
      inversion Hrel; constructor. by apply IH.
Qed.

Lemma JSON_stringify_app h ext v j :
  JSON_stringify h v = Some j -> JSON_stringify (h ++ ext) v = Some j.
Proof.
  unfold JSON_stringify. intros H. eapply view_mono.
  - by apply view_app.
  - rewrite length_app. lia.
Qed.

Lemma agree_on_refl lo hi h : agree_on lo hi h h.
Proof. by intros l _. Qed.

(** X1. When [value] can be serialized, [deepClone] returns a structure
    with the same document, made of new cells only, one per array and
    object of the document; the heap before the call is kept as it is, so
    every structure that could be serialized before still has the same
    document. *)
Theorem deepClone_fresh_copy (w : World) (v : hval) (j : value) :
  JSON_stringify (heap_of w) v = Some j ->
  exists v' new,
    deepClone v w = (Ok v', set_heap (heap_of w ++ new) w) /\
    length new = nodes j /\
    JSON_stringify (heap_of w ++ new) v' = Some j /\
    (forall l, reach (heap_of w ++ new) v' l ->
       length (heap_of w) <= l < length (heap_of w ++ new)) /\
    (forall u k, JSON_stringify (heap_of w) u = Some k ->
       JSON_stringify (heap_of w ++ new) u = Some k).
Proof.
  intros Hj. unfold deepClone. rewrite Hj.
  destruct (JSON_parse j (heap_of w)) as [v' h'] eqn:Hp.
  destruct (JSON_parse_spec _ _ _ _ Hp) as [[new [-> Hnew]] Hv].
  destruct (Hv _ (agree_on_refl _ _ _)) as [Hview Hreach].
  exists v', new. split_and!; try done.
  - unfold JSON_stringify. eapply view_mono; [exact Hview|].
    rewrite length_app. lia.
  - intros u k. apply JSON_stringify_app.
Qed.

Lemma deepClone_fresh_copy_witness :
  JSON_stringify (heap_of seeded) (app_state seeded) = storage seeded /\
  exists v' new,
    deepClone (app_state seeded) seeded =
      (Ok v', set_heap (heap_of seeded ++ new) seeded) /\
    length new = 9.
Proof.
  split; [vm_compute; reflexivity|].
  destruct (storage seeded) as [j|] eqn:Hs; [|vm_compute in Hs; discriminate].
  assert (JSON_stringify (heap_of seeded) (app_state seeded) = Some j) as Hj.
  { rewrite <- Hs. vm_compute. reflexivity. }
  destruct (deepClone_fresh_copy seeded (app_state seeded) j Hj)
    as (v' & new & Hrun & Hlen & _).
  exists v', new. split; [exact Hrun|]. rewrite Hlen.
  assert (Some (nodes j) = Some 9) as [= ->]; [|done].
  assert (nodes <$> storage seeded = Some 9) as E by (vm_compute; reflexivity).
  rewrite Hs in E. exact E.
Defined.

(** ** [validateAndLoadData] *)

(** [!v] is [negb (truthy v)]. *)
Definition truthy (v : option hval) : bool :=
  match v with
  | None | Some HNull => false
  | Some (HBool b) => b
  | Some (HNum n) => negb (n =? 0)%Z
  | Some (HStr s) => negb (bool_decide (s = ""))
  | Some (HRef _) => true
  end.

(** [typeof v] (no value of the model is a function). *)
Definition typeof (v : option hval) : string :=
  match v with
  | None => "undefined"
  | Some HNull | Some (HRef _) => "object"
  | Some (HBool _) => "boolean"
  | Some (HNum _) => "number"
  | Some (HStr _) => "string"
  end.

(** The top-level keys [validateAndLoadData] takes over. *)
Definition recognized : list string :=
  ["students"; "teachers"; "classes"; "enrollments"; "theme"].

(** [for (const key of keys) if (key in data) next[key] =
    deepClone(data[key])].  A property that is present holds a value, so
    the last case does not arise ([JSON.parse(undefined)] raises a
    SyntaxError, rendered as an [Error]). *)
Fixpoint overlay (next : hval) (data : option hval) (keys : list string)
  : M unit :=
  match keys with
  | [] => ret tt
  | key :: rest =>
      present <- reading (fun h =>
                   match data with
                   | Some d => has_prop h d key
                   | None => Throw TypeError
                   end) ;;
      (if present : bool then
         v <- reading (fun h => get_prop h data key) ;;
         match v with
         | Some x => c <- deepClone x ;; set_prop (Some next) key c
         | None => throw (Error "SyntaxError")
         end
       else ret tt) ;;
      overlay next data rest
  end.

(** [validateAndLoadData(data)]. *)
Definition validateAndLoadData (data : option hval) : M unit :=
  if negb (truthy data) || negb (bool_decide (typeof data = "object"))
  then throw (Error "Invalid data")
  else
    next <- AppState_initial ;;
    overlay next data recognized ;;
    set_AppState_state next ;;
    save_state.


(** A non-null object in the sense of JavaScript: a reference (to an object
    or to an array). *)
Definition is_object (v : option hval) : bool :=
  match v with Some (HRef _) => true | _ => false end.

(** The result is the validation error of [validateAndLoadData]. *)
Definition is_invalid_data {A} (r : res A) : bool :=
  match r with
  | Throw (Error msg) => bool_decide (msg = "Invalid data")
  | _ => false
  end.

(** The document of [AppState.initial()]. *)
Definition initial_doc : gmap string value :=
  <["version" := VStr APP_VERSION]>
  (<["students" := VArr []]>
  (<["teachers" := VArr []]>
  (<["classes" := VArr []]>
  (<["enrollments" := VArr []]>
  (<["theme" := VStr "dark"]> ∅))))).

(** The document of the snapshot loaded from a document with the top-level
    members [m]: the recognized members of [m] over the defaults. *)
Definition loaded_doc (m : gmap string value) : gmap string value :=
  filter (fun kv => kv.1 ∈ recognized) m ∪ initial_doc.

(** A command that never raises the validation error. *)
Definition quiet {A} (m : M A) : Prop :=
  forall w, is_invalid_data (fst (m w)) = false.

Lemma quiet_ret {A} (a : A) : quiet (ret a).
Proof. by intros w. Qed.

Lemma quiet_bind {A B} (m : M A) (f : A -> M B) :
  quiet m -> (forall a, quiet (f a)) -> quiet (bind m f).
Proof.
  intros Hm Hf w. unfold bind. specialize (Hm w).
  destruct (m w) as [[a|e] w']; [apply Hf|exact Hm].
Qed.

Lemma quiet_reading {A} (f : heap -> res A) :
  (forall h, is_invalid_data (f h) = false) -> quiet (reading f).
Proof. intros H w. apply H. Qed.

Lemma quiet_get_prop v k : quiet (reading (fun h => get_prop h v k)).
Proof.
  apply quiet_reading. intros h. unfold get_prop.
  destruct v as [[| | | |l]|]; try done. by destruct (h !! l) as [[]|].
Qed.

Lemma quiet_has_prop (data : option hval) k :
  quiet (reading (fun h => match data with
                           | Some d => has_prop h d k
                           | None => Throw TypeError
                           end)).
Proof.
  apply quiet_reading. intros h. destruct data as [[| | | |l]|]; try done.
  simpl. by destruct (h !! l) as [[]|].
Qed.

Lemma quiet_deepClone v : quiet (deepClone v).
Proof.
  intros w. unfold deepClone. destruct (JSON_stringify _ _); [|done].
  by destruct (JSON_parse _ _).
Qed.

Lemma quiet_set_prop v k x : quiet (set_prop v k x).
Proof.
  intros w. unfold set_prop. destruct v as [[| | | |l]|]; try done.
  by destruct (heap_of w !! l) as [[]|].
Qed.

Lemma quiet_alloc c : quiet (alloc c).
Proof. by intros w. Qed.

Lemma quiet_save_state : quiet save_state.
Proof.
  intros w. unfold save_state, bind, AppState_state, StorageService_save.
  by destruct (JSON_stringify _ _).
Qed.

Lemma quiet_overlay next data keys : quiet (overlay next data keys).
Proof.
  induction keys as [|key rest IH]; [apply quiet_ret|]. simpl.
  apply quiet_bind; [apply quiet_has_prop|]. intros present.
  apply quiet_bind; [|intros _; exact IH].
  destruct present; [|apply quiet_ret].
  apply quiet_bind; [apply quiet_get_prop|]. intros [x|]; [|by intros w].
  apply quiet_bind; [apply quiet_deepClone|]. intros c. apply quiet_set_prop.
Qed.

Lemma quiet_AppState_initial : quiet AppState_initial.
Proof.
  unfold AppState_initial.
  repeat (apply quiet_bind; [apply quiet_alloc|intros ?]). apply quiet_alloc.
Qed.

Lemma validateAndLoadData_object l :
  validateAndLoadData (Some (HRef l)) =
  (next <- AppState_initial ;;
   overlay next (Some (HRef l)) recognized ;;
   set_AppState_state next ;;
   save_state).
Proof. reflexivity. Qed.

Lemma validateAndLoadData_not_object (data : option hval) (w : World) :
  is_object data = false ->
  validateAndLoadData data w = (Throw (Error "Invalid data"), w).
Proof.
  intros Hobj. unfold validateAndLoadData.
  destruct data as [[|b|n|s|l]|]; try done; simpl.
  - by destruct b.
  - by destruct (n =? 0)%Z.
  - by destruct (bool_decide (s = "")).
Qed.

(** X2. [validateAndLoadData] raises its validation error exactly when
    [data] is not an object in the sense of JavaScript ([undefined],
    [null], a boolean, a number or a string; an array is an object), and
    in that case nothing is changed: neither [AppState.state], nor the
    store, nor any object. *)
Theorem validateAndLoadData_rejects (data : option hval) (w : World) :
  is_invalid_data (fst (validateAndLoadData data w)) = negb (is_object data) /\
  (is_object data = false ->
   validateAndLoadData data w = (Throw (Error "Invalid data"), w)).
Proof.
  pose proof (validateAndLoadData_not_object data w) as Hrej.
  split; [|exact Hrej].
  destruct (is_object data) eqn:Hobj.
  - destruct data as [[| | | |l]|]; try done.
    rewrite validateAndLoadData_object. cbn [negb].
    apply (quiet_bind AppState_initial); [apply quiet_AppState_initial|].
    intros next. apply quiet_bind; [apply quiet_overlay|]. intros _.
    apply quiet_bind; [by intros ?|]. intros _. apply quiet_save_state.
  - by rewrite Hrej.
Qed.

(** The snapshot object [AppState.initial()] creates at location [n + 4],
    after its four arrays. *)
Definition init_map (n : nat) : gmap string hval :=
  <["version" := HStr APP_VERSION]>
  (<["students" := HRef n]>
  (<["teachers" := HRef (n + 1)]>
  (<["classes" := HRef (n + 2)]>
  (<["enrollments" := HRef (n + 3)]>
  (<["theme" := HStr "dark"]> ∅))))).

Definition init_cells (n : nat) : list cell :=
  [CArr []; CArr []; CArr []; CArr []; CObj (init_map n)].

Lemma AppState_initial_run w :
  AppState_initial w =
  (Ok (HRef (length (heap_of w) + 4)),
   set_heap (heap_of w ++ init_cells (length (heap_of w))) w).
Proof.
  unfold AppState_initial, bind, alloc. cbn [heap_of set_heap].
  rewrite !length_app. cbn [length]. unfold init_cells, init_map.
  rewrite <- !app_assoc. cbn [app].
  replace (length (heap_of w) + 1 + 1) with (length (heap_of w) + 2) by lia.
  replace (length (heap_of w) + 2 + 1) with (length (heap_of w) + 3) by lia.
  replace (length (heap_of w) + 3 + 1) with (length (heap_of w) + 4) by lia.
  reflexivity.
Qed.

(** [v] holds a structure of document [j] that lies within the cells from
    [n0] on, the snapshot object at [n0 + 4] apart, and depends on these
    cells only. *)
Definition good (n0 : nat) (hw : heap) (v : hval) (j : value) : Prop :=
  nodes j < length hw /\
  forall h2,
    (forall l, n0 <= l < length hw -> l <> n0 + 4 -> h2 !! l = hw !! l) ->
    view (nodes j) h2 v = Some j /\
    forall l, reach h2 v l -> (n0 <= l < length hw) /\ l <> n0 + 4.

Lemma good_mono n0 hw hw' v j :
  good n0 hw v j -> length hw <= length hw' ->
  (forall l, n0 <= l < length hw -> l <> n0 + 4 -> hw' !! l = hw !! l) ->
  good n0 hw' v j.
Proof.
  intros [Hn Hg] Hlen Hag. split; [lia|]. intros h2 H2.
  destruct (Hg h2) as [Hv Hr].
  - intros l Hl Hne. rewrite <- Hag by done. apply H2; [lia|done].
  - split; [done|]. intros l Hl. apply Hr in Hl. lia.
Qed.

Lemma good_prim n0 hw v j :
  0 < length hw -> is_ref v = false -> view 0 hw v = Some j -> good n0 hw v j.
Proof.
  intros Hlen Hv Hj.
  assert (nodes j = 0) as Hn by (destruct v; simpl in Hj; by simplify_eq).
  split; [lia|]. intros h2 _. rewrite Hn. split.
  - destruct v; simpl in *; done.
  - intros l Hr. by apply reach_prim in Hr.
Qed.

Lemma good_empty_array n0 hw a :
  n0 <= a < length hw -> a <> n0 + 4 -> 1 < length hw ->
  hw !! a = Some (CArr []) -> good n0 hw (HRef a) (VArr []).
Proof.
  intros Ha Hne Hlen Hcell. split; [rewrite nodes_VArr; simpl; lia|].
  intros h2 H2. rewrite nodes_VArr.
  assert (h2 !! a = Some (CArr [])) as Hc by (by rewrite H2).
  split.
  - by rewrite view_ref, Hc.
  - intros l Hr. inversion Hr as [|? vs x ? Hc' Hin|? ? ? ? ? Hc']; subst.
    + done.
    + rewrite Hc in Hc'. injection Hc' as <-. by apply elem_of_nil in Hin.
    + rewrite Hc in Hc'. discriminate.
Qed.

Lemma good_parsed n0 hw hw' v j :
  n0 + 4 < length hw -> parsed j hw v hw' -> good n0 hw' v j.
Proof.
  intros Hlen [[new [-> Hnew]] Hv]. split.
  - rewrite length_app. lia.
  - intros h2 H2. destruct (Hv h2) as [Hview Hreach].
    + intros l Hl. apply H2; lia.
    + split; [done|]. intros l Hl. apply Hreach in Hl. lia.
Qed.

(** The members of the document of an object; none for another document. *)
Definition members (doc : value) : gmap string value :=
  match doc with VObj m => m | _ => ∅ end.

(** What the loop of [validateAndLoadData] reads of [data] under a key:
    whether the key is present and its value, in the heap before the call
    extended by new cells, and the document of that value. *)
Definition key_ok (h : heap) (d : loc) (m : gmap string hval)
    (jm : gmap string value) (key : string) : Prop :=
  (forall ext, has_prop (h ++ ext) (HRef d) key =
               Ok (bool_decide (is_Some (m !! key)))) /\
  (forall ext, get_prop (h ++ ext) (Some (HRef d)) key = Ok (m !! key)) /\
  option_Forall2 (fun x jx => JSON_stringify h x = Some jx)
                 (m !! key) (jm !! key).

Lemma lookup_filter_keys (jm : gmap string value) (keys : list string) k :
  filter (fun kv : string * value => kv.1 ∈ keys) jm !! k =
  if decide (k ∈ keys) then jm !! k else None.
Proof.
  apply option_eq. intros x. rewrite map_lookup_filter_Some. simpl.
  destruct (decide (k ∈ keys)); naive_solver.
Qed.

Lemma loaded_cons_present (jm jacc : gmap string value) key rest jx :
  jm !! key = Some jx ->
  filter (fun kv : string * value => kv.1 ∈ rest) jm ∪ <[key := jx]> jacc =
  filter (fun kv : string * value => kv.1 ∈ key :: rest) jm ∪ jacc.
Proof.
  intros Hk. apply map_eq. intros k.
  rewrite !lookup_union, !lookup_filter_keys.
  destruct (decide (k = key)) as [->|Hne].
  - rewrite Hk, lookup_insert_eq.
    rewrite (decide_True (P := key ∈ key :: rest)) by set_solver.
    destruct (decide (key ∈ rest)); simpl; by destruct (jacc !! key).
  - rewrite lookup_insert_ne by done.
    destruct (decide (k ∈ rest)).
    + by rewrite (decide_True (P := k ∈ key :: rest)) by set_solver.
    + by rewrite (decide_False (P := k ∈ key :: rest)) by set_solver.
Qed.

Lemma loaded_cons_absent (jm jacc : gmap string value) key rest :
  jm !! key = None ->
  filter (fun kv : string * value => kv.1 ∈ rest) jm ∪ jacc =
  filter (fun kv : string * value => kv.1 ∈ key :: rest) jm ∪ jacc.
Proof.
  intros Hk. apply map_eq. intros k.
  rewrite !lookup_union, !lookup_filter_keys.
  destruct (decide (k = key)) as [->|Hne].
  - rewrite Hk. by destruct (decide (key ∈ rest)), (decide (key ∈ key :: rest)).
  - destruct (decide (k ∈ rest)).
    + by rewrite (decide_True (P := k ∈ key :: rest)) by set_solver.
    + by rewrite (decide_False (P := k ∈ key :: rest)) by set_solver.
Qed.

(** No two properties of an object refer to the same object. *)
Definition unshared (nm : gmap string hval) : Prop :=
  forall k k' a, nm !! k = Some (HRef a) -> nm !! k' = Some (HRef a) -> k = k'.

Lemma overlay_run h d m jm keys :
  Forall (key_ok h d m jm) keys ->
  forall w ext nm jacc,
    heap_of w = h ++ ext -> 5 <= length ext ->
    ext !! 4 = Some (CObj nm) ->
    (forall key, option_Forall2 (good (length h) (h ++ ext))
                                (nm !! key) (jacc !! key)) ->
    unshared nm ->
    exists ext' nm',
      overlay (HRef (length h + 4)) (Some (HRef d)) keys w =
        (Ok tt, set_heap (h ++ ext') w) /\
      5 <= length ext' /\
      ext' !! 4 = Some (CObj nm') /\
      unshared nm' /\
      forall key, option_Forall2 (good (length h) (h ++ ext'))
                    (nm' !! key)
                    ((filter (fun kv => kv.1 ∈ keys) jm ∪ jacc) !! key).
Proof.
  induction 1 as [|key rest (Hhas & Hget & Hdoc) _ IH];
    intros w ext nm jacc Hw Hlen Hnext Hinv Hun.
  - exists ext, nm. cbn [overlay]. unfold ret. rewrite <- Hw.
    split_and!; [by destruct w|done|done|done|].
    intros key. rewrite Hw.
    replace (filter (fun kv : string * value => kv.1 ∈ []) jm ∪ jacc)
      with jacc; [apply Hinv|].
    apply map_eq. intros k. rewrite lookup_union, lookup_filter_keys.
    rewrite decide_False by (by intros ?%elem_of_nil).
    by destruct (jacc !! k).
  - cbn [overlay]. unfold bind at 1. unfold reading at 1.
    rewrite Hw, Hhas.
    inversion Hdoc as [x jx Hx Hmk Hjk|Hmk Hjk].
    + (* the key is present: its value is cloned *)
      rewrite bool_decide_eq_true_2 by eauto.
      rewrite bind_bind. unfold bind at 1. unfold reading at 1.
      rewrite Hw, Hget, <- Hmk.
      rewrite bind_bind. unfold bind at 1. unfold deepClone.
      rewrite Hw, (JSON_stringify_app _ ext _ _ Hx).
      destruct (JSON_parse jx (h ++ ext)) as [c h'] eqn:Hp.
      pose proof (JSON_parse_spec _ _ _ _ Hp) as Hparsed.
      pose proof Hparsed as [[new [-> Hnew]] _].
      unfold bind at 1. unfold set_prop. cbn [heap_of set_heap].
      assert (((h ++ ext) ++ new) !! (length h + 4) = Some (CObj nm)) as Hcell.
      { rewrite <- app_assoc, lookup_app_r by lia.
        replace (length h + 4 - length h) with 4 by lia.
        rewrite lookup_app_l by lia. done. }
      rewrite Hcell.
      set (ext' := <[4 := CObj (<[key := c]> nm)]> (ext ++ new)).
      assert (<[length h + 4 := CObj (<[key := c]> nm)]> ((h ++ ext) ++ new)
              = h ++ ext') as Hheap.
      { rewrite <- app_assoc. unfold ext'. by rewrite insert_app_r. }
      rewrite Hheap, set_heap_set_heap.
      assert (length ext' = length ext + length new) as Hlen'.
      { unfold ext'. by rewrite length_insert, length_app. }
      assert (unshared (<[key := c]> nm)) as Hun'.
      { assert (forall k a, k <> key -> nm !! k = Some (HRef a) ->
                  c = HRef a -> False) as Hfresh.
        { intros k a Hne Hk ->. specialize (Hinv k). rewrite Hk in Hinv.
          inversion Hinv as [? j [_ Hg] Hv Hj|]; subst.
          destruct (Hg (h ++ ext)) as [_ Hreach]; [done|].
          destruct (Hreach a (reach_root _ a)) as [Hlt _].
          destruct Hparsed as [_ Hp']. 
          destruct (Hp' ((h ++ ext) ++ new) (agree_on_refl _ _ _)) as [_ Hroot].
          pose proof (Hroot a (reach_root _ a)). lia. }
        intros k k' a Hk Hk'.
        destruct (decide (k = key)) as [->|Hne], (decide (k' = key)) as [->|Hne'];
          [done| | |].
        - rewrite lookup_insert_eq in Hk. rewrite lookup_insert_ne in Hk' by done.
          injection Hk as ->. by destruct (Hfresh k' a).
        - rewrite lookup_insert_eq in Hk'. rewrite lookup_insert_ne in Hk by done.
          injection Hk' as ->. by destruct (Hfresh k a).
        - rewrite lookup_insert_ne in Hk, Hk' by done. by eapply Hun. }
      destruct (IH (set_heap (h ++ ext') w) ext' (<[key := c]> nm)
                  (<[key := jx]> jacc))
        as (ext2 & nm2 & Hrun & Hl2 & Hn2 & Hun2 & Hinv2); [| | | |exact Hun'|].
      * done.
      * lia.
      * unfold ext'. apply list_lookup_insert_eq. rewrite length_app. lia.
      * assert (forall l, length h <= l < length (h ++ ext) ->
                  l <> length h + 4 -> (h ++ ext') !! l = (h ++ ext) !! l) as Hag.
        { intros l Hl Hne. rewrite length_app in Hl.
          rewrite !lookup_app_r by lia. unfold ext'.
          rewrite list_lookup_insert_ne by lia.
          rewrite lookup_app_l by lia. done. }
        intros key'. destruct (decide (key' = key)) as [->|Hne].
        -- rewrite !lookup_insert_eq. constructor.
           eapply (good_mono _ ((h ++ ext) ++ new)).
           ++ eapply good_parsed; [|exact Hparsed]. rewrite length_app. lia.
           ++ rewrite !length_app. lia.
           ++ intros l Hl Hnl. rewrite <- Hheap.
              by rewrite list_lookup_insert_ne.
        -- rewrite !lookup_insert_ne by done.
           specialize (Hinv key'). inversion Hinv as [v j Hg|]; constructor.
           eapply good_mono; [exact Hg| |exact Hag].
           rewrite !length_app. lia.
      * exists ext2, nm2. rewrite Hrun. split_and!; try done.
        intros key'. rewrite <- (loaded_cons_present jm jacc key rest jx) by done.
        apply Hinv2.
    + (* the key is absent: the default stays *)
      rewrite bool_decide_eq_false_2 by (by intros [? ?]).
      rewrite bind_ret.
      destruct (IH w ext nm jacc Hw Hlen Hnext Hinv Hun)
        as (ext2 & nm2 & Hrun & Hl2 & Hn2 & Hun2 & Hinv2).
      exists ext2, nm2. rewrite Hrun. split_and!; try done.
      intros key'. rewrite <- (loaded_cons_absent jm jacc key rest) by done.
      apply Hinv2.
Qed.

Lemma init_good h key :
  option_Forall2 (good (length h) (h ++ init_cells (length h)))
                 (init_map (length h) !! key) (initial_doc !! key).
Proof.
  assert (length (h ++ init_cells (length h)) = length h + 5) as Hlen
    by (rewrite length_app; done).
  assert (forall i c, init_cells (length h) !! i = Some c ->
            (h ++ init_cells (length h)) !! (length h + i) = Some c) as Hcell.
  { intros i c Hi. rewrite lookup_app_r by lia.
    by replace (length h + i - length h) with i by lia. }
  unfold init_map, initial_doc. rewrite !lookup_insert.
  repeat case_decide; try constructor.
  - apply good_prim; [lia|done|done].
  - replace (length h) with (length h + 0) at 3 by lia.
    apply good_empty_array; [lia|lia|lia|]. by apply Hcell.
  - apply good_empty_array; [lia|lia|lia|]. by apply Hcell.
  - apply good_empty_array; [lia|lia|lia|]. by apply Hcell.
  - apply good_empty_array; [lia|lia|lia|]. by apply Hcell.
  - apply good_prim; [lia|done|done].
Qed.

Lemma loaded_doc_empty : loaded_doc ∅ = initial_doc.
Proof.
  unfold loaded_doc. apply map_eq. intros k.
  rewrite lookup_union, lookup_filter_keys, lookup_empty.
  destruct (decide _); by destruct (initial_doc !! k).
Qed.

(** The run of [validateAndLoadData] on an object whose recognized keys
    read as [m], with documents [jm]. *)
Lemma init_unshared n : unshared (init_map n).
Proof.
  intros k k' a. unfold init_map. rewrite !lookup_insert, !lookup_empty.
  repeat case_decide; subst; try done; intros [= <-] [= E]; lia.
Qed.

Lemma validateAndLoadData_run w d m jm :
  Forall (key_ok (heap_of w) d m jm) recognized ->
  exists ext,
    validateAndLoadData (Some (HRef d)) w =
      (Ok tt, mkWorld (heap_of w ++ ext) (HRef (length (heap_of w) + 4))
                      (Some (VObj (loaded_doc jm)))
                      (saved w ++ [VObj (loaded_doc jm)])) /\
    JSON_stringify (heap_of w ++ ext) (HRef (length (heap_of w) + 4)) =
      Some (VObj (loaded_doc jm)) /\
    (forall l, reach (heap_of w ++ ext) (HRef (length (heap_of w) + 4)) l ->
       length (heap_of w) <= l) /\
    exists nm, (heap_of w ++ ext) !! (length (heap_of w) + 4) = Some (CObj nm) /\
               unshared nm.
Proof.
  intros Hkeys. set (h := heap_of w) in *.
  destruct (overlay_run h d m jm recognized Hkeys
              (set_heap (h ++ init_cells (length h)) w)
              (init_cells (length h)) (init_map (length h)) initial_doc)
    as (ext & nm & Hrun & Hlen & Hnext & Hun & Hinv);
    [done|simpl; lia|done| |apply init_unshared|].
  { intros key. apply init_good. }
  fold (loaded_doc jm) in Hinv.
  assert ((h ++ ext) !! (length h + 4) = Some (CObj nm)) as Hcell.
  { rewrite lookup_app_r by lia.
    by replace (length h + 4 - length h) with 4 by lia. }
  assert (forall key v j, nm !! key = Some v -> loaded_doc jm !! key = Some j ->
            good (length h) (h ++ ext) v j) as Hgood.
  { intros key v j Hv Hj. specialize (Hinv key). rewrite Hv, Hj in Hinv.
    by inversion Hinv. }
  assert (JSON_stringify (h ++ ext) (HRef (length h + 4)) =
          Some (VObj (loaded_doc jm))) as Hdoc.
  { unfold JSON_stringify.
    assert (length (h ++ ext) = S (length h + length ext - 1)) as ->
      by (rewrite length_app; lia).
    rewrite view_ref, Hcell.
    assert (map_mapM (view (length h + length ext - 1) (h ++ ext)) nm =
            Some (loaded_doc jm)) as ->; [|done].
    apply map_mapM_Some. intros key. specialize (Hinv key).
    inversion Hinv as [v j [Hn Hg] Hv Hj|]; constructor.
    destruct (Hg (h ++ ext)) as [Hview _]; [done|].
    eapply view_mono; [exact Hview|]. rewrite length_app in Hn. lia. }
  exists ext. split_and!.
  - rewrite validateAndLoadData_object. unfold bind at 1.
    rewrite AppState_initial_run. fold h. unfold bind at 1. rewrite Hrun.
    unfold bind at 1. unfold set_AppState_state.
    unfold save_state, bind, AppState_state, StorageService_save.
    cbn [heap_of app_state storage saved set_heap]. by rewrite Hdoc.
  - exact Hdoc.
  - intros l Hr.
    inversion Hr as [|? vs x ? Hc|? m0 key v ? Hc Hk Hr']; subst.
    + lia.
    + rewrite Hcell in Hc. discriminate.
    + rewrite Hcell in Hc. injection Hc as <-.
      specialize (Hinv key). rewrite Hk in Hinv.
      inversion Hinv as [v' j [_ Hg]|]; subst.
      destruct (Hg (h ++ ext)) as [_ Hreach]; [done|].
      apply Hreach in Hr'. lia.
  - by exists nm.
Qed.

Lemma key_ok_object h d m jm :
  h !! d = Some (CObj m) ->
  JSON_stringify h (HRef d) = Some (VObj jm) ->
  forall key, key_ok h d m jm key.
Proof.
  intros Hd Hdoc key. split_and!.
  - intros ext. unfold has_prop.
    by rewrite lookup_app_l, Hd by (by eapply lookup_lt_Some).
  - intros ext. unfold get_prop.
    by rewrite lookup_app_l, Hd by (by eapply lookup_lt_Some).
  - unfold JSON_stringify in Hdoc.
    destruct (length h) as [|n] eqn:Hlen; [done|].
    rewrite view_ref, Hd in Hdoc.
    destruct (map_mapM (view n h) m) as [jm'|] eqn:Hm; [|done].
    injection Hdoc as ->.
    pose proof (proj1 (map_mapM_Some _ _ _) Hm key) as Hrel.
    inversion Hrel as [x jx Hx|]; constructor.
    unfold JSON_stringify. eapply view_mono; [exact Hx|lia].
Qed.

Lemma key_ok_array h d vs :
  h !! d = Some (CArr vs) -> Forall (key_ok h d ∅ ∅) recognized.
Proof.
  intros Hd.
  assert (forall key, key ∈ recognized -> key_ok h d ∅ ∅ key) as H.
  { intros key Hkey. split_and!.
    - intros ext. unfold has_prop.
      rewrite lookup_app_l, Hd by (by eapply lookup_lt_Some).
      rewrite lookup_empty.
      repeat (apply elem_of_cons in Hkey as [->|Hkey]; [done|]).
      by apply elem_of_nil in Hkey.
    - intros ext. unfold get_prop.
      rewrite lookup_app_l, Hd by (by eapply lookup_lt_Some).
      rewrite lookup_empty.
      repeat (apply elem_of_cons in Hkey as [->|Hkey]; [done|]).
      by apply elem_of_nil in Hkey.
    - rewrite !lookup_empty. constructor. }
  apply Forall_forall. exact H.
Qed.

Lemma serializable_ref h d doc :
  JSON_stringify h (HRef d) = Some doc ->
  exists m jm, Forall (key_ok h d m jm) recognized /\ members doc = jm.
Proof.
  intros Hdoc. pose proof Hdoc as Hdoc'. unfold JSON_stringify in Hdoc'.
  destruct (length h) as [|n] eqn:Hlen; [done|].
  rewrite view_ref in Hdoc'.
  destruct (h !! d) as [[vs|m]|] eqn:Hd; [| |done].
  - destruct (mapM (view n h) vs) as [js|]; [|done]. injection Hdoc' as <-.
    exists ∅, ∅. split; [by eapply key_ok_array|done].
  - destruct (map_mapM (view n h) m) as [jm|] eqn:Hm; [|done].
    injection Hdoc' as <-. exists m, jm. split; [|done].
    apply Forall_forall. intros key _. by apply key_ok_object.
Qed.

(** X3. [validateAndLoadData] on an object (or array) that JSON can
    serialize as [doc] succeeds.  It does not touch the heap of before, it
    only allocates; the new application state is a new object; the
    in-memory state and the stored document are both the defaults overlaid
    by the recognized top-level keys of [doc] (every other key is dropped,
    [version] is always the application's); the document is saved once;
    and nothing reachable from the new state is shared with [data] or any
    older object. *)
Theorem validateAndLoadData_loads (w : World) (d : loc) (doc : value) :
  JSON_stringify (heap_of w) (HRef d) = Some doc ->
  exists w' new,
    validateAndLoadData (Some (HRef d)) w = (Ok tt, w') /\
    heap_of w' = heap_of w ++ new /\
    app_state w' = HRef (length (heap_of w) + 4) /\
    JSON_stringify (heap_of w') (app_state w') =
      Some (VObj (loaded_doc (members doc))) /\
    storage w' = Some (VObj (loaded_doc (members doc))) /\
    saved w' = saved w ++ [VObj (loaded_doc (members doc))] /\
    forall l, reach (heap_of w') (app_state w') l -> length (heap_of w) <= l.
Proof.
  intros Hdoc.
  destruct (serializable_ref _ _ _ Hdoc) as (m & jm & Hkeys & ->).
  destruct (validateAndLoadData_run w d m jm Hkeys)
    as (ext & Hrun & Hview & Hreach & _).
  eexists _, ext. split; [exact Hrun|]. by cbn [heap_of app_state storage saved].
Qed.

Lemma validateAndLoadData_loads_witness :
  JSON_stringify (heap_of seeded) (app_state seeded) = storage seeded /\
  exists w',
    validateAndLoadData (Some (HRef 4)) seeded = (Ok tt, w') /\
    app_state w' = HRef 13 /\
    storage w' = (fun j => VObj (loaded_doc (members j))) <$> storage seeded.
Proof.
  split; [vm_compute; reflexivity|].
  destruct (storage seeded) as [j|] eqn:Hs; [|vm_compute in Hs; discriminate].
  assert (JSON_stringify (heap_of seeded) (HRef 4) = Some j) as Hj.
  { rewrite <- Hs. vm_compute. reflexivity. }
  destruct (validateAndLoadData_loads seeded 4 j Hj)
    as (w' & new & Hrun & _ & Hst & _ & Hsto & _).
  exists w'. split; [exact Hrun|]. split; [exact Hst|exact Hsto].
Defined.










(** ** The data-model invariant *)

(** The facts of a [shape] make [well_formed] true. *)
Lemma shape_well_formed w st sm al el : shape w st sm al el -> well_formed w = true.
Proof.
  intros S. pose proof S as [H1 H2 H3 H4 H5 H6 H7].
  unfold well_formed. rewrite (snapshot_shape _ _ _ _ _ S).
  assert (forall k, array_at (heap_of w) (sm !! kind_name k) = Some (al k, el k))
    as Harr by (intros k; by apply array_at_Some).
  rewrite !Harr. apply andb_true_intro. split; [apply andb_true_intro; split|].
  - apply bool_decide_eq_true.
    assert (forall k k', k <> k' -> al k <> al k') as Hne
      by (intros k k' Hk E; by apply H5 in E).
    repeat (apply NoDup_cons; split); [| | | |apply NoDup_nil_2];
      rewrite ?elem_of_cons; intros E;
      repeat (destruct E as [E|E]; [by eapply Hne in E|]); by apply elem_of_nil in E.
  - apply forallb_forall. intros r Hr%list_elem_of_In.
    rewrite !elem_of_app in Hr.
    destruct Hr as [Hr|[Hr|[Hr|Hr]]]; by eapply H6.
  - apply bool_decide_eq_true. intros f v Hf. by eapply H7.
Qed.

(** Writing a primitive value to a property of the snapshot that is not a
    collection. *)
Lemma shape_set_other w st sm al el f v :
  shape w st sm al el -> is_kind_name f = false -> is_ref v = false ->
  shape (set_heap (<[st := CObj (<[f := v]> sm)]> (heap_of w)) w)
        st (<[f := v]> sm) al el.
Proof.
  intros S Hf Hv. pose proof S as [H1 H2 H3 H4 H5 H6 H7].
  assert (keeps st (heap_of w) (<[st := CObj (<[f := v]> sm)]> (heap_of w))) as K
    by apply keeps_insert_state.
  split; simpl; try done.
  - apply list_lookup_insert_eq. by eapply lookup_lt_Some.
  - intros k. rewrite lookup_insert_ne; [done|].
    intros ->. by rewrite is_kind_name_name in Hf.
  - intros k. rewrite list_lookup_insert_ne; [done|].
    intros E. by eapply shape_al_ne.
  - intros k r Hr.
    eapply keeps_flat; [exact K|by eapply shape_rec_ne|by eapply H6].
  - intros f' v'. destruct (decide (f = f')) as [<-|Hne].
    + rewrite lookup_insert_eq. intros [= <-]. by left.
    + rewrite lookup_insert_ne by done. apply H7.
Qed.

(** X7. Well-formedness of the snapshot (four distinct arrays of flat
    records under an object whose other properties are primitive) is an
    invariant of the three mutations: it holds after [Data.add] of a flat
    record, after [Data.update] by a flat record, and after [Data.remove],
    for every kind and every id. *)
Theorem well_formed_invariant (w : World) (k : kind) :
  well_formed w = true ->
  (forall item, flat_record (heap_of w) item = true ->
     well_formed (snd (Data_add (kind_name k) item w)) = true) /\
  (forall id update, flat_record (heap_of w) update = true ->
     well_formed (snd (Data_update (kind_name k) id update w)) = true) /\
  (forall id, well_formed (snd (Data_remove (kind_name k) id w)) = true).
Proof.
  intros Hwf. pose proof Hwf as (st & sm & al & el & S)%well_formed_shape.
  split_and!.
  - intros item Hitem.
    destruct (Data_add_shape _ _ _ _ _ k item S Hitem)
      as (j & w' & Hrun & _ & _ & _ & _ & _ & S').
    rewrite Hrun. by eapply shape_well_formed.
  - intros id update Hflat.
    destruct (flat_is_record _ _ Hflat) as [u Hu].
    destruct (list_find (fun r => field (heap_of w) r "id" = id) (el k))
      as [[i r]|] eqn:Hfind.
    + destruct (Data_update_hit _ _ _ _ _ k id update u i r S Hflat Hu Hfind)
        as (old & j & w' & _ & Hrun & _ & _ & _ & _ & _ & S').
      rewrite Hrun. by eapply shape_well_formed.
    + by rewrite (Data_update_miss _ _ _ _ _ k id update S Hfind).
  - intros id.
    destruct (Data_remove_shape _ _ _ _ _ k id S)
      as (j & w' & sm' & al' & el' & Hrun & _ & _ & _ & _ & S' & _).
    rewrite Hrun. by eapply shape_well_formed.
Qed.

Lemma well_formed_invariant_witness :
  well_formed seeded = true /\
  well_formed (snd (Data_remove (kind_name Teachers) (Some (HStr "t1")) seeded))
    = true.
Proof.
  assert (well_formed seeded = true) as Hwf by (vm_compute; reflexivity).
  split; [exact Hwf|].
  exact (proj2 (proj2 (well_formed_invariant seeded Teachers Hwf)) (Some (HStr "t1"))).
Defined.

(** X8. The three mutations do not check the entity name.  On a
    well-formed snapshot, a name that is not one of the four collections
    (a typo, or [theme] or [version]) makes [Data.add], [Data.update] and
    [Data.remove] fail with a TypeError at the first array operation,
    before anything is changed or saved. *)
Theorem Data_unknown_entity (w : World) (entity : string)
    (item update : hval) (id : option hval) :
  well_formed w = true ->
  is_kind_name entity = false ->
  Data_add entity item w = (Throw TypeError, w) /\
  Data_update entity id update w = (Throw TypeError, w) /\
  Data_remove entity id w = (Throw TypeError, w).
Proof.
  intros (st & sm & al & el & S)%well_formed_shape Hent.
  assert (forall h, elements h (sm !! entity) = Throw TypeError) as Hel.
  { intros h. destruct (sm !! entity) as [v|] eqn:Hv; [|done].
    destruct (sh_other _ _ _ _ _ S _ _ Hv) as [Hp|Hk]; [|congruence].
    by destruct v. }
  split_and!.
  - unfold Data_add, bind at 1. rewrite (state_get_shape _ _ _ _ _ entity S).
    unfold bind, Array_push. destruct (sm !! entity) as [v|] eqn:Hv; [|done].
    destruct (sh_other _ _ _ _ _ S _ _ Hv) as [Hp|Hk]; [|congruence].
    by destruct v.
  - unfold Data_update, bind at 1. rewrite (state_get_shape _ _ _ _ _ entity S).
    unfold bind, Array_findIndex, reading. by rewrite Hel.
  - unfold Data_remove, bind at 1. rewrite (state_get_shape _ _ _ _ _ entity S).
    unfold bind at 1. unfold Array_filter, bind, reading. by rewrite Hel.
Qed.

Lemma Data_unknown_entity_witness :
  Data_add "theme" (HRef 7) seeded = (Throw TypeError, seeded) /\
  Data_update "theme" (Some (HStr "s1")) (HRef 7) seeded = (Throw TypeError, seeded) /\
  Data_remove "theme" (Some (HStr "s1")) seeded = (Throw TypeError, seeded).
Proof.
  apply (Data_unknown_entity seeded "theme" (HRef 7) (HRef 7) (Some (HStr "s1")));
    vm_compute; reflexivity.
Defined.

(** ** Start, reset and theme *)

(** [StorageService.load()]: the stored document, parsed, or [null] when
    nothing is stored.  The store of the model holds documents, so the
    [catch] branch (a stored text that does not parse) has no counterpart
    here. *)
Definition StorageService_load : M hval :=
  fun w =>
    match storage w with
    | None => (Ok HNull, w)
    | Some j => let '(v, h') := JSON_parse j (heap_of w) in (Ok v, set_heap h' w)
    end.

(** [UI.renderAll()].  It calls [UI.renderToolbar], which only writes to
    the page, and then [UI.renderTabs], a property that the object [UI]
    does not have: calling it raises a TypeError, whatever the state is,
    and nothing of the state has changed by then. *)
Definition UI_renderAll : M unit := throw TypeError.

(** [AppState.init()]; [UI.setTheme] only touches the page. *)
Definition AppState_init : M unit :=
  existing <- StorageService_load ;;
  st <- match existing with HNull => AppState_initial | _ => ret existing end ;;
  set_AppState_state st ;;
  (if negb (truthy (Some existing)) then StorageService_save st else ret tt) ;;
  UI_renderAll.

(** The handler of the button that clears all data, once confirmed. *)
Definition clear_all : M unit :=
  next <- AppState_initial ;;
  set_AppState_state next ;;
  save_state ;;
  UI_renderAll.

(** [AppState.setTheme(theme)], up to [UI.setTheme]. *)
Definition AppState_setTheme (theme : hval) : M unit :=
  state_set "theme" theme ;;
  save_state.


Definition doc_truthy (j : value) : bool :=
  match j with
  | VNull => false
  | VBool b => b
  | VNum n => negb (n =? 0)%Z
  | VStr s => negb (bool_decide (s = ""))
  | VArr _ | VObj _ => true
  end.

Lemma good_state_doc n0 hf nm j :
  n0 + 4 < length hf ->
  hf !! (n0 + 4) = Some (CObj nm) ->
  (forall key, option_Forall2 (good n0 hf) (nm !! key) (j !! key)) ->
  JSON_stringify hf (HRef (n0 + 4)) = Some (VObj j).
Proof.
  intros Hlen Hcell Hinv. unfold JSON_stringify.
  assert (length hf = S (length hf - 1)) as -> by lia.
  rewrite view_ref, Hcell.
  assert (map_mapM (view (length hf - 1) hf) nm = Some j) as ->; [|done].
  apply map_mapM_Some. intros key. specialize (Hinv key).
  inversion Hinv as [v jv [Hn Hg] Hv Hj|]; constructor.
  destruct (Hg hf) as [Hview _]; [done|].
  eapply view_mono; [exact Hview|lia].
Qed.

Lemma initial_state_doc h :
  JSON_stringify (h ++ init_cells (length h)) (HRef (length h + 4)) =
  Some (VObj initial_doc).
Proof.
  apply (good_state_doc (length h) _ (init_map (length h))).
  - rewrite length_app. simpl. lia.
  - rewrite lookup_app_r by lia.
    by replace (length h + 4 - length h) with 4 by lia.
  - intros key. apply init_good.
Qed.

Lemma StorageService_load_run w j :
  storage w = Some j ->
  exists v new,
    StorageService_load w = (Ok v, set_heap (heap_of w ++ new) w) /\
    JSON_stringify (heap_of w ++ new) v = Some j /\
    truthy (Some v) = doc_truthy j /\
    (v = HNull <-> j = VNull).
Proof.
  intros Hs. unfold StorageService_load. rewrite Hs.
  destruct (JSON_parse j (heap_of w)) as [v h'] eqn:Hp.
  destruct (JSON_parse_spec _ _ _ _ Hp) as [[new [-> Hnew]] Hv].
  destruct (Hv (heap_of w ++ new)) as [Hview _]; [apply agree_on_refl|].
  exists v, new. split_and!; [done| | |].
  - unfold JSON_stringify. eapply view_mono; [exact Hview|].
    rewrite length_app. lia.
  - destruct j; try (by injection Hp as <- _).
    + rewrite JSON_parse_VArr in Hp.
      destruct (alloc_list _ _ _). by injection Hp as <- _.
    + rewrite JSON_parse_VObj in Hp.
      destruct (alloc_fields _ _ _). by injection Hp as <- _.
  - destruct j; try (by injection Hp as <- _).
    + rewrite JSON_parse_VArr in Hp.
      destruct (alloc_list _ _ _). by injection Hp as <- _.
    + rewrite JSON_parse_VObj in Hp.
      destruct (alloc_fields _ _ _). by injection Hp as <- _.
Qed.


Lemma initial_shape h s sv :
  shape (mkWorld (h ++ init_cells (length h)) (HRef (length h + 4)) s sv)
        (length h + 4) (init_map (length h))
        (fun k => match k with
                  | Students => length h | Teachers => length h + 1
                  | Classes => length h + 2 | Enrollments => length h + 3
                  end)
        (fun _ => []).
Proof.
  assert (forall i c, init_cells (length h) !! i = Some c ->
            (h ++ init_cells (length h)) !! (length h + i) = Some c) as Hcell.
  { intros i c Hi. rewrite lookup_app_r by lia.
    by replace (length h + i - length h) with i by lia. }
  split; cbn [heap_of app_state].
  - done.
  - by apply Hcell.
  - by intros [].
  - intros []; [|by apply Hcell..].
    by rewrite lookup_app_r, Nat.sub_diag by lia.
  - intros [] []; (done || lia).
  - intros k r Hr. by apply elem_of_nil in Hr.
  - intros f v. unfold init_map. rewrite !lookup_insert, lookup_empty.
    repeat case_decide; subst; try done; intros [= <-];
      (by left) || (by right).
Qed.

(** X10. The handler that clears all data never returns normally: it
    ends with the TypeError of [UI.renderAll].  By then the data is
    cleared: the state is a new well-formed snapshot whose four collections
    are empty, built from new objects only, and it is saved once as the
    default document. *)
Theorem clear_all_resets (w : World) :
  exists w',
    clear_all w = (Throw TypeError, w') /\
    heap_of w' = heap_of w ++ init_cells (length (heap_of w)) /\
    well_formed w' = true /\
    (forall k, collection w' k = Some []) /\
    storage w' = Some (VObj initial_doc) /\
    saved w' = saved w ++ [VObj initial_doc].
Proof.
  pose proof (initial_shape (heap_of w) (Some (VObj initial_doc))
                (saved w ++ [VObj initial_doc])) as S.
  eexists. split.
  - unfold clear_all, bind at 1. rewrite AppState_initial_run.
    unfold bind, set_AppState_state, save_state, bind, AppState_state,
      StorageService_save.
    cbn [heap_of app_state storage saved set_heap].
    rewrite initial_state_doc. reflexivity.
  - split_and!; try done.
    + by eapply shape_well_formed.
    + intros k. by rewrite (collection_shape _ _ _ _ _ k S).
Qed.

(** ** The handlers of the restore and import inputs *)





(** X11. [AppState.setTheme] with a string, on a well-formed snapshot:
    the [theme] property of the snapshot becomes that string, in place;
    the four collections and the properties of their records are as
    before; the snapshot stays well-formed and is saved once. *)
Theorem AppState_setTheme_spec (w : World) (t : string) :
  well_formed w = true ->
  exists w' sm',
    AppState_setTheme (HStr t) w = (Ok tt, w') /\
    app_state w' = app_state w /\
    snapshot w' = Some sm' /\ sm' !! "theme" = Some (HStr t) /\
    well_formed w' = true /\
    (forall k, collection w' k = collection w k) /\
    (forall k xs x f, collection w k = Some xs -> x ∈ xs ->
       field (heap_of w') x f = field (heap_of w) x f) /\
    saved_once w w'.
Proof.
  intros (st & sm & al & el & S)%well_formed_shape.
  pose proof (shape_set_other _ _ _ _ _ "theme" (HStr t) S eq_refl eq_refl) as S1.
  destruct (save_state_shape _ _ _ _ _ S1) as (j & Hj & Hsave).
  cbn [heap_of app_state storage saved set_heap] in Hj, Hsave.
  set (w' := mkWorld (<[st := CObj (<["theme" := HStr t]> sm)]> (heap_of w))
                     (app_state w) (Some j) (saved w ++ [j])).
  assert (shape w' st (<["theme" := HStr t]> sm) al el) as S2
    by (eapply shape_ext; [| |exact S1]; done).
  exists w', (<["theme" := HStr t]> sm). split_and!.
  - unfold AppState_setTheme, bind at 1.
    by rewrite (state_set_shape _ _ _ _ _ "theme" (HStr t) S).
  - done.
  - by eapply snapshot_shape.
  - by rewrite lookup_insert_eq.
  - by eapply shape_well_formed.
  - intros k. by rewrite (collection_shape _ _ _ _ _ k S2),
      (collection_shape _ _ _ _ _ k S).
  - intros k xs x f Hxs Hx.
    rewrite (collection_shape _ _ _ _ _ k S) in Hxs. injection Hxs as <-.
    eapply shape_field_kept; [exact S| |exact Hx]. apply keeps_insert_state.
  - by exists j.
Qed.

Lemma AppState_setTheme_spec_witness :
  well_formed seeded = true /\
  exists w', AppState_setTheme (HStr "light") seeded = (Ok tt, w') /\
             well_formed w' = true.
Proof.
  assert (well_formed seeded = true) as Hwf by (vm_compute; reflexivity).
  split; [exact Hwf|].
  destruct (AppState_setTheme_spec seeded "light" Hwf)
    as (w' & sm' & Hrun & _ & _ & _ & Hwf' & _).
  exists w'. exact (conj Hrun Hwf').
Defined.

(** * Text: CSV, identifiers, HTML *)

(** A JavaScript string as the sequence of its characters.  The characters
    of the model are those with a code below 256. *)
Abbreviation text := (list ascii).

Definition code (c : ascii) : nat := nat_of_ascii c.

Definition between (lo hi : nat) (c : ascii) : bool :=
  Nat.leb lo (code c) && Nat.leb (code c) hi.

(** The character classes [A-Z], [a-z], [0-9], [a-zA-Z], [a-zA-Z0-9]. *)
Definition is_upper (c : ascii) : bool := between 65 90 c.
Definition is_lower (c : ascii) : bool := between 97 122 c.
Definition is_digit (c : ascii) : bool := between 48 57 c.
Definition is_alpha (c : ascii) : bool := is_upper c || is_lower c.
Definition is_alnum (c : ascii) : bool := is_alpha c || is_digit c.

Definition LF : ascii := "010"%char.
Definition CR : ascii := "013"%char.
Definition DQ : ascii := "034"%char.
Definition SP : ascii := " "%char.
Definition COMMA : ascii := ","%char.

(** White space, as [trim] sees it: tab, line feed, vertical tab, form
    feed, carriage return, space and no-break space. *)
Definition is_white (c : ascii) : bool :=
  between 9 13 c || Nat.eqb (code c) 32 || Nat.eqb (code c) 160.

(** What the dot of a regular expression does not match. *)
Definition is_line_terminator (c : ascii) : bool :=
  Ascii.eqb c LF || Ascii.eqb c CR.

(** [toLowerCase] of one character: the letters [A-Z] and the capital
    letters of Latin-1 (192 to 222, without the multiplication sign). *)
Definition toLowerCase_char (c : ascii) : ascii :=
  if is_upper c || (between 192 222 c && negb (Nat.eqb (code c) 215))
  then ascii_of_nat (code c + 32) else c.

(** [toUpperCase] of one character below 128 ([camel] applies it to
    letters and digits only). *)
Definition toUpperCase_char (c : ascii) : ascii :=
  if is_lower c then ascii_of_nat (code c - 32) else c.

Definition toLowerCase (s : text) : text := map toLowerCase_char s.

(** [s.trim()]. *)
Fixpoint trimStart (s : text) : text :=
  match s with
  | [] => []
  | c :: rest => if is_white c then trimStart rest else s
  end.

Fixpoint trimEnd (s : text) : text :=
  match s with
  | [] => []
  | c :: rest =>
      match trimEnd rest with
      | [] => if is_white c then [] else [c]
      | r => c :: r
      end
  end.

Definition trim (s : text) : text := trimEnd (trimStart s).

(** ** [camel] *)

(** [s.replace(/[^a-zA-Z0-9]+/g, ' ')], from a position that is
    ([in_run]) or is not inside a run of other characters. *)
Fixpoint squeeze (in_run : bool) (s : text) : text :=
  match s with
  | [] => []
  | c :: rest =>
      if is_alnum c then c :: squeeze false rest
      else if in_run then squeeze true rest
      else SP :: squeeze true rest
  end.

(** What follows the match of [^[^a-zA-Z]+]. *)
Fixpoint skip_lead (s : text) : text :=
  match s with
  | [] => []
  | c :: rest => if is_alpha c then s else skip_lead rest
  end.

(** [s.replace(/^[^a-zA-Z]+|[^a-zA-Z0-9]+/g, ' ')]: the first alternative
    matches at the start only, and wins there. *)
Definition separators (s : text) : text :=
  match s with
  | [] => []
  | c :: _ =>
      if is_alpha c then squeeze false s
      else SP :: squeeze false (skip_lead s)
  end.

(** [s.replace(/ (.)/g, (_,c) => c.toUpperCase())]. *)
Fixpoint capitalize (s : text) : text :=
  match s with
  | [] => []
  | a :: tl =>
      match tl with
      | c :: rest =>
          if Ascii.eqb a SP && negb (is_line_terminator c)
          then toUpperCase_char c :: capitalize rest
          else a :: capitalize tl
      | [] => [a]
      end
  end.

(** [s.replace(/^(.)/, (_,c) => c.toLowerCase())]. *)
Definition decapitalize (s : text) : text :=
  match s with
  | [] => []
  | c :: rest => if is_line_terminator c then s else toLowerCase_char c :: rest
  end.

Definition camel (s : text) : text :=
  decapitalize (capitalize (trim (separators s))).

(** An identifier in camel case: empty, or letters and digits after a
    small letter. *)
Definition is_camel (s : text) : bool :=
  match s with
  | [] => true
  | c :: rest => is_lower c && forallb is_alnum rest
  end.

(** ** Properties of [camel] *)

Local Ltac by_char c := destruct c as [[] [] [] [] [] [] [] []]; vm_compute; try done.

Lemma alnum_plain c :
  is_alnum c = true ->
  is_white c = false /\ is_line_terminator c = false /\ Ascii.eqb c SP = false.
Proof. by_char c; auto. Qed.

Lemma alpha_alnum c : is_alpha c = true -> is_alnum c = true.
Proof. by_char c. Qed.

Lemma lower_alnum c : is_lower c = true -> is_alnum c = true.
Proof. by_char c. Qed.

Lemma lower_alpha c : is_lower c = true -> is_alpha c = true.
Proof. by_char c. Qed.

Lemma toUpperCase_alnum c : is_alnum c = true -> is_alnum (toUpperCase_char c) = true.
Proof. by_char c. Qed.

Lemma toLowerCase_alpha c : is_alpha c = true -> is_lower (toLowerCase_char c) = true.
Proof. by_char c. Qed.

Lemma toLowerCase_lower c : is_lower c = true -> toLowerCase_char c = c.
Proof. by_char c. Qed.

(** Letters, digits and single spaces. *)
Fixpoint wordy (after_space : bool) (t : text) : bool :=
  match t with
  | [] => true
  | c :: r =>
      if is_alnum c then wordy false r
      else Ascii.eqb c SP && negb after_space && wordy true r
  end.

(** Letters and digits, and spaces each followed by a letter or digit. *)
Fixpoint camelable (t : text) : bool :=
  match t with
  | [] => true
  | c :: r =>
      if is_alnum c then camelable r
      else Ascii.eqb c SP &&
           match r with d :: _ => is_alnum d | [] => false end &&
           camelable r
  end.

Lemma camelable_cons c r :
  camelable (c :: r) =
  if is_alnum c then camelable r
  else Ascii.eqb c SP &&
       match r with d :: _ => is_alnum d | [] => false end &&
       camelable r.
Proof. reflexivity. Qed.

Lemma squeeze_wordy s b : wordy b (squeeze b s) = true.
Proof.
  revert b. induction s as [|c s IH]; intros b; [done|].
  cbn [squeeze]. destruct (is_alnum c) eqn:Hc.
  - cbn [wordy]. by rewrite Hc.
  - destruct b; [done|]. cbn [wordy].
    assert (is_alnum SP = false) as -> by done. by rewrite IH.
Qed.

Lemma trimEnd_head t :
  trimEnd t = [] \/ head (trimEnd t) = head t.
Proof.
  destruct t as [|c r]; [by left|]. cbn [trimEnd].
  destruct (trimEnd r); [destruct (is_white c)|]; auto.
Qed.

Lemma trimEnd_alnum_head c r : is_alnum c = true -> exists r', trimEnd (c :: r) = c :: r'.
Proof.
  intros Hc. cbn [trimEnd]. destruct (trimEnd r).
  - destruct (alnum_plain c Hc) as [-> _]. eauto.
  - eauto.
Qed.

Lemma wordy_camelable t b : wordy b t = true -> camelable (trimEnd t) = true.
Proof.
  revert b. induction t as [|c r IH]; intros b; [done|].
  cbn [wordy]. destruct (is_alnum c) eqn:Hc.
  - intros Hr. specialize (IH _ Hr). cbn [trimEnd].
    destruct (trimEnd r) as [|d r'] eqn:Hr'.
    + destruct (alnum_plain c Hc) as [-> _]. cbn [camelable]. by rewrite Hc.
    + rewrite camelable_cons, Hc. exact IH.
  - intros [[Hsp _]%andb_prop Hr]%andb_prop. specialize (IH _ Hr).
    cbn [trimEnd]. destruct (trimEnd r) as [|d r'] eqn:Hr'.
    + apply Ascii.eqb_eq in Hsp as ->. done.
    + rewrite camelable_cons, Hc, Hsp, IH.
      destruct r as [|e r0]; [done|].
      cbn [wordy] in Hr. destruct (is_alnum e) eqn:He.
      * destruct (trimEnd_alnum_head e r0 He) as [r1 Hr1].
        rewrite Hr1 in Hr'. injection Hr' as <- _. by rewrite He.
      * by rewrite andb_false_r in Hr.
Qed.

Lemma capitalize_cons2 a c rest :
  capitalize (a :: c :: rest) =
  if Ascii.eqb a SP && negb (is_line_terminator c)
  then toUpperCase_char c :: capitalize rest
  else a :: capitalize (c :: rest).
Proof. reflexivity. Qed.

Lemma camelable_capitalize n t :
  length t <= n -> camelable t = true ->
  forallb is_alnum (capitalize t) = true /\
  forall c r, t = c :: r -> is_alnum c = true ->
    exists r', capitalize t = c :: r'.
Proof.
  revert t. induction n as [|n IH]; intros t Hn Ht.
  { destruct t; [done|simpl in Hn; lia]. }
  destruct t as [|a [|c rest]]; [done| |].
  - rewrite camelable_cons in Ht. destruct (is_alnum a) eqn:Ha.
    + split; [by cbn; rewrite Ha|]. intros ? ? [= <- <-] _. by eexists.
    + by rewrite andb_false_r in Ht.
  - rewrite capitalize_cons2. rewrite camelable_cons in Ht.
    destruct (is_alnum a) eqn:Ha.
    + destruct (alnum_plain a Ha) as (_ & _ & ->). cbn [andb].
      destruct (IH (c :: rest)) as [IH1 _]; [simpl in *; lia|done|].
      split; [by cbn [forallb]; rewrite Ha, IH1|].
      intros ? ? [= <- <-] _. by eexists.
    + apply andb_prop in Ht as [[Hsp Hc]%andb_prop Ht].
      rewrite Hsp. destruct (alnum_plain c Hc) as (_ & -> & _). cbn [andb negb].
      rewrite camelable_cons, Hc in Ht.
      destruct (IH rest) as [IH1 _]; [simpl in *; lia|done|].
      split; [by cbn [forallb]; rewrite toUpperCase_alnum, IH1|].
      intros ? ? [= <- <-] Ha'. congruence.
Qed.

Lemma skip_lead_head s :
  skip_lead s = [] \/ exists c r, skip_lead s = c :: r /\ is_alpha c = true.
Proof.
  induction s as [|c s IH]; [by left|]. cbn [skip_lead].
  destruct (is_alpha c) eqn:Hc; [right; eauto|exact IH].
Qed.

Lemma trimStart_separators s :
  trimStart (separators s) = squeeze false (skip_lead s).
Proof.
  destruct s as [|c s]; [done|]. unfold separators.
  destruct (is_alpha c) eqn:Hc.
  - cbn [skip_lead]. rewrite Hc. cbn [squeeze].
    rewrite (alpha_alnum c Hc). cbn [trimStart].
    by destruct (alnum_plain c (alpha_alnum c Hc)) as [-> _].
  - cbn [trimStart]. assert (is_white SP = true) as -> by done.
    cbn [skip_lead]. rewrite Hc.
    destruct (skip_lead_head s) as [->|(d & r & -> & Hd)]; [done|].
    cbn [squeeze]. rewrite (alpha_alnum d Hd). cbn [trimStart].
    by destruct (alnum_plain d (alpha_alnum d Hd)) as [-> _].
Qed.

Lemma camel_is_camel s : is_camel (camel s) = true.
Proof.
  unfold camel, trim. rewrite trimStart_separators.
  pose proof (squeeze_wordy (skip_lead s) false) as Hw.
  pose proof (wordy_camelable _ _ Hw) as Hc.
  destruct (skip_lead_head s) as [E'|(d & r & E' & Hd)].
  { by rewrite E'. }
  rewrite E' in Hc |- *. cbn [squeeze] in Hc |- *.
  rewrite (alpha_alnum d Hd) in Hc |- *.
  destruct (trimEnd_alnum_head d (squeeze false r) (alpha_alnum d Hd)) as [r' Hr'].
  rewrite Hr' in Hc |- *.
  destruct (camelable_capitalize _ _ (le_n _) Hc) as [Hall Hhead].
  destruct (Hhead d r' eq_refl (alpha_alnum d Hd)) as [r'' Hr''].
  rewrite Hr'' in Hall |- *. cbn [forallb] in Hall.
  apply andb_prop in Hall as [_ Hall].
  cbn [decapitalize].
  destruct (alnum_plain d (alpha_alnum d Hd)) as (_ & -> & _).
  cbn [is_camel]. by rewrite toLowerCase_alpha, Hall.
Qed.

Lemma squeeze_alnum s : forallb is_alnum s = true -> squeeze false s = s.
Proof.
  induction s as [|c s IH]; [done|]. cbn [forallb squeeze].
  intros [-> Hs]%andb_prop. by rewrite IH.
Qed.

Lemma trimEnd_alnum s : forallb is_alnum s = true -> trimEnd s = s.
Proof.
  induction s as [|c s IH]; [done|]. cbn [forallb trimEnd].
  intros [Hc Hs]%andb_prop. rewrite (IH Hs).
  destruct s; [|done]. by destruct (alnum_plain c Hc) as [-> _].
Qed.

Lemma capitalize_alnum s : forallb is_alnum s = true -> capitalize s = s.
Proof.
  induction s as [|a tl IH]; [done|]. cbn [forallb].
  intros [Ha Hs]%andb_prop. cbn [capitalize]. destruct tl as [|c rest]; [done|].
  destruct (alnum_plain a Ha) as (_ & _ & ->). cbn [andb]. by rewrite (IH Hs).
Qed.

Lemma is_camel_fixed s : is_camel s = true -> camel s = s.
Proof.
  destruct s as [|c r]; [done|]. cbn [is_camel].
  intros [Hc Hr]%andb_prop.
  assert (forallb is_alnum (c :: r) = true) as Hall
    by (by cbn [forallb]; rewrite (lower_alnum c Hc), Hr).
  unfold camel, trim, separators. rewrite (lower_alpha c Hc).
  rewrite (squeeze_alnum _ Hall). cbn [trimStart].
  destruct (alnum_plain c (lower_alnum c Hc)) as (-> & Hlt & _).
  rewrite (trimEnd_alnum _ Hall), (capitalize_alnum _ Hall).
  cbn [decapitalize]. by rewrite Hlt, (toLowerCase_lower c Hc).
Qed.

(** X12. The header normalisation [camel] always yields an identifier in
    camel case: the empty string, or a small letter followed by letters
    and digits only.  Such identifiers are its fixed points, so [camel] is
    idempotent. *)
Theorem camel_normal_form (s : text) :
  is_camel (camel s) = true /\
  camel (camel s) = camel s /\
  (is_camel s = true -> camel s = s).
Proof.
  split_and!.
  - apply camel_is_camel.
  - apply is_camel_fixed, camel_is_camel.
  - apply is_camel_fixed.
Qed.

(** A string of the program, as text and back. *)
Definition chars (s : string) : text :=
  Stdlib.Strings.String.list_ascii_of_string s.
Definition of_chars (t : text) : string :=
  Stdlib.Strings.String.string_of_list_ascii t.

(** ** Numbers as text *)

(** The double nearest to a natural number: the number itself below 2^53;
    above, the nearest multiple of the power of two that leaves 53 bits,
    the even one of two that are equally near. *)
Definition round_to_double (a : Z) : Z :=
  if (a <? 2 ^ 53)%Z then a
  else
    let e := (Z.log2 a - 52)%Z in
    let q := (a / 2 ^ e)%Z in
    let r := (a mod 2 ^ e)%Z in
    let half := (2 ^ (e - 1))%Z in
    if (half <? r)%Z || ((r =? half)%Z && Z.odd q)
    then ((q + 1) * 2 ^ e)%Z
    else (q * 2 ^ e)%Z.

(** The number that [Number::toString] prints for the double [a] of [n]
    digits: the one with the fewest significant digits among those the
    double nearest to is [a], and of these the one nearest to [a] (the even
    one of two).  With [k] significant digits the candidates are the two
    multiples of [10^(n-k)] around [a]; [k] goes up from one. *)
Fixpoint shortest (a : Z) (n k fuel : nat) : Z :=
  match fuel with
  | O => a
  | S fuel' =>
      let u := (10 ^ Z.of_nat (n - k))%Z in
      let lo := (a / u * u)%Z in
      let hi := (lo + u)%Z in
      let ok_lo := (round_to_double lo =? a)%Z in
      let ok_hi := (round_to_double hi =? a)%Z in
      if ok_lo && ok_hi then
        if (a - lo <? hi - a)%Z then lo
        else if (hi - a <? a - lo)%Z then hi
        else if Z.even (lo / u) then lo else hi
      else if ok_lo then lo
      else if ok_hi then hi
      else shortest a n (S k) fuel'
  end.

Definition digits (a : Z) : text := chars (pretty (Z.to_N a)).

Fixpoint drop_zeros (ds : text) : text :=
  match ds with
  | c :: r => if Ascii.eqb c "0"%char then drop_zeros r else ds
  | [] => []
  end.

(** The digits [ds] of a number of more than 21 digits in exponent
    notation: the significant digits, a point after the first if there
    are more, and the exponent. *)
Definition exponential (ds : text) : text :=
  let exponent := chars "e+" ++ chars (pretty (length ds - 1)) in
  match reverse (drop_zeros (reverse ds)) with
  | [] => ds
  | [d] => d :: exponent
  | d :: more => d :: "."%char :: more ++ exponent
  end.

(** [String(z)] for a number: [Number::toString].  A number of the model
    stands for the double nearest to it. *)
Definition Number_toString (z : Z) : text :=
  let a := round_to_double (Z.abs z) in
  let n := length (digits a) in
  let ds := digits (shortest a n 1 n) in
  (if (z <? 0)%Z then ["-"%char] else []) ++
  (if (2 ^ 1024 <=? a)%Z then chars "Infinity"
   else if (length ds <=? 21)%nat then ds
   else exponential ds).

(** The text of some numbers beyond the integers that a double holds
    exactly, and beyond the 21 digits that are printed in full. *)
Lemma Number_toString_examples :
  Number_toString (2 ^ 60) = chars "1152921504606847000" /\
  Number_toString (- 2 ^ 64) = chars "-18446744073709552000" /\
  Number_toString 123456789012345680000 = chars "123456789012345680000" /\
  Number_toString (10 ^ 21) = chars "1e+21" /\
  Number_toString (2 ^ 70) = chars "1.1805916207174113e+21" /\
  Number_toString 9007199254740991 = chars "9007199254740991".
Proof. vm_compute. repeat split. Qed.

(** ** Members inherited from [Object.prototype] *)

(** The properties every object inherits from [Object.prototype]; each
    holds a function, or for [__proto__] the prototype object. *)
Definition Object_prototype_names : list string :=
  ["constructor"; "hasOwnProperty"; "isPrototypeOf"; "propertyIsEnumerable";
   "toLocaleString"; "toString"; "valueOf"; "__proto__";
   "__defineGetter__"; "__defineSetter__"; "__lookupGetter__";
   "__lookupSetter__"].

(** What the engine that runs the program decides: the text [String(f)]
    of the built-in function [f] that [Object.prototype] holds under a
    name.  The language leaves the text to the engine, up to its form. *)
Class Engine : Type := { native_code : string -> text }.

(** [String(o[k])] for a plain object [o] and a name [k] of
    [Object_prototype_names] that [o] has no property of its own for:
    [o.__proto__] is the prototype object, every other name holds a
    function. *)
Definition inherited_text {engine : Engine} (k : string) : text :=
  if decide (k = "__proto__") then chars "[object Object]" else native_code k.

(** The text the V8 engine prints. *)
Definition V8 : Engine :=
  {| native_code k :=
       chars "function " ++
       chars (if decide (k = "constructor") then "Object" else k) ++
       chars "() { [native code] }" |}.

(** ** CSV *)

Definition cons_head (c : ascii) (ls : list text) : list text :=
  match ls with
  | l :: ls' => (c :: l) :: ls'
  | [] => [[c]]
  end.

(** [s.split(',')]. *)
Fixpoint split_comma (s : text) : list text :=
  match s with
  | [] => [[]]
  | c :: rest =>
      if Ascii.eqb c COMMA then [] :: split_comma rest
      else cons_head c (split_comma rest)
  end.

(** [s.split(/\r?\n/)]. *)
Fixpoint split_lines (s : text) : list text :=
  match s with
  | [] => [[]]
  | c :: rest =>
      if Ascii.eqb c LF then [] :: split_lines rest
      else
        match rest with
        | d :: rest' =>
            if Ascii.eqb c CR && Ascii.eqb d LF then [] :: split_lines rest'
            else cons_head c (split_lines rest)
        | [] => [[c]]
        end
  end.

(** The loop of [parseCSV] over the characters of a line, from [line[i]]
    on, with the variables [current] and [inQuotes]; the result is [cells]
    from the first cell the loop pushes. *)
Fixpoint cells_from (line : text) (current : text) (inQuotes : bool)
  : list text :=
  match line with
  | [] => [current]
  | ch :: rest =>
      if Ascii.eqb ch DQ then
        match rest with
        | d :: rest' =>
            if inQuotes && Ascii.eqb d DQ
            then cells_from rest' (current ++ [DQ]) inQuotes
            else cells_from rest current (negb inQuotes)
        | [] => cells_from rest current (negb inQuotes)
        end
      else if Ascii.eqb ch COMMA && negb inQuotes
      then current :: cells_from rest [] inQuotes
      else cells_from rest (current ++ [ch]) inQuotes
  end.

(** [headers.forEach((h, idx) => obj[camel(h)] = cells[idx]?.trim() ?? '')],
    from index [idx] on. *)
Fixpoint fill (headers : list text) (idx : nat) (cells : list text)
    (obj : gmap string string) : gmap string string :=
  match headers with
  | [] => obj
  | h :: hs =>
      fill hs (S idx) cells
           (<[of_chars (camel h) :=
                of_chars (match cells !! idx with
                          | Some c => trim c
                          | None => []
                          end)]> obj)
  end.

(** [parseCSV]: the records of a CSV text, each an object whose properties
    hold strings.  [lines_of] is its [lines], [headers_of] its [headers]. *)
Definition lines_of (csvText : string) : list text :=
  filter (fun l => l <> []) (split_lines (chars csvText)).

Definition headers_of (first : text) : list text := trim <$> split_comma first.

Definition parseCSV (csvText : string) : list (gmap string string) :=
  match lines_of csvText with
  | [] => []
  | first :: others =>
      (fun line => fill (headers_of first) 0 (cells_from line [] false) ∅)
        <$> others
  end.

(** The [replace] of [esc]: every double quote is doubled. *)
Fixpoint double_quotes (s : text) : text :=
  match s with
  | [] => []
  | c :: rest =>
      if Ascii.eqb c DQ then DQ :: DQ :: double_quotes rest
      else c :: double_quotes rest
  end.

(** [esc] of [toCSV], on a string. *)
Definition esc (s : text) : text :=
  if existsb (fun c => Ascii.eqb c DQ || Ascii.eqb c COMMA || Ascii.eqb c LF) s
  then DQ :: double_quotes s ++ [DQ]
  else s.

(** [parts.join(sep)]. *)
Fixpoint join (sep : text) (parts : list text) : text :=
  match parts with
  | [] => []
  | [x] => x
  | x :: rest => x ++ sep ++ join sep rest
  end.

(** A column of [toCSV]: [{ key, label }]. *)
Record header : Type := mkHeader { key : string; label : string }.

(** [String(r[h.key] ?? '')], for a row that is a plain object whose
    properties hold strings, as the records of the application are: the
    property of the row, else the member [Object.prototype] has under that
    name, else the empty string. *)
Definition cell_of {engine : Engine} (r : gmap string string) (h : header)
  : string :=
  match r !! key h with
  | Some v => v
  | None =>
      if bool_decide (key h ∈ Object_prototype_names)
      then of_chars (inherited_text (key h))
      else ""
  end.

(** [toCSV], for such rows. *)
Definition toCSV {engine : Engine} (rows : list (gmap string string))
    (headers : list header) : string :=
  let head := join [COMMA] ((fun h => esc (chars (label h))) <$> headers) in
  let body :=
    join [LF] ((fun r =>
      join [COMMA] ((fun h => esc (chars (cell_of r h))) <$> headers)) <$> rows) in
  of_chars (head ++ [LF] ++ body).

(** ** Properties of the CSV functions *)

Lemma chars_of_chars t : chars (of_chars t) = t.
Proof. apply Stdlib.Strings.String.list_ascii_of_string_of_list_ascii. Qed.

Lemma of_chars_chars s : of_chars (chars s) = s.
Proof. apply Stdlib.Strings.String.string_of_list_ascii_of_string. Qed.

Lemma cells_from_plain v cur tail :
  Forall (fun c => Ascii.eqb c DQ = false /\ Ascii.eqb c COMMA = false) v ->
  cells_from (v ++ tail) cur false = cells_from tail (cur ++ v) false.
Proof.
  intros Hv. revert cur. induction Hv as [|c v [Hq Hc] _ IH]; intros cur.
  - by rewrite app_nil_r.
  - cbn [app cells_from]. rewrite Hq, Hc. cbn [andb].
    rewrite IH. by rewrite <- app_assoc.
Qed.

Lemma cells_from_quoted v cur tail :
  match tail with d :: _ => Ascii.eqb d DQ = false | [] => True end ->
  cells_from (double_quotes v ++ DQ :: tail) cur true =
  cells_from tail (cur ++ v) false.
Proof.
  intros Htail. revert cur. induction v as [|c v IH]; intros cur.
  - rewrite app_nil_r. cbn [double_quotes app cells_from].
    assert (Ascii.eqb DQ DQ = true) as -> by done.
    destruct tail as [|d rest]; [done|]. by rewrite Htail.
  - cbn [double_quotes]. destruct (Ascii.eqb c DQ) eqn:Hc.
    + apply Ascii.eqb_eq in Hc as ->. cbn [app cells_from].
      assert (Ascii.eqb DQ DQ = true) as -> by done. cbn [andb].
      rewrite IH. by rewrite <- app_assoc.
    + cbn [app cells_from]. rewrite Hc, andb_false_r.
      rewrite IH. by rewrite <- app_assoc.
Qed.

Lemma cells_from_esc v cur tail :
  match tail with d :: _ => Ascii.eqb d DQ = false | [] => True end ->
  cells_from (esc v ++ tail) cur false = cells_from tail (cur ++ v) false.
Proof.
  intros Htail. unfold esc.
  destruct (existsb _ v) eqn:Hq.
  - cbn [app cells_from]. assert (Ascii.eqb DQ DQ = true) as -> by done.
    rewrite <- app_assoc. cbn [app andb negb].
    rewrite <- (cells_from_quoted v cur tail Htail).
    by destruct (double_quotes v ++ DQ :: tail).
  - apply cells_from_plain. apply Forall_forall. intros c Hc.
    assert (Ascii.eqb c DQ || Ascii.eqb c COMMA || Ascii.eqb c LF = false) as H.
    { destruct (Ascii.eqb c DQ || Ascii.eqb c COMMA || Ascii.eqb c LF) eqn:E; [|done].
      rewrite <- Hq. symmetry. apply existsb_exists. exists c.
      split; [by apply list_elem_of_In|done]. }
    apply orb_false_elim in H as [H _]. by apply orb_false_elim in H.
Qed.

Lemma join_cons sep x y rest :
  join sep (x :: y :: rest) = x ++ sep ++ join sep (y :: rest).
Proof. reflexivity. Qed.

Lemma cells_from_join v vs cur :
  cells_from (join [COMMA] (esc <$> v :: vs)) cur false = (cur ++ v) :: vs.
Proof.
  revert v cur. induction vs as [|v' vs IH]; intros v cur.
  - cbn [fmap list_fmap join].
    rewrite <- (app_nil_r (esc v)), cells_from_esc by done. done.
  - rewrite fmap_cons, fmap_cons, join_cons, cells_from_esc by done.
    cbn [app cells_from]. rewrite <- fmap_cons, IH. done.
Qed.

(** X13. The cell scanner of [parseCSV] inverts the quoting of [toCSV] on
    a line: for every non-empty list of cell strings, whatever characters
    they hold (commas, double quotes, even line breaks), scanning the cells
    escaped by [esc] and joined by commas gives the cells back; started
    in the middle of a cell, outside quotes, it completes that cell
    first. *)
Theorem cells_from_esc_join (v : text) (vs : list text) (current : text) :
  cells_from (join [COMMA] (esc <$> v :: vs)) current false =
  (current ++ v) :: vs.
Proof.
  revert v current. induction vs as [|v' vs IH]; intros v current.
  - cbn [fmap list_fmap join].
    rewrite <- (app_nil_r (esc v)). by rewrite cells_from_esc.
  - rewrite !fmap_cons, join_cons, cells_from_esc by done.
    cbn [app cells_from]. by rewrite <- fmap_cons, IH.
Qed.

Lemma split_comma_app l tail :
  Forall (fun c => Ascii.eqb c COMMA = false) l ->
  split_comma (l ++ COMMA :: tail) = l :: split_comma tail.
Proof.
  induction 1 as [|c l Hc _ IH].
  - cbn [app split_comma]. by assert (Ascii.eqb COMMA COMMA = true) as -> by done.
  - cbn [app split_comma]. by rewrite Hc, IH.
Qed.

Lemma split_comma_plain l :
  Forall (fun c => Ascii.eqb c COMMA = false) l -> split_comma l = [l].
Proof.
  induction 1 as [|c l Hc _ IH]; [done|].
  cbn [split_comma]. by rewrite Hc, IH.
Qed.

Lemma split_comma_join l ls :
  Forall (Forall (fun c => Ascii.eqb c COMMA = false)) (l :: ls) ->
  split_comma (join [COMMA] (l :: ls)) = l :: ls.
Proof.
  revert l. induction ls as [|l' ls IH]; intros l Hall.
  - apply split_comma_plain. by inversion Hall.
  - rewrite join_cons. cbn [app]. inversion Hall as [|? ? Hl Hrest]; subst.
    by rewrite split_comma_app, IH.
Qed.

(** No line break. *)
Definition one_line (s : text) : bool :=
  forallb (fun c => negb (Ascii.eqb c LF || Ascii.eqb c CR)) s.

Lemma split_lines_app l tail :
  one_line l = true -> split_lines (l ++ LF :: tail) = l :: split_lines tail.
Proof.
  induction l as [|c l IH].
  - intros _. cbn [app split_lines].
    by assert (Ascii.eqb LF LF = true) as -> by done.
  - cbn [one_line forallb]. intros [Hc Hl]%andb_prop.
    apply negb_true_iff, orb_false_elim in Hc as [Hlf Hcr].
    cbn [app split_lines]. rewrite Hlf, Hcr. cbn [andb].
    rewrite (IH Hl). by destruct (l ++ LF :: tail) eqn:E; [destruct l|].
Qed.

Lemma split_lines_plain l : one_line l = true -> split_lines l = [l].
Proof.
  induction l as [|c l IH]; [done|].
  cbn [one_line forallb]. intros [Hc Hl]%andb_prop.
  apply negb_true_iff, orb_false_elim in Hc as [Hlf Hcr].
  cbn [split_lines]. rewrite Hlf, Hcr. cbn [andb].
  rewrite (IH Hl). by destruct l.
Qed.

Lemma split_lines_join l ls :
  Forall (fun x => one_line x = true) (l :: ls) ->
  split_lines (join [LF] (l :: ls)) = l :: ls.
Proof.
  revert l. induction ls as [|l' ls IH]; intros l Hall.
  - apply split_lines_plain. by inversion Hall.
  - rewrite join_cons. cbn [app]. inversion Hall as [|? ? Hl Hrest]; subst.
    by rewrite split_lines_app, IH.
Qed.

Lemma one_line_app a b : one_line (a ++ b) = one_line a && one_line b.
Proof. apply forallb_app. Qed.

Lemma one_line_cons c s :
  one_line (c :: s) = negb (Ascii.eqb c LF || Ascii.eqb c CR) && one_line s.
Proof. reflexivity. Qed.

Lemma one_line_double_quotes v : one_line (double_quotes v) = one_line v.
Proof.
  induction v as [|c v IH]; [done|]. cbn [double_quotes].
  destruct (Ascii.eqb c DQ) eqn:Hc.
  - apply Ascii.eqb_eq in Hc as ->. by rewrite !one_line_cons, IH.
  - by rewrite !one_line_cons, IH.
Qed.

Lemma one_line_esc v : one_line v = true -> one_line (esc v) = true.
Proof.
  intros Hv. unfold esc. destruct (existsb _ v); [|done].
  change (DQ :: double_quotes v ++ [DQ]) with ([DQ] ++ double_quotes v ++ [DQ]).
  by rewrite !one_line_app, one_line_double_quotes, Hv.
Qed.

Lemma one_line_join ls :
  Forall (fun x => one_line x = true) ls -> one_line (join [COMMA] ls) = true.
Proof.
  induction 1 as [|l ls Hl Hls IH]; [done|].
  destruct ls as [|l' ls]; [done|].
  by rewrite join_cons, !one_line_app, Hl, IH.
Qed.

Lemma esc_nonempty v : v <> [] -> esc v <> [].
Proof. unfold esc. by destruct (existsb _ v). Qed.

Lemma join_nonempty sep l ls : l <> [] -> join sep (l :: ls) <> [].
Proof. destruct ls; [done|]. rewrite join_cons. by destruct l. Qed.

Lemma join_two_nonempty sep l l' ls : sep <> [] -> join sep (l :: l' :: ls) <> [].
Proof. rewrite join_cons. intros Hsep. destruct l; [by destruct sep|done]. Qed.

(** The keys of a list of header texts. *)
Lemma fill_lookup_other hs idx cells obj k :
  k ∉ (fun h => of_chars (camel h)) <$> hs ->
  fill hs idx cells obj !! k = obj !! k.
Proof.
  revert idx obj. induction hs as [|h hs IH]; intros idx obj Hk; [done|].
  cbn [fill]. rewrite fmap_cons, not_elem_of_cons in Hk. destruct Hk as [Hne Hk].
  rewrite IH by done. by rewrite lookup_insert_ne.
Qed.

Lemma fill_lookup hs idx cells obj i h :
  NoDup ((fun h => of_chars (camel h)) <$> hs) ->
  hs !! i = Some h ->
  fill hs idx cells obj !! of_chars (camel h) =
  Some (of_chars (match cells !! (idx + i) with Some c => trim c | None => [] end)).
Proof.
  revert idx obj i. induction hs as [|h' hs IH]; intros idx obj i Hnd Hi; [done|].
  rewrite fmap_cons in Hnd. apply NoDup_cons in Hnd as [Hnotin Hnd].
  cbn [fill]. destruct i as [|i].
  - injection Hi as ->. rewrite fill_lookup_other by done.
    by rewrite lookup_insert_eq, Nat.add_0_r.
  - rewrite (IH (S idx) _ i Hnd Hi). by replace (S idx + i) with (idx + S i) by lia.
Qed.

Lemma fill_dom hs idx cells obj k :
  is_Some (fill hs idx cells obj !! k) <->
  k ∈ (fun h => of_chars (camel h)) <$> hs \/ is_Some (obj !! k).
Proof.
  revert idx obj. induction hs as [|h hs IH]; intros idx obj.
  - cbn [fill]. rewrite fmap_nil, elem_of_nil. tauto.
  - cbn [fill]. rewrite IH, fmap_cons, elem_of_cons.
    destruct (decide (of_chars (camel h) = k)) as [<-|Hne].
    + rewrite lookup_insert_eq. split; [auto|]. intros _. right. by eexists.
    + rewrite lookup_insert_ne by done. split; [tauto|].
      intros [[E|H]|H]; [congruence|tauto|tauto].
Qed.

(** A row cut down to the columns. *)
Definition columns {engine : Engine} (headers : list header)
    (r : gmap string string) : gmap string string :=
  list_to_map ((fun h => (key h, cell_of r h)) <$> headers).

(** A column label that [parseCSV] reads back as the column's key: not
    empty, without double quote, comma or line break, and normalised to
    the key by [camel]. *)
Definition label_ok (h : header) : bool :=
  negb (bool_decide (chars (label h) = [])) &&
  forallb (fun c => negb (Ascii.eqb c DQ || Ascii.eqb c COMMA || Ascii.eqb c LF)
                    && negb (Ascii.eqb c LF || Ascii.eqb c CR))
          (chars (label h)) &&
  bool_decide (of_chars (camel (trim (chars (label h)))) = key h).

(** A cell without line break and without white space around it. *)
Definition cell_ok (v : text) : bool :=
  one_line v && bool_decide (trim v = v).

Lemma esc_plain l :
  forallb (fun c => negb (Ascii.eqb c DQ || Ascii.eqb c COMMA || Ascii.eqb c LF)) l
    = true ->
  esc l = l.
Proof.
  intros Hl. unfold esc.
  assert (existsb (fun c => Ascii.eqb c DQ || Ascii.eqb c COMMA || Ascii.eqb c LF) l
          = false) as ->; [|done].
  induction l as [|c l IH]; [done|]. cbn [forallb existsb] in *.
  apply andb_prop in Hl as [Hc Hl]. apply negb_true_iff in Hc.
  by rewrite Hc, IH.
Qed.

Lemma label_ok_inv h :
  label_ok h = true ->
  chars (label h) <> [] /\ esc (chars (label h)) = chars (label h) /\
  one_line (chars (label h)) = true /\
  Forall (fun c => Ascii.eqb c COMMA = false) (chars (label h)) /\
  of_chars (camel (trim (chars (label h)))) = key h.
Proof.
  unfold label_ok. intros [[Hne Hall]%andb_prop Hkey]%andb_prop.
  apply negb_true_iff, bool_decide_eq_false in Hne.
  apply bool_decide_eq_true in Hkey.
  rewrite forallb_forall in Hall.
  split_and!; [done| | | |done].
  - apply esc_plain, forallb_forall. intros c Hc.
    by destruct (andb_prop _ _ (Hall c Hc)).
  - apply forallb_forall. intros c Hc.
    by destruct (andb_prop _ _ (Hall c Hc)).
  - apply Forall_forall. intros c Hc%list_elem_of_In.
    destruct (andb_prop _ _ (Hall c Hc)) as [H _].
    apply negb_true_iff, orb_false_elim in H as [H _].
    by apply orb_false_elim in H as [_ H].
Qed.

Lemma fill_columns {engine : Engine} hs r :
  forallb label_ok hs = true ->
  NoDup (key <$> hs) ->
  forallb (fun h => cell_ok (chars (cell_of r h))) hs = true ->
  fill (trim <$> ((fun h => chars (label h)) <$> hs)) 0
       ((fun h => chars (cell_of r h)) <$> hs) ∅ = columns hs r.
Proof.
  intros Hlab Hnd Hcells.
  rewrite forallb_forall in Hlab. rewrite forallb_forall in Hcells.
  assert ((fun h => of_chars (camel h)) <$>
            (trim <$> ((fun h => chars (label h)) <$> hs)) = key <$> hs) as Hkeys.
  { rewrite <- !list_fmap_compose. apply list_fmap_ext. intros i h Hi. simpl.
    apply (label_ok_inv h), Hlab, list_elem_of_In. by eapply list_elem_of_lookup_2. }
  apply map_eq. intros k. unfold columns.
  destruct (decide (k ∈ key <$> hs)) as [Hin|Hnotin].
  - apply list_elem_of_fmap in Hin as (h & -> & Hh).
    apply list_elem_of_lookup in Hh as [i Hi].
    assert (of_chars (camel (trim (chars (label h)))) = key h) as Hk
      by (apply (label_ok_inv h), Hlab, list_elem_of_In; by eapply list_elem_of_lookup_2).
    rewrite <- Hk at 1.
    rewrite (fill_lookup _ 0 _ ∅ i (trim (chars (label h)))).
    + rewrite Nat.add_0_l, list_lookup_fmap, Hi. cbn [fmap option_fmap option_map].
      assert (cell_ok (chars (cell_of r h)) = true) as [_ Ht%bool_decide_eq_true]%andb_prop
        by (apply Hcells, list_elem_of_In; by eapply list_elem_of_lookup_2).
      rewrite Ht, of_chars_chars. symmetry.
      apply elem_of_list_to_map_1.
      * by rewrite <- list_fmap_compose.
      * apply list_elem_of_fmap. exists h. split; [done|].
        by eapply list_elem_of_lookup_2.
    + by rewrite Hkeys.
    + by rewrite !list_lookup_fmap, Hi.
  - rewrite fill_lookup_other by (by rewrite Hkeys). rewrite lookup_empty.
    symmetry. apply not_elem_of_list_to_map_1. by rewrite <- list_fmap_compose.
Qed.

(** X14. Round trip of [toCSV] and [parseCSV].  For at least one column,
    with labels that are not empty, hold no double quote, comma or line
    break and are normalised by [camel] to distinct keys, and for rows
    whose cells hold no line break and no white space at their ends (and
    are not empty when there is a single column): parsing the text that
    [toCSV] prints gives the rows back, each cut down to the columns.  The
    cell of a property that a row does not have is the empty string,
    unless the key of the column names a member of [Object.prototype]
    ([constructor], [toString], ...): then it is the text of that member,
    and the condition on the cells is one on that text.  Cells may hold
    commas and double quotes. *)
Theorem parseCSV_toCSV {engine : Engine} (rows : list (gmap string string))
    (hs : list header) :
  hs <> [] ->
  forallb label_ok hs = true ->
  NoDup (key <$> hs) ->
  forallb (fun r => forallb (fun h => cell_ok (chars (cell_of r h))) hs) rows = true ->
  (length hs = 1 ->
   forallb (fun r => forallb (fun h => negb (bool_decide (cell_of r h = ""))) hs) rows
     = true) ->
  parseCSV (toCSV rows hs) = columns hs <$> rows.
Proof.
  intros Hne Hlab Hnd Hcells Hsingle.
  pose proof Hlab as Hlab'. rewrite forallb_forall in Hlab'.
  pose proof Hcells as Hcells'. rewrite forallb_forall in Hcells'.
  set (labels := (fun h => chars (label h)) <$> hs).
  set (line := fun r : gmap string string =>
         join [COMMA] ((fun h => esc (chars (cell_of r h))) <$> hs)).
  assert ((fun h => esc (chars (label h))) <$> hs = labels) as Hesc.
  { apply list_fmap_ext. intros i h Hi.
    apply (label_ok_inv h), Hlab', list_elem_of_In. by eapply list_elem_of_lookup_2. }
  assert (exists h0 hs0, hs = h0 :: hs0) as (h0 & hs0 & Hhs)
    by (destruct hs; [done|eauto]).
  assert (labels = chars (label h0) :: ((fun h => chars (label h)) <$> hs0)) as Hlabels
    by (unfold labels; by rewrite Hhs).
  assert (label_ok h0 = true) as Hh0 by (apply Hlab', list_elem_of_In; rewrite Hhs; left).
  assert (Forall (fun x => one_line x = true) labels) as Hone.
  { apply Forall_forall. intros l (h & -> & Hh)%list_elem_of_fmap.
    by apply (label_ok_inv h), Hlab', list_elem_of_In. }
  assert (Forall (Forall (fun c => Ascii.eqb c COMMA = false)) labels) as Hcomma.
  { apply Forall_forall. intros l (h & -> & Hh)%list_elem_of_fmap.
    by apply (label_ok_inv h), Hlab', list_elem_of_In. }
  assert (join [COMMA] labels <> []) as Hhead.
  { rewrite Hlabels. apply join_nonempty. by apply (label_ok_inv h0). }
  assert (forall r, r ∈ rows -> one_line (line r) = true /\ line r <> []) as Hline.
  { intros r Hr%list_elem_of_In. specialize (Hcells' r Hr).
    rewrite forallb_forall in Hcells'. split.
    - apply one_line_join, Forall_forall.
      intros l (h & -> & Hh%list_elem_of_In)%list_elem_of_fmap.
      apply one_line_esc. by destruct (andb_prop _ _ (Hcells' h Hh)).
    - unfold line. rewrite Hhs. destruct hs0 as [|h1 hs1].
      + cbn [fmap list_fmap join]. apply esc_nonempty.
        assert (forallb (fun r => forallb
                  (fun h => negb (bool_decide (cell_of r h = ""))) hs) rows = true)
          as Hs by (apply Hsingle; by rewrite Hhs).
        rewrite forallb_forall in Hs. specialize (Hs r Hr).
        rewrite Hhs in Hs. cbn [forallb] in Hs. rewrite andb_true_r in Hs.
        apply negb_true_iff, bool_decide_eq_false in Hs.
        intros E. apply Hs. by rewrite <- (of_chars_chars (cell_of r h0)), E.
      + rewrite !fmap_cons. by apply join_two_nonempty. }
  assert (forall r, r ∈ rows ->
            fill (trim <$> split_comma (join [COMMA] labels)) 0
                 (cells_from (line r) [] false) ∅ = columns hs r) as Hrow.
  { intros r Hr%list_elem_of_In. specialize (Hcells' r Hr).
    rewrite Hlabels, split_comma_join by (by rewrite <- Hlabels).
    rewrite <- Hlabels.
    assert (cells_from (line r) [] false = (fun h => chars (cell_of r h)) <$> hs) as ->.
    { unfold line.
      change (fun h => esc (chars (cell_of r h)))
        with (esc ∘ (fun h => chars (cell_of r h))).
      rewrite list_fmap_compose, Hhs, fmap_cons.
      by rewrite cells_from_join. }
    by apply fill_columns. }
  unfold toCSV, parseCSV, lines_of, headers_of. rewrite chars_of_chars, Hesc.
  change (fun r0 => join [COMMA] ((fun h => esc (chars (cell_of r0 h))) <$> hs))
    with line.
  cbn [app].
  rewrite split_lines_app by (by apply one_line_join).
  destruct rows as [|r rs].
  - cbn [fmap list_fmap join split_lines].
    rewrite filter_cons_True by done. rewrite filter_cons_False by (by intros ?).
    by rewrite filter_nil.
  - rewrite fmap_cons, split_lines_join; rewrite <- fmap_cons.
    2:{ apply Forall_forall. intros l (r' & -> & Hr')%list_elem_of_fmap.
        by apply Hline. }
    rewrite filter_cons_True by done.
    rewrite filter_all.
    2:{ apply Forall_forall. intros l (r' & -> & Hr')%list_elem_of_fmap.
        by apply Hline. }
    cbv zeta. rewrite <- list_fmap_compose. apply list_fmap_ext.
    intros i r' Hi. simpl. apply Hrow. by eapply list_elem_of_lookup_2.
Qed.

Lemma parseCSV_toCSV_witness :
  let hs := [mkHeader "firstName" "First Name"; mkHeader "lastName" "Last Name";
             mkHeader "constructor" "Constructor"] in
  let rows := [<["firstName" := "King, Ada"]> (<["lastName" := "Lovelace"]> ∅);
               <["lastName" := "Hopper"]> (<["constructor" := "ENIAC"]> ∅)] in
  parseCSV (toCSV (engine := V8) rows hs) = columns (engine := V8) hs <$> rows /\
  columns (engine := V8) hs <$> rows =
    [<["firstName" := "King, Ada"]> (<["lastName" := "Lovelace"]>
       (<["constructor" := "function Object() { [native code] }"]> ∅));
     <["firstName" := ""]> (<["lastName" := "Hopper"]>
       (<["constructor" := "ENIAC"]> ∅))].
Proof.
  intros hs rows. split; [|vm_compute; reflexivity].
  apply (parseCSV_toCSV (engine := V8)).
  - done.
  - vm_compute. reflexivity.
  - unfold hs. cbn [fmap list_fmap key].
    repeat (apply NoDup_cons; split; [set_solver|]). apply NoDup_nil_2.
  - vm_compute. reflexivity.
  - discriminate.
Defined.

(** No line feed. *)
Definition no_LF (s : text) : bool := forallb (fun c => negb (Ascii.eqb c LF)) s.

Lemma no_LF_cons c s : no_LF (c :: s) = negb (Ascii.eqb c LF) && no_LF s.
Proof. reflexivity. Qed.

Lemma no_LF_app a b : no_LF (a ++ b) = no_LF a && no_LF b.
Proof. apply forallb_app. Qed.

Lemma cons_head_no_LF c ls :
  Ascii.eqb c LF = false ->
  Forall (fun l => no_LF l = true) ls ->
  Forall (fun l => no_LF l = true) (cons_head c ls).
Proof.
  intros Hc Hls. destruct Hls as [|l ls Hl Hls]; cbn [cons_head].
  - repeat constructor. by rewrite no_LF_cons, Hc.
  - constructor; [|done]. by rewrite no_LF_cons, Hc, Hl.
Qed.

Lemma split_lines_no_LF_aux n s :
  length s <= n -> Forall (fun l => no_LF l = true) (split_lines s).
Proof.
  revert s. induction n as [|n IH]; intros s Hn.
  { destruct s; [by repeat constructor|simpl in Hn; lia]. }
  destruct s as [|c rest]; [by repeat constructor|].
  cbn [split_lines]. destruct (Ascii.eqb c LF) eqn:Hc.
  - constructor; [done|]. apply IH. simpl in Hn |- *. lia.
  - destruct rest as [|d rest'].
    + repeat constructor. by rewrite no_LF_cons, Hc.
    + destruct (Ascii.eqb c CR && Ascii.eqb d LF).
      * constructor; [done|]. apply IH. simpl in Hn |- *. lia.
      * apply cons_head_no_LF; [done|]. apply IH. simpl in Hn |- *. lia.
Qed.

Lemma cells_from_no_LF_aux n line cur q :
  length line <= n -> no_LF line = true -> no_LF cur = true ->
  Forall (fun l => no_LF l = true) (cells_from line cur q).
Proof.
  revert line cur q. induction n as [|n IH]; intros line cur q Hn Hline Hcur.
  { destruct line; [by repeat constructor|simpl in Hn; lia]. }
  destruct line as [|ch rest]; [by repeat constructor|].
  rewrite no_LF_cons in Hline. apply andb_prop in Hline as [Hch Hrest].
  cbn [cells_from]. destruct (Ascii.eqb ch DQ) eqn:Hq.
  - destruct rest as [|d rest'].
    + apply IH; [simpl in *; lia|done|done].
    + destruct (q && Ascii.eqb d DQ).
      * rewrite no_LF_cons in Hrest. apply andb_prop in Hrest as [_ Hrest'].
        apply IH; [simpl in *; lia|done|]. by rewrite no_LF_app, Hcur.
      * apply IH; [simpl in *; lia|done|done].
  - destruct (Ascii.eqb ch COMMA && negb q).
    + constructor; [done|]. apply IH; [simpl in *; lia|done|done].
    + apply IH; [simpl in *; lia|done|].
      by rewrite no_LF_app, Hcur, no_LF_cons, Hch.
Qed.

Lemma trimStart_no_LF s : no_LF s = true -> no_LF (trimStart s) = true.
Proof.
  induction s as [|c s IH]; [done|]. intros Hs. cbn [trimStart].
  destruct (is_white c); [|done].
  rewrite no_LF_cons in Hs. apply andb_prop in Hs as [_ Hs]. by apply IH.
Qed.

Lemma trimEnd_no_LF s : no_LF s = true -> no_LF (trimEnd s) = true.
Proof.
  induction s as [|c s IH]; [done|]. rewrite no_LF_cons.
  intros [Hc Hs]%andb_prop. cbn [trimEnd]. specialize (IH Hs).
  destruct (trimEnd s) as [|d r].
  - destruct (is_white c); [done|]. by rewrite no_LF_cons, Hc.
  - by rewrite no_LF_cons, Hc, IH.
Qed.

Lemma fill_no_LF hs idx cells obj :
  Forall (fun l => no_LF l = true) cells ->
  map_Forall (fun _ v => no_LF (chars v) = true) obj ->
  map_Forall (fun _ v => no_LF (chars v) = true) (fill hs idx cells obj).
Proof.
  intros Hcells. revert idx obj. induction hs as [|h hs IH]; intros idx obj Hobj; [done|].
  cbn [fill]. apply IH. apply map_Forall_insert_2; [|done].
  rewrite chars_of_chars. destruct (cells !! idx) as [c|] eqn:Hc; [|done].
  unfold trim. apply trimEnd_no_LF, trimStart_no_LF.
  by eapply (proj1 (Forall_forall _ _) Hcells), list_elem_of_lookup_2.
Qed.

(** The keys of the records of a CSV text: the header cells of its first
    non-empty line, normalised. *)
Definition keys_of (csvText : string) : list string :=
  match lines_of csvText with
  | [] => []
  | first :: _ => (fun h => of_chars (camel h)) <$> headers_of first
  end.

(** X15. The records [parseCSV] returns, for every text: there is one
    record for each non-empty line after the first, since the text is cut
    into lines before any quote is looked at; so no value of a record ever
    holds a line feed, quoted or not; and every record has exactly the
    keys of the header line, however many cells its own line has. *)
Theorem parseCSV_records (csvText : string) :
  length (parseCSV csvText) = length (lines_of csvText) - 1 /\
  Forall (fun r : gmap string string =>
            map_Forall (fun (_ : string) v => no_LF (chars v) = true) r /\
            (forall k, is_Some (r !! k) <-> k ∈ keys_of csvText))
         (parseCSV csvText).
Proof.
  unfold parseCSV, keys_of.
  assert (Forall (fun l => no_LF l = true) (lines_of csvText)) as Hlines.
  { unfold lines_of. apply Forall_forall. intros l [_ Hl]%list_elem_of_filter.
    revert l Hl. apply Forall_forall. by eapply split_lines_no_LF_aux. }
  destruct (lines_of csvText) as [|first others]; [by split|].
  split; [cbn [length]; rewrite length_fmap; lia|].
  apply Forall_fmap, Forall_forall. intros line Hline. simpl. split.
  - apply fill_no_LF; [|done].
    eapply cells_from_no_LF_aux; [done| |done].
    apply (proj1 (Forall_forall _ _) Hlines). by right.
  - intros k. rewrite fill_dom, lookup_empty. split; [|by left].
    intros [H|[? ?]]; done.
Qed.

(** ** [escapeHtml] *)

(** The class of the regular expression of [escapeHtml]: ampersand, the
    angle brackets and the double quote. *)
Definition is_markup (c : ascii) : bool :=
  Ascii.eqb c "&"%char || Ascii.eqb c "<"%char || Ascii.eqb c ">"%char ||
  Ascii.eqb c DQ.

(** [escapeHtml], on a string.  The regular expression asks for a space
    after the character of the class, so a match has two characters; the
    table of the callback has no entry for two characters, the callback
    returns [undefined], and [replace] inserts that as text. *)
Fixpoint escapeHtml (str : text) : text :=
  match str with
  | [] => []
  | a :: tl =>
      match tl with
      | b :: rest =>
          if is_markup a && Ascii.eqb b SP
          then chars "undefined" ++ escapeHtml rest
          else a :: escapeHtml tl
      | [] => [a]
      end
  end.

(** Some character of the class is followed by a space. *)
Fixpoint markup_before_space (s : text) : bool :=
  match s with
  | [] => false
  | a :: tl =>
      match tl with
      | b :: _ => (is_markup a && Ascii.eqb b SP) || markup_before_space tl
      | [] => false
      end
  end.

Lemma escapeHtml_cons2 a b rest :
  escapeHtml (a :: b :: rest) =
  if is_markup a && Ascii.eqb b SP
  then chars "undefined" ++ escapeHtml rest
  else a :: escapeHtml (b :: rest).
Proof. reflexivity. Qed.

Lemma markup_before_space_cons2 a b rest :
  markup_before_space (a :: b :: rest) =
  (is_markup a && Ascii.eqb b SP) || markup_before_space (b :: rest).
Proof. reflexivity. Qed.

Lemma escapeHtml_length n s :
  length s <= n ->
  length s <= length (escapeHtml s) /\
  (markup_before_space s = true -> length s < length (escapeHtml s)) /\
  (markup_before_space s = false -> escapeHtml s = s).
Proof.
  revert s. induction n as [|n IH]; intros s Hn.
  { destruct s; [done|simpl in Hn; lia]. }
  destruct s as [|a [|b rest]]; [done|done|].
  rewrite escapeHtml_cons2, markup_before_space_cons2.
  destruct (is_markup a && Ascii.eqb b SP).
  - destruct (IH rest) as (Hle & _ & _); [simpl in *; lia|].
    rewrite length_app.
    assert (length (chars "undefined") = 9) as -> by reflexivity.
    cbn [length orb] in *. split_and!; [lia|lia|done].
  - destruct (IH (b :: rest)) as (Hle & Hlt & Hid); [simpl in *; lia|].
    cbn [orb length] in *. split_and!; [lia| |].
    + intros H. specialize (Hlt H). lia.
    + intros H. by rewrite (Hid H).
Qed.

(** X16. [escapeHtml] replaces nothing by an entity.  A string in which
    no ampersand, angle bracket or double quote stands before a space is
    returned as it is, markup included; in any other string each such
    pair is replaced by the nine characters of the word undefined, so the
    result is longer than the argument. *)
Theorem escapeHtml_no_escape (s : text) :
  if markup_before_space s
  then length s < length (escapeHtml s)
  else escapeHtml s = s.
Proof.
  destruct (escapeHtml_length _ s (le_n _)) as (_ & Hlt & Hid).
  destruct (markup_before_space s); auto.
Qed.

(** * Lists on the page: [filterByTerm], [sortBy], [groupBy] *)

(** ** A larger repository *)

(** The seeded repository with two more students, a class without
    teacher, and two more enrollments, one of them dropped. *)
Definition more_records : M unit :=
  s2 <- new_record [("id", "s2"); ("firstName", "Ada"); ("lastName", "Lovelace");
                    ("grade", "4"); ("dob", "2014-12-10");
                    ("email", "ada@example.edu")] ;;
  Data_add "students" s2 ;;
  s3 <- new_record [("id", "s3"); ("firstName", "Kim"); ("lastName", "Lee");
                    ("grade", "3"); ("dob", "2015-06-01"); ("email", "")] ;;
  Data_add "students" s3 ;;
  c2 <- new_record [("id", "c2"); ("name", "Biology"); ("code", "SCI201");
                    ("teacherId", ""); ("schedule", "Tue 10:00")] ;;
  Data_add "classes" c2 ;;
  e2 <- new_record [("id", "e2"); ("studentId", "s2"); ("classId", "c1");
                    ("status", "enrolled")] ;;
  Data_add "enrollments" e2 ;;
  e3 <- new_record [("id", "e3"); ("studentId", "s3"); ("classId", "c2");
                    ("status", "dropped")] ;;
  Data_add "enrollments" e3.

Definition school : World := snd (more_records seeded).

Lemma school_well_formed : well_formed school = true.
Proof. vm_compute. reflexivity. Qed.

(** ** Values as text *)

(** [String(v)].  A number prints as [Number_toString] says.  A plain
    object prints through [Object.prototype.toString], unless a property
    [toString] of its own, which cannot be a function here, hides that
    method: then no conversion is left.  An array is outside this function
    of the model (rendered as a TypeError). *)
Definition String_ (h : heap) (v : option hval) : res text :=
  match v with
  | None => Ok (chars "undefined")
  | Some HNull => Ok (chars "null")
  | Some (HBool b) => Ok (chars (if b then "true" else "false"))
  | Some (HNum n) => Ok (Number_toString n)
  | Some (HStr s) => Ok (chars s)
  | Some (HRef l) =>
      match h !! l with
      | Some (CObj m) =>
          match m !! "toString" with
          | Some _ => Throw TypeError
          | None => Ok (chars "[object Object]")
          end
      | _ => Throw TypeError
      end
  end.

(** The text of a value in a template. *)
Definition shown (h : heap) (v : option hval) : text :=
  match String_ h v with
  | Ok s => s
  | Throw _ => []
  end.

(** [v ?? d]. *)
Definition nullish_or (v : option hval) (d : hval) : option hval :=
  match v with
  | None | Some HNull => Some d
  | Some _ => v
  end.

(** What [item[k]] evaluates to for a name [k] that the program does not
    fix: a value that the heap can hold ([None] is [undefined]), or, for a
    plain object without a property [k] of its own, the member that
    [Object.prototype] has under that name.  (Of an array and of a
    primitive value only the own properties are modelled.) *)
Inductive member : Type :=
| Held (v : option hval)
| Inherited (k : string).

Definition get_member (h : heap) (item : hval) (k : string) : res member :=
  rbind (get_prop h (Some item) k) (fun v =>
  Ok (match v, record h item with
      | None, Some _ =>
          if bool_decide (k ∈ Object_prototype_names) then Inherited k
          else Held None
      | _, _ => Held v
      end)).

(** [m ?? d] and [String(m)]: an inherited member is neither [null] nor
    [undefined], and prints as the engine prints it. *)
Definition member_or (m : member) (d : hval) : member :=
  match m with
  | Held v => Held (nullish_or v d)
  | Inherited _ => m
  end.

Definition String_member {engine : Engine} (h : heap) (m : member) : res text :=
  match m with
  | Held v => String_ h v
  | Inherited k => Ok (inherited_text k)
  end.

(** [s.startsWith(t)] and [s.includes(t)]. *)
Fixpoint startsWith (s t : text) : bool :=
  match t, s with
  | [], _ => true
  | _ :: _, [] => false
  | b :: t', a :: s' => Ascii.eqb a b && startsWith s' t'
  end.

Fixpoint includes (s t : text) : bool :=
  startsWith s t ||
  match s with
  | [] => false
  | _ :: s' => includes s' t
  end.

(** A field of [filterByTerm], a key of [sortBy] or of [groupBy]: the name
    of a property, or a function of the item. *)
Inductive selector : Type :=
| Name (f : string)
| Computed (g : heap -> hval -> res (option hval)).

(** The [getter] of [filterByTerm] and of [sortBy]:
    [typeof f === 'function' ? f(item) : item[f] ?? '']. *)
Definition getter (h : heap) (item : hval) (f : selector) : res member :=
  match f with
  | Computed g => rbind (g h item) (fun v => Ok (Held v))
  | Name k => rbind (get_member h item k) (fun m => Ok (member_or m (HStr "")))
  end.

(** [l.some(p)]. *)
Fixpoint some_res {A} (p : A -> res bool) (l : list A) : res bool :=
  match l with
  | [] => Ok false
  | x :: l' =>
      match p x with
      | Throw e => Throw e
      | Ok true => Ok true
      | Ok false => some_res p l'
      end
  end.

Section filtering.

Context {engine : Engine}.

(** The test of [filterByTerm] on an item. *)
Definition matches (lower : text) (fields : list selector)
    (h : heap) (item : hval) : res bool :=
  some_res (fun f =>
    rbind (rbind (getter h item f) (String_member h)) (fun s =>
    Ok (includes (toLowerCase s) lower))) fields.

(** [filterByTerm(list, term, fields)] for a string [term]; [items] is the
    parameter [list]. *)
Definition filterByTerm (items : option hval) (term : string)
    (fields : list selector) : M (option hval) :=
  if bool_decide (term = "") then ret items
  else
    kept <- Array_filter items (matches (toLowerCase (chars term)) fields) ;;
    ret (Some kept).

(** The text [filterByTerm] searches under the name [f] of a record [r]:
    that of [String(r[f] ?? '')].  A property of the record counts
    whatever its name; without one, a name that [Object.prototype] has
    gives the text of that member, any other name the empty text. *)
Definition text_of (h : heap) (r : hval) (f : string) : text :=
  match field h r f with
  | Some v => shown h (nullish_or (Some v) (HStr ""))
  | None =>
      if bool_decide (f ∈ Object_prototype_names) then inherited_text f
      else []
  end.

(** Some of the named properties of [r] contains [lower], whatever the
    case of its letters. *)
Definition found (h : heap) (lower : text) (names : list string) (r : hval)
  : bool :=
  existsb (fun f => includes (toLowerCase (text_of h r f)) lower) names.

Lemma String_prim h v :
  match v with Some (HRef _) => False | _ => True end ->
  exists s, String_ h v = Ok s.
Proof. destruct v as [[| | | |l]|]; try done; by eexists. Qed.

Lemma shown_prim h v :
  match v with Some (HRef _) => False | _ => True end ->
  String_ h v = Ok (shown h v).
Proof. intros Hv. unfold shown. by destruct (String_prim h v Hv) as [s ->]. Qed.

Lemma field_prim h r f :
  flat_record h r = true ->
  match field h r f with Some (HRef _) => False | _ => True end.
Proof.
  intros Hflat. destruct (flat_is_record _ _ Hflat) as [m Hm].
  pose proof (record_flat _ _ _ Hm Hflat) as Hprim.
  unfold field. rewrite Hm. cbn [mbind option_bind].
  destruct (m !! f) as [v|] eqn:Hv; [|done].
  specialize (Hprim _ _ Hv). by destruct v.
Qed.

Lemma get_prop_field h r f :
  flat_record h r = true -> get_prop h (Some r) f = Ok (field h r f).
Proof.
  intros Hflat. destruct (flat_is_record _ _ Hflat) as [m Hm].
  rewrite (get_prop_record _ _ _ f Hm). unfold field. by rewrite Hm.
Qed.

(** What a record has under a name. *)
Lemma get_member_record h r f :
  flat_record h r = true ->
  get_member h r f =
  Ok (match field h r f with
      | Some v => Held (Some v)
      | None => if bool_decide (f ∈ Object_prototype_names) then Inherited f
                else Held None
      end).
Proof.
  intros Hflat. unfold get_member. rewrite (get_prop_field _ _ _ Hflat).
  destruct (flat_is_record _ _ Hflat) as [m ->]. cbn [rbind].
  by destruct (field h r f).
Qed.

Lemma getter_record h r f :
  flat_record h r = true ->
  rbind (getter h r (Name f)) (String_member h) = Ok (text_of h r f).
Proof.
  intros Hflat. cbn [getter]. rewrite (get_member_record _ _ _ Hflat).
  cbn [rbind]. unfold text_of.
  pose proof (field_prim h r f Hflat) as Hprim.
  destruct (field h r f) as [v|].
  - cbn [member_or String_member]. apply shown_prim. by destruct v.
  - by destruct (bool_decide (f ∈ Object_prototype_names)).
Qed.

Lemma matches_record h lower names r :
  flat_record h r = true ->
  matches lower (Name <$> names) h r = Ok (found h lower names r).
Proof.
  intros Hflat. unfold matches, found. induction names as [|f names IH]; [done|].
  cbn [fmap list_fmap some_res existsb].
  rewrite (getter_record _ _ _ Hflat). cbn [rbind].
  destruct (includes (toLowerCase (text_of h r f)) lower); [done|]. exact IH.
Qed.

(** X17. [filterByTerm] on a collection of a well-formed snapshot, with
    property names as fields.  With the empty term the result is the
    collection's own array and nothing happens.  With another term the
    result is a new array; it holds, in their order, exactly the records of
    the collection of which the text under some of the names contains the
    term, letters compared without case; the collection and its records
    are untouched, and no error is raised, whatever the properties hold.
    The text under a name is that of the record's property, a number as
    [Number_toString] prints it and [null] as the empty text; for a name
    the record has no property of, it is empty, unless [Object.prototype]
    has a member of that name: the text of that member is searched
    too. *)
Theorem filterByTerm_records (w : World) (k : kind) (term : string)
    (names : list string) :
  well_formed w = true ->
  exists a vs,
    snapshot w ≫= (fun sm => array_at (heap_of w) (sm !! kind_name k))
      = Some (a, vs) /\
    (items <- state_get (kind_name k) ;; filterByTerm items term (Name <$> names)) w
    = if bool_decide (term = "") then (Ok (Some (HRef a)), w)
      else (Ok (Some (HRef (length (heap_of w)))),
            set_heap (heap_of w ++
              [CArr (filter (fun r => found (heap_of w)
                                        (toLowerCase (chars term)) names r = true)
                            vs)]) w).
Proof.
  intros (st & sm & al & el & S)%well_formed_shape.
  exists (al k), (el k). split.
  - rewrite (snapshot_shape _ _ _ _ _ S). cbn [mbind option_bind].
    apply array_at_Some. split; [apply (sh_loc _ _ _ _ _ S)|apply (sh_arr _ _ _ _ _ S)].
  - unfold bind at 1. rewrite (state_get_shape _ _ _ _ _ (kind_name k) S).
    rewrite (sh_loc _ _ _ _ _ S k). unfold filterByTerm.
    destruct (bool_decide (term = "")); [done|].
    unfold bind, Array_filter, bind, reading.
    rewrite (elements_arr _ _ _ (sh_arr _ _ _ _ _ S k)).
    rewrite (filter_res_records _
               (fun r => found (heap_of w) (toLowerCase (chars term)) names r = true)).
    + reflexivity.
    + apply Forall_forall. intros r Hr.
      rewrite (matches_record _ _ _ _ (sh_rec _ _ _ _ _ S k r Hr)).
      f_equal. by destruct (found _ _ _ r).
Qed.

End filtering.

Lemma filterByTerm_records_witness :
  exists a vs,
    snapshot school ≫= (fun sm => array_at (heap_of school)
                                   (sm !! kind_name Students)) = Some (a, vs) /\
    vs = [HRef 7; HRef 9; HRef 10] /\
    (items <- state_get (kind_name Students) ;;
     filterByTerm (engine := V8) items "LOVE"
       (Name <$> ["firstName"; "lastName"; "toString"])) school
    = (Ok (Some (HRef (length (heap_of school)))),
       set_heap (heap_of school ++
         [CArr (filter (fun r => found (engine := V8) (heap_of school)
                           (toLowerCase (chars "LOVE"))
                           ["firstName"; "lastName"; "toString"] r = true)
                       vs)]) school) /\
    filter (fun r => found (engine := V8) (heap_of school)
                       (toLowerCase (chars "LOVE"))
                       ["firstName"; "lastName"; "toString"] r = true)
           [HRef 7; HRef 9; HRef 10] = [HRef 9] /\
    filter (fun r => found (engine := V8) (heap_of school)
                       (toLowerCase (chars "Native"))
                       ["firstName"; "lastName"; "toString"] r = true)
           [HRef 7; HRef 9; HRef 10] = [HRef 7; HRef 9; HRef 10].
Proof.
  assert (well_formed school = true) as Hwf by (vm_compute; reflexivity).
  destruct (filterByTerm_records (engine := V8) school Students "LOVE"
              ["firstName"; "lastName"; "toString"] Hwf)
    as (a & vs & Harr & Hrun).
  rewrite (bool_decide_eq_false_2 ("LOVE" = "")) in Hrun by discriminate.
  assert (snapshot school ≫= (fun sm => array_at (heap_of school)
                                          (sm !! kind_name Students))
          = Some (0, [HRef 7; HRef 9; HRef 10])) as E by (vm_compute; reflexivity).
  assert (vs = [HRef 7; HRef 9; HRef 10]) as Hvs by congruence.
  exists a, vs. split; [exact Harr|]. split; [exact Hvs|].
  split; [exact Hrun|]. split; vm_compute; reflexivity.
Defined.

(** ** [groupBy] *)

(** The object [acc] of [groupBy]: its own properties in the order of
    their creation, each holding the elements of its array. *)
Definition groups : Type := list (string * list hval).

(** [acc[key].push(item)] for an own property [key]. *)
Fixpoint push_group (k : string) (item : hval) (acc : groups) : option groups :=
  match acc with
  | [] => None
  | (k', g) :: rest =>
      if decide (k' = k) then Some ((k', g ++ [item]) :: rest)
      else cons (k', g) <$> push_group k item rest
  end.

(** [acc[key] ||= []; acc[key].push(item)].  A key that [acc] does not own
    but inherits reads as a function or an object: nothing is assigned,
    and [push] is not a function of that value. *)
Definition add_to_group (k : string) (item : hval) (acc : groups) : res groups :=
  match push_group k item acc with
  | Some acc' => Ok acc'
  | None =>
      if bool_decide (k ∈ Object_prototype_names) then Throw TypeError
      else Ok (acc ++ [(k, [item])])
  end.

Section grouping.

Context {engine : Engine}.

(** [typeof keyFn === 'function' ? keyFn(item) : item[keyFn]], as the
    property name it is used for: its text. *)
Definition group_key (h : heap) (keyFn : selector) (item : hval) : res string :=
  rbind (match keyFn with
         | Computed g => rbind (g h item) (fun v => Ok (Held v))
         | Name f => get_member h item f
         end) (fun m =>
  rbind (String_member h m) (fun s => Ok (of_chars s))).

(** The [reduce] of [groupBy], from an element on. *)
Fixpoint groupBy_from (h : heap) (keyFn : selector) (items : list hval)
    (acc : groups) : res groups :=
  match items with
  | [] => Ok acc
  | item :: rest =>
      match group_key h keyFn item with
      | Throw e => Throw e
      | Ok k =>
          match add_to_group k item acc with
          | Throw e => Throw e
          | Ok acc' => groupBy_from h keyFn rest acc'
          end
      end
  end.

(** [groupBy(list, keyFn)]; [items] is the parameter [list]. *)
Definition groupBy (h : heap) (items : option hval) (keyFn : selector)
  : res groups :=
  match elements h items with
  | Throw e => Throw e
  | Ok vs => groupBy_from h keyFn vs []
  end.

(** The distinct elements of a list, in the order of their first
    occurrence. *)
Fixpoint firsts (l : list string) : list string :=
  match l with
  | [] => []
  | x :: r => x :: filter (fun y => y <> x) (firsts r)
  end.

(** The groups of a list under a key: one for each key, in the order of
    first occurrence, with the elements of that key in their order. *)
Definition groups_of (keyf : hval -> string) (vs : list hval) : groups :=
  (fun k => (k, filter (fun x => keyf x = k) vs)) <$> firsts (keyf <$> vs).

Lemma elem_of_firsts l x : x ∈ firsts l <-> x ∈ l.
Proof.
  induction l as [|y l IH]; [done|]. cbn [firsts].
  rewrite !elem_of_cons, list_elem_of_filter, IH.
  destruct (decide (x = y)); naive_solver.
Qed.

Lemma NoDup_firsts l : NoDup (firsts l).
Proof.
  induction l as [|y l IH]; [constructor|]. cbn [firsts].
  apply NoDup_cons. split; [|by apply NoDup_filter].
  rewrite list_elem_of_filter. naive_solver.
Qed.

Lemma filter_ne_snoc (l : list string) x y :
  filter (fun z => z <> y) (l ++ [x]) =
  filter (fun z => z <> y) l ++ (if decide (x = y) then [] else [x]).
Proof.
  rewrite filter_app. f_equal. rewrite filter_cons, filter_nil.
  destruct (decide (x <> y)), (decide (x = y)); done.
Qed.

Lemma firsts_snoc l x :
  firsts (l ++ [x]) = if decide (x ∈ l) then firsts l else firsts l ++ [x].
Proof.
  induction l as [|y l IH].
  - cbn. rewrite decide_False by apply not_elem_of_nil. done.
  - cbn [app firsts]. rewrite IH.
    destruct (decide (x ∈ l)) as [Hin|Hnotin].
    + rewrite decide_True by (by right). done.
    + rewrite filter_ne_snoc. destruct (decide (x = y)) as [->|Hne].
      * rewrite decide_True by (by left). by rewrite app_nil_r.
      * rewrite decide_False; [done|]. rewrite elem_of_cons. naive_solver.
Qed.

Lemma push_group_map (F G : string -> list hval) k item (l : list string) :
  NoDup l -> k ∈ l ->
  G k = F k ++ [item] -> (forall k', k' ∈ l -> k' <> k -> G k' = F k') ->
  push_group k item ((fun k' => (k', F k')) <$> l) =
  Some ((fun k' => (k', G k')) <$> l).
Proof.
  intros Hnd Hin Hk Hother. induction l as [|x l IH]; [by apply elem_of_nil in Hin|].
  apply NoDup_cons in Hnd as [Hx Hnd]. rewrite !fmap_cons. cbn [push_group].
  destruct (decide (x = k)) as [->|Hne].
  - rewrite Hk. do 2 f_equal. apply list_fmap_ext. intros i k' Hi. f_equal.
    symmetry. apply Hother; [right; by eapply list_elem_of_lookup_2|].
    intros ->. apply Hx. by eapply list_elem_of_lookup_2.
  - rewrite IH; [|done|set_solver|set_solver]. cbn. do 2 f_equal.
    f_equal. symmetry. apply Hother; [by left|done].
Qed.

Lemma push_group_None k item acc :
  k ∉ acc.*1 -> push_group k item acc = None.
Proof.
  induction acc as [|[k' g] acc IH]; [done|]. cbn [fmap list_fmap fst push_group].
  rewrite not_elem_of_cons. intros [Hne Hk].
  rewrite decide_False by done. by rewrite IH.
Qed.

Lemma groups_of_keys keyf vs : (groups_of keyf vs).*1 = firsts (keyf <$> vs).
Proof.
  unfold groups_of. rewrite <- list_fmap_compose. apply list_fmap_id.
Qed.

Lemma filter_none {A} (P : A -> Prop) `{!forall x, Decision (P x)} (l : list A) :
  Forall (fun x => ~ P x) l -> filter P l = [].
Proof.
  induction 1 as [|x l Hx _ IH]; [done|].
  by rewrite filter_cons, decide_False, IH.
Qed.

Lemma filter_snoc {A} (P : A -> Prop) `{!forall x, Decision (P x)} (l : list A) x :
  filter P (l ++ [x]) = filter P l ++ (if decide (P x) then [x] else []).
Proof. rewrite filter_app, filter_cons, filter_nil. by destruct (decide (P x)). Qed.

Lemma groups_of_snoc_new keyf vs item :
  keyf item ∉ keyf <$> vs ->
  groups_of keyf (vs ++ [item]) = groups_of keyf vs ++ [(keyf item, [item])].
Proof.
  intros Hnew. unfold groups_of.
  rewrite fmap_app, list_fmap_singleton, firsts_snoc, decide_False by done.
  rewrite fmap_app, list_fmap_singleton. f_equal.
  - apply list_fmap_ext. intros i k Hk. f_equal.
    rewrite filter_snoc, decide_False, app_nil_r; [done|].
    intros E. apply Hnew. rewrite E.
    apply list_elem_of_lookup_2 in Hk. by apply elem_of_firsts.
  - do 2 f_equal. rewrite filter_snoc, decide_True by done.
    rewrite filter_none; [done|]. apply Forall_forall. intros x Hx E.
    apply Hnew. rewrite <- E. apply list_elem_of_fmap. by exists x.
Qed.

Lemma groups_of_snoc_old keyf vs item :
  keyf item ∈ keyf <$> vs ->
  push_group (keyf item) item (groups_of keyf vs) =
  Some (groups_of keyf (vs ++ [item])).
Proof.
  intros Hold. unfold groups_of.
  rewrite fmap_app, list_fmap_singleton, firsts_snoc, decide_True by done.
  apply (push_group_map (fun k => filter (fun x => keyf x = k) vs)
           (fun k => filter (fun x => keyf x = k) (vs ++ [item]))).
  - apply NoDup_firsts.
  - by apply elem_of_firsts.
  - by rewrite filter_snoc, decide_True.
  - intros k' _ Hne. rewrite filter_snoc, decide_False, app_nil_r; done.
Qed.

Lemma groupBy_from_groups h keyFn (keyf : hval -> string) rest done_ :
  Forall (fun item => group_key h keyFn item = Ok (keyf item)) rest ->
  Forall (fun item => keyf item ∉ Object_prototype_names) rest ->
  groupBy_from h keyFn rest (groups_of keyf done_) =
  Ok (groups_of keyf (done_ ++ rest)).
Proof.
  intros Hkey. revert done_. induction Hkey as [|item rest Hitem _ IH];
    intros done_ Hproto.
  - by rewrite app_nil_r.
  - apply Forall_cons in Hproto as [Hp Hproto].
    cbn [groupBy_from]. rewrite Hitem. unfold add_to_group.
    destruct (decide (keyf item ∈ keyf <$> done_)) as [Hold|Hnew].
    + rewrite (groups_of_snoc_old _ _ _ Hold), IH by done.
      by rewrite <- app_assoc.
    + rewrite push_group_None
        by (by rewrite groups_of_keys, elem_of_firsts).
      rewrite bool_decide_eq_false_2 by done.
      rewrite <- (groups_of_snoc_new _ _ _ Hnew), IH by done.
      by rewrite <- app_assoc.
Qed.



End grouping.


(** ** The teacher-load report *)

(** The array index a property name of an object denotes, if any: a
    canonical numeral below 2^32 - 1. *)
Definition entry_index (k : string) : option N :=
  match k with
  | EmptyString => None
  | String c r =>
      if decide (c = "0"%char)
      then (if decide (r = EmptyString) then Some 0%N else None)
      else
        match digits_value k 0%N with
        | Some i => if (i <? 4294967295)%N then Some i else None
        | None => None
        end
  end.

Fixpoint insert_by_index (i : N) (e : string * list hval)
    (l : list (N * (string * list hval))) : list (N * (string * list hval)) :=
  match l with
  | [] => [(i, e)]
  | (j, e') :: r =>
      if (i <? j)%N then (i, e) :: l else (j, e') :: insert_by_index i e r
  end.

Fixpoint index_entries (acc : groups) : list (N * (string * list hval)) :=
  match acc with
  | [] => []
  | e :: r =>
      match entry_index e.1 with
      | Some i => insert_by_index i e (index_entries r)
      | None => index_entries r
      end
  end.

(** [Object.entries(acc)]: the properties named by array indices come
    first, in ascending order, then the others in the order of their
    creation. *)
Definition Object_entries (acc : groups) : groups :=
  (snd <$> index_entries acc) ++ filter (fun e => entry_index e.1 = None) acc.

(** [arr.find(p)]. *)
Fixpoint find_res (p : hval -> res bool) (vs : list hval) : res (option hval) :=
  match vs with
  | [] => Ok None
  | v :: vs' =>
      match p v with
      | Throw e => Throw e
      | Ok true => Ok (Some v)
      | Ok false => find_res p vs'
      end
  end.

Definition Array_find (h : heap) (arr : option hval)
    (p : heap -> hval -> res bool) : res (option hval) :=
  rbind (elements h arr) (find_res (p h)).

(** [c => c.teacherId || 'Unassigned']. *)
Definition teacherId_or_Unassigned (h : heap) (c : hval) : res (option hval) :=
  rbind (get_prop h (Some c) "teacherId") (fun v =>
  Ok (if truthy v then v else Some (HStr "Unassigned"))).

(** The name the report shows for a key:
    [t ? `${t.firstName} ${t.lastName}` : 'Unassigned'] for the teacher
    [find] returns. *)
Definition teacher_name (h : heap) (state : hval) (teacherId : string)
  : res text :=
  rbind (get_prop h (Some state) "teachers") (fun teachers =>
  rbind (Array_find h teachers (field_is "id" (Some (HStr teacherId)))) (fun t =>
  if truthy t then
    rbind (rbind (get_prop h t "firstName") (String_ h)) (fun first =>
    rbind (rbind (get_prop h t "lastName") (String_ h)) (fun last =>
    Ok (first ++ [SP] ++ last)))
  else Ok (chars "Unassigned"))).

Section teacher_report.

Context {engine : Engine}.

(** The rows of the report: a name and a number of classes for each entry
    of the groups. *)
Definition teacherLoad_rows (w : World) : res (list (text * nat)) :=
  rbind (get_prop (heap_of w) (Some (app_state w)) "classes") (fun classes =>
  rbind (groupBy (heap_of w) classes (Computed teacherId_or_Unassigned)) (fun acc =>
  rmap (fun e : string * list hval =>
          rbind (teacher_name (heap_of w) (app_state w) e.1) (fun name =>
          Ok (name, length e.2)))
       (Object_entries acc))).

Definition row_html (r : text * nat) : text :=
  chars "<tr><td>" ++ escapeHtml r.1 ++ chars "</td><td>" ++
  chars (pretty r.2) ++ chars "</td></tr>".

Definition no_data : text :=
  chars "<tr><td colspan=" ++ [DQ] ++ chars "2" ++ [DQ] ++
  chars ">No data</td></tr>".

(** What [renderReportOutput('teacherLoad')] puts into the body of the
    table: the rows joined, or the row that says there is no data. *)
Definition teacherLoad (w : World) : res text :=
  rbind (teacherLoad_rows w) (fun rows =>
  Ok (match concat (row_html <$> rows) with
      | [] => no_data
      | html => html
      end)).

(** The key a class is grouped under, and the name shown for a key. *)
Definition teacher_key (h : heap) (c : hval) : string :=
  let v := field h c "teacherId" in
  of_chars (shown h (if truthy v then v else Some (HStr "Unassigned"))).

Definition teacher_label (h : heap) (ts : list hval) (k : string) : text :=
  match list_find (fun t => field h t "id" = Some (HStr k)) ts with
  | Some (_, t) =>
      shown h (field h t "firstName") ++ [SP] ++ shown h (field h t "lastName")
  | None => chars "Unassigned"
  end.

Lemma insert_by_index_perm i e l : insert_by_index i e l ≡ₚ (i, e) :: l.
Proof.
  induction l as [|[j e'] l IH]; [done|]. cbn [insert_by_index].
  destruct (i <? j)%N; [done|]. rewrite IH. apply Permutation_swap.
Qed.

Lemma Object_entries_perm acc : Object_entries acc ≡ₚ acc.
Proof.
  unfold Object_entries. induction acc as [|e acc IH]; [done|].
  cbn [index_entries].
  rewrite (filter_cons (fun e : string * list hval => entry_index e.1 = None)).
  destruct (entry_index e.1) as [i|] eqn:Hi.
  - rewrite decide_False by done. rewrite insert_by_index_perm.
    rewrite fmap_cons. cbn [snd app]. by rewrite IH.
  - rewrite decide_True by done. rewrite <- Permutation_middle. by rewrite IH.
Qed.

Lemma rmap_ok {A B} (f : A -> res B) (g : A -> B) l :
  Forall (fun x => f x = Ok (g x)) l -> rmap f l = Ok (g <$> l).
Proof.
  induction 1 as [|x l Hx _ IH]; [done|]. cbn [rmap]. by rewrite Hx, IH.
Qed.

Lemma find_res_records (p : hval -> res bool) (P : hval -> Prop)
    `{!forall r, Decision (P r)} vs :
  Forall (fun r => p r = Ok (bool_decide (P r))) vs ->
  find_res p vs = Ok (snd <$> list_find P vs).
Proof.
  induction 1 as [|v vs Hv _ IH]; [done|]. cbn [find_res list_find].
  rewrite Hv. destruct (decide (P v)) as [HP|HP].
  - by rewrite bool_decide_eq_true_2.
  - rewrite bool_decide_eq_false_2 by done. rewrite IH.
    by destruct (list_find P vs) as [[? ?]|].
Qed.

Lemma teacher_key_run h c :
  flat_record h c = true ->
  group_key h (Computed teacherId_or_Unassigned) c = Ok (teacher_key h c).
Proof.
  intros Hflat. unfold group_key, teacherId_or_Unassigned, teacher_key.
  rewrite (get_prop_field _ _ _ Hflat). cbn [rbind String_member].
  pose proof (field_prim h c "teacherId" Hflat) as Hprim.
  rewrite shown_prim; [done|].
  destruct (field h c "teacherId") as [v|]; [|done]. by destruct (truthy (Some v)).
Qed.

Lemma teacher_name_run w st sm al el k :
  shape w st sm al el ->
  teacher_name (heap_of w) (app_state w) k =
  Ok (teacher_label (heap_of w) (el Teachers) k).
Proof.
  intros S. unfold teacher_name, teacher_label.
  rewrite (sh_state _ _ _ _ _ S).
  assert (record (heap_of w) (HRef st) = Some sm) as Hst
    by (unfold record; by rewrite (sh_obj _ _ _ _ _ S)).
  rewrite (get_prop_record _ _ _ "teachers" Hst).
  pose proof (sh_loc _ _ _ _ _ S Teachers) as Hloc. cbn [kind_name] in Hloc.
  rewrite Hloc. cbn [rbind].
  unfold Array_find. rewrite (elements_arr _ _ _ (sh_arr _ _ _ _ _ S Teachers)).
  cbn [rbind].
  rewrite (find_res_records _
             (fun t => field (heap_of w) t "id" = Some (HStr k))).
  2:{ apply Forall_forall. intros t Ht.
      pose proof (sh_rec _ _ _ _ _ S Teachers t Ht) as Hflat.
      unfold field_is. rewrite (get_prop_field _ _ _ Hflat).
      unfold strict_eq. done. }
  cbn [rbind]. destruct (list_find _ (el Teachers)) as [[i t]|] eqn:Hfind; [|done].
  cbn [fmap option_fmap option_map snd].
  apply list_find_Some in Hfind as (Hi & _ & _).
  pose proof (sh_rec _ _ _ _ _ S Teachers t (list_elem_of_lookup_2 _ _ _ Hi)) as Hflat.
  destruct (flat_record_inv _ _ Hflat) as (l & m & -> & _ & _). cbn [truthy].
  rewrite !(get_prop_field _ _ _ Hflat). cbn [rbind].
  rewrite !shown_prim by (by apply field_prim). done.
Qed.

Lemma teacherLoad_rows_run w st sm al el :
  shape w st sm al el ->
  Forall (fun c => teacher_key (heap_of w) c ∉ Object_prototype_names)
         (el Classes) ->
  teacherLoad_rows w =
  Ok ((fun e : string * list hval =>
         (teacher_label (heap_of w) (el Teachers) e.1, length e.2)) <$>
      Object_entries (groups_of (teacher_key (heap_of w)) (el Classes))).
Proof.
  intros S Hproto. unfold teacherLoad_rows.
  rewrite (sh_state _ _ _ _ _ S).
  assert (record (heap_of w) (HRef st) = Some sm) as Hst
    by (unfold record; by rewrite (sh_obj _ _ _ _ _ S)).
  rewrite (get_prop_record _ _ _ "classes" Hst).
  pose proof (sh_loc _ _ _ _ _ S Classes) as Hloc. cbn [kind_name] in Hloc.
  rewrite Hloc. cbn [rbind]. unfold groupBy.
  rewrite (elements_arr _ _ _ (sh_arr _ _ _ _ _ S Classes)).
  assert (groupBy_from (heap_of w) (Computed teacherId_or_Unassigned)
            (el Classes) [] =
          Ok (groups_of (teacher_key (heap_of w)) (el Classes))) as ->.
  { apply (groupBy_from_groups _ _ (teacher_key (heap_of w)) (el Classes) []);
      [|done].
    apply Forall_forall. intros c Hc. apply teacher_key_run.
    by apply (sh_rec _ _ _ _ _ S Classes). }
  cbn [rbind]. apply rmap_ok, Forall_forall. intros [k g] _. cbn [fst snd].
  rewrite <- (sh_state _ _ _ _ _ S).
  by rewrite (teacher_name_run _ _ _ _ _ k S).
Qed.

(** X19. The teacher-load report on a well-formed snapshot, when no class
    has a [teacherId] that names an inherited property of objects.  There
    is one row for each key among the classes, the key of a class being
    the text of its [teacherId] (that of a number as [Number_toString]
    prints it), or [Unassigned] when that is empty or missing; the row
    shows the first and last name of the first teacher whose id is that
    text, or [Unassigned] when there is none, and the number of classes of
    that key.  So every row counts at least one class, and a snapshot
    without classes gives no row at all, but the line that says there is
    no data. *)
Theorem teacherLoad_report (w : World) (cs ts : list hval) :
  well_formed w = true ->
  collection w Classes = Some cs ->
  collection w Teachers = Some ts ->
  Forall (fun c => teacher_key (heap_of w) c ∉ Object_prototype_names) cs ->
  exists rows,
    teacherLoad_rows w = Ok rows /\
    rows ≡ₚ (fun k => (teacher_label (heap_of w) ts k,
                        length (filter (fun c => teacher_key (heap_of w) c = k) cs)))
             <$> firsts (teacher_key (heap_of w) <$> cs) /\
    Forall (fun r : text * nat => 1 <= r.2) rows /\
    teacherLoad w =
      Ok (match cs with [] => no_data | _ => concat (row_html <$> rows) end).
Proof.
  intros (st & sm & al & el & S)%well_formed_shape Hcs Hts Hproto.
  rewrite (collection_shape _ _ _ _ _ Classes S) in Hcs. injection Hcs as <-.
  rewrite (collection_shape _ _ _ _ _ Teachers S) in Hts. injection Hts as <-.
  pose proof (teacherLoad_rows_run _ _ _ _ _ S Hproto) as Hrun.
  set (h := heap_of w) in *.
  set (g := fun e : string * list hval =>
              (teacher_label h (el Teachers) e.1, length e.2)) in *.
  assert (g <$> Object_entries (groups_of (teacher_key h) (el Classes)) ≡ₚ
          (fun k => (teacher_label h (el Teachers) k,
                     length (filter (fun c => teacher_key h c = k) (el Classes))))
          <$> firsts (teacher_key h <$> el Classes)) as Hperm.
  { rewrite Object_entries_perm. unfold groups_of.
    by rewrite <- list_fmap_compose. }
  eexists. split_and!; [exact Hrun|exact Hperm| |].
  - rewrite Hperm. apply Forall_fmap, Forall_forall. intros k Hk. simpl.
    apply elem_of_firsts, list_elem_of_fmap in Hk as (c & -> & Hc).
    assert (c ∈ filter (fun c' => teacher_key h c' = teacher_key h c) (el Classes))
      as Hin by (by apply list_elem_of_filter).
    destruct (filter _ (el Classes)); [by apply elem_of_nil in Hin|simpl; lia].
  - unfold teacherLoad. rewrite Hrun. cbn [rbind].
    destruct (el Classes) as [|c cs'] eqn:Hcls; [done|].
    destruct (g <$> Object_entries (groups_of (teacher_key h) (c :: cs')))
      as [|r rows] eqn:Hrows.
    + apply Permutation_nil_l in Hperm. symmetry in Hperm.
      by apply fmap_nil_inv in Hperm.
    + cbn [fmap list_fmap concat]. unfold row_html at 1. done.
Qed.

End teacher_report.

Lemma teacherLoad_report_witness :
  teacherLoad_rows (engine := V8) school =
    Ok [(chars "Tara One", 1); (chars "Unassigned", 1)] /\
  Forall (fun r : text * nat => 1 <= r.2)
         [(chars "Tara One", 1); (chars "Unassigned", 1)].
Proof.
  assert (well_formed school = true) as Hwf by (vm_compute; reflexivity).
  assert (collection school Classes = Some [HRef 6; HRef 11]) as Hcs
    by (vm_compute; reflexivity).
  assert (collection school Teachers = Some [HRef 5]) as Hts
    by (vm_compute; reflexivity).
  assert (Forall (fun c => teacher_key (heap_of school) c ∉ Object_prototype_names)
                 [HRef 6; HRef 11]) as Hproto.
  { repeat (constructor;
      [intros H; unfold Object_prototype_names in H;
       repeat (apply elem_of_cons in H as [H|H]; [vm_compute in H; discriminate|]);
       by apply elem_of_nil in H|]).
    constructor. }
  destruct (teacherLoad_report (engine := V8) school [HRef 6; HRef 11] [HRef 5]
              Hwf Hcs Hts Hproto)
    as (rows & Hrun & _ & Hpos & _).
  assert (teacherLoad_rows (engine := V8) school =
            Ok [(chars "Tara One", 1); (chars "Unassigned", 1)]) as E
    by (vm_compute; reflexivity).
  assert (rows = [(chars "Tara One", 1); (chars "Unassigned", 1)]) as ->
    by congruence.
  exact (conj E Hpos).
Defined.

(** ** The enrollment report *)

(** [e => e.classId]. *)
Definition classId_of (h : heap) (e : hval) : res (option hval) :=
  get_prop h (Some e) "classId".

(** The row of a group: none when no class has the key as its id (the
    callback returns the empty string); else the name and the code of the
    first such class, and the number of the enrollments of the group whose
    status is [enrolled]. *)
Definition enrollment_row (h : heap) (state : hval) (e : string * list hval)
  : res (option (text * text * nat)) :=
  rbind (get_prop h (Some state) "classes") (fun classes =>
  rbind (Array_find h classes (field_is "id" (Some (HStr e.1)))) (fun klass =>
  if negb (truthy klass) then Ok None
  else
    rbind (filter_res (field_is "status" (Some (HStr "enrolled")) h) e.2)
          (fun enrolled =>
    rbind (rbind (get_prop h klass "name") (String_ h)) (fun name =>
    rbind (rbind (get_prop h klass "code") (String_ h)) (fun code =>
    Ok (Some (name, code, length enrolled))))))).

(** The text of a row. *)
Definition enrollment_html (r : option (text * text * nat)) : text :=
  match r with
  | None => []
  | Some (name, code, count) =>
      chars "<tr><td>" ++ escapeHtml name ++ chars "</td><td>" ++
      escapeHtml code ++ chars "</td><td>" ++ chars (pretty count) ++
      chars "</td></tr>"
  end.

Definition no_data3 : text :=
  chars "<tr><td colspan=" ++ [DQ] ++ chars "3" ++ [DQ] ++
  chars ">No data</td></tr>".

(** The key an enrollment is grouped under, whether it counts, and the
    row of a key. *)
Definition class_key (h : heap) (e : hval) : string :=
  of_chars (shown h (field h e "classId")).

Definition is_enrolled (h : heap) (e : hval) : bool :=
  bool_decide (field h e "status" = Some (HStr "enrolled")).

Definition class_row (h : heap) (cs es : list hval) (k : string)
  : option (text * text * nat) :=
  match list_find (fun c => field h c "id" = Some (HStr k)) cs with
  | Some (_, c) =>
      Some (shown h (field h c "name"), shown h (field h c "code"),
            length (filter (fun e => is_enrolled h e = true /\ class_key h e = k)
                           es))
  | None => None
  end.

Lemma enrollment_html_none rows :
  Forall (fun r => r = None) rows -> concat (enrollment_html <$> rows) = [].
Proof. induction 1 as [|r rows -> _ IH]; [done|]. by rewrite fmap_cons. Qed.

Lemma enrollment_row_run w st sm al el k g :
  shape w st sm al el ->
  g = filter (fun e => class_key (heap_of w) e = k) (el Enrollments) ->
  enrollment_row (heap_of w) (app_state w) (k, g) =
  Ok (class_row (heap_of w) (el Classes) (el Enrollments) k).
Proof.
  intros Sh ->. unfold enrollment_row, class_row. cbn [fst snd].
  rewrite (sh_state _ _ _ _ _ Sh).
  assert (record (heap_of w) (HRef st) = Some sm) as Hst
    by (unfold record; by rewrite (sh_obj _ _ _ _ _ Sh)).
  rewrite (get_prop_record _ _ _ "classes" Hst).
  pose proof (sh_loc _ _ _ _ _ Sh Classes) as Hloc. cbn [kind_name] in Hloc.
  rewrite Hloc. cbn [rbind].
  unfold Array_find. rewrite (elements_arr _ _ _ (sh_arr _ _ _ _ _ Sh Classes)).
  cbn [rbind].
  rewrite (find_res_records _
             (fun c => field (heap_of w) c "id" = Some (HStr k))).
  2:{ apply Forall_forall. intros c Hc.
      pose proof (sh_rec _ _ _ _ _ Sh Classes c Hc) as Hflat.
      unfold field_is. by rewrite (get_prop_field _ _ _ Hflat). }
  cbn [rbind]. destruct (list_find _ (el Classes)) as [[i c]|] eqn:Hfind; [|done].
  cbn [fmap option_fmap option_map snd].
  apply list_find_Some in Hfind as (Hi & _ & _).
  pose proof (sh_rec _ _ _ _ _ Sh Classes c (list_elem_of_lookup_2 _ _ _ Hi)) as Hflat.
  destruct (flat_record_inv _ _ Hflat) as (l & m & -> & _ & _). cbn [truthy negb].
  rewrite (filter_res_records _ (fun e => is_enrolled (heap_of w) e = true)).
  2:{ apply Forall_forall. intros e [_ He]%list_elem_of_filter.
      pose proof (sh_rec _ _ _ _ _ Sh Enrollments e He) as Hf.
      unfold field_is, is_enrolled. rewrite (get_prop_field _ _ _ Hf).
      unfold strict_eq. f_equal.
      by destruct (bool_decide (field (heap_of w) e "status" = Some (HStr "enrolled"))). }
  cbn [rbind]. rewrite !(get_prop_field _ _ _ Hflat). cbn [rbind].
  rewrite !shown_prim by (by apply field_prim). cbn [rbind].
  do 3 f_equal. by rewrite list_filter_filter.
Qed.

Section enrollment_report.

Context {engine : Engine}.

(** The rows of the report, one for each entry of the groups. *)
Definition enrollment_rows (w : World)
  : res (list (option (text * text * nat))) :=
  rbind (get_prop (heap_of w) (Some (app_state w)) "enrollments") (fun enrollments =>
  rbind (groupBy (heap_of w) enrollments (Computed classId_of)) (fun acc =>
  rmap (enrollment_row (heap_of w) (app_state w)) (Object_entries acc))).

(** What [renderReportOutput('enrollmentByClass')] puts into the body of
    the table. *)
Definition enrollmentByClass (w : World) : res text :=
  rbind (enrollment_rows w) (fun rows =>
  Ok (match concat (enrollment_html <$> rows) with
      | [] => no_data3
      | html => html
      end)).

Lemma class_key_run h e :
  flat_record h e = true ->
  group_key h (Computed classId_of) e = Ok (class_key h e).
Proof.
  intros Hflat. unfold group_key, classId_of, class_key.
  rewrite (get_prop_field _ _ _ Hflat). cbn [rbind String_member].
  by rewrite shown_prim by (by apply field_prim).
Qed.

(** X26. The enrollment report on a well-formed snapshot, when no
    enrollment has a [classId] whose text names an inherited property of
    objects.  The enrollments are grouped by the text of their [classId].
    A group whose key is the id of no class gives no row.  Every other
    group gives one row, with the name and the code of the first class of
    that id and the number of enrollments of the group whose status is
    [enrolled]: a class of which every enrollment has another status is
    shown with zero, while a class without any enrollment is not shown.
    When no group gives a row, the body is the line that says there is no
    data. *)
Theorem enrollmentByClass_report (w : World) (es cs : list hval) :
  well_formed w = true ->
  collection w Enrollments = Some es ->
  collection w Classes = Some cs ->
  Forall (fun e => class_key (heap_of w) e ∉ Object_prototype_names) es ->
  exists rows,
    enrollment_rows w = Ok rows /\
    rows ≡ₚ class_row (heap_of w) cs es <$> firsts (class_key (heap_of w) <$> es) /\
    enrollmentByClass w =
      Ok (match concat (enrollment_html <$> rows) with
          | [] => no_data3
          | html => html
          end) /\
    (Forall (fun r => r = None) rows -> enrollmentByClass w = Ok no_data3).
Proof.
  intros (st & sm & al & el & Sh)%well_formed_shape Hes Hcs Hproto.
  rewrite (collection_shape _ _ _ _ _ Enrollments Sh) in Hes. injection Hes as <-.
  rewrite (collection_shape _ _ _ _ _ Classes Sh) in Hcs. injection Hcs as <-.
  assert (enrollment_rows w =
          Ok ((fun e : string * list hval =>
                 class_row (heap_of w) (el Classes) (el Enrollments) e.1)
              <$> Object_entries (groups_of (class_key (heap_of w)) (el Enrollments))))
    as Hrun.
  { unfold enrollment_rows. rewrite (sh_state _ _ _ _ _ Sh).
    assert (record (heap_of w) (HRef st) = Some sm) as Hst
      by (unfold record; by rewrite (sh_obj _ _ _ _ _ Sh)).
    rewrite (get_prop_record _ _ _ "enrollments" Hst).
    pose proof (sh_loc _ _ _ _ _ Sh Enrollments) as Hloc. cbn [kind_name] in Hloc.
    rewrite Hloc. cbn [rbind]. unfold groupBy.
    rewrite (elements_arr _ _ _ (sh_arr _ _ _ _ _ Sh Enrollments)).
    assert (groupBy_from (heap_of w) (Computed classId_of) (el Enrollments) [] =
            Ok (groups_of (class_key (heap_of w)) (el Enrollments))) as ->.
    { apply (groupBy_from_groups _ _ (class_key (heap_of w)) (el Enrollments) []);
        [|done].
      apply Forall_forall. intros e He. apply class_key_run.
      by apply (sh_rec _ _ _ _ _ Sh Enrollments). }
    cbn [rbind]. apply rmap_ok, Forall_forall. intros [k g] Hkg.
    rewrite <- (sh_state _ _ _ _ _ Sh). cbn [fst].
    apply (enrollment_row_run _ _ _ _ _ k g Sh).
    rewrite Object_entries_perm in Hkg. unfold groups_of in Hkg.
    apply list_elem_of_fmap in Hkg as (k' & [= -> ->] & _). done. }
  eexists. split; [exact Hrun|]. split_and!.
  - rewrite Object_entries_perm. unfold groups_of.
    by rewrite <- list_fmap_compose.
  - unfold enrollmentByClass. by rewrite Hrun.
  - intros Hnone. unfold enrollmentByClass. rewrite Hrun. cbn [rbind].
    by rewrite (enrollment_html_none _ Hnone).
Qed.

End enrollment_report.

Lemma enrollmentByClass_report_witness :
  enrollment_rows (engine := V8) school =
    Ok [Some (chars "Algebra I", chars "MATH101", 2);
        Some (chars "Biology", chars "SCI201", 0)] /\
  [Some (chars "Algebra I", chars "MATH101", 2);
   Some (chars "Biology", chars "SCI201", 0)]
    ≡ₚ class_row (heap_of school) [HRef 6; HRef 11] [HRef 8; HRef 12; HRef 13]
         <$> firsts (class_key (heap_of school) <$> [HRef 8; HRef 12; HRef 13]).
Proof.
  assert (well_formed school = true) as Hwf by (vm_compute; reflexivity).
  assert (collection school Enrollments = Some [HRef 8; HRef 12; HRef 13]) as Hes
    by (vm_compute; reflexivity).
  assert (collection school Classes = Some [HRef 6; HRef 11]) as Hcs
    by (vm_compute; reflexivity).
  assert (Forall (fun e => class_key (heap_of school) e ∉ Object_prototype_names)
                 [HRef 8; HRef 12; HRef 13]) as Hproto.
  { repeat (constructor;
      [intros H; unfold Object_prototype_names in H;
       repeat (apply elem_of_cons in H as [H|H]; [vm_compute in H; discriminate|]);
       by apply elem_of_nil in H|]).
    constructor. }
  destruct (enrollmentByClass_report (engine := V8) school
              [HRef 8; HRef 12; HRef 13] [HRef 6; HRef 11] Hwf Hes Hcs Hproto)
    as (rows & Hrun & Hperm & _).
  assert (enrollment_rows (engine := V8) school =
            Ok [Some (chars "Algebra I", chars "MATH101", 2);
                Some (chars "Biology", chars "SCI201", 0)]) as E
    by (vm_compute; reflexivity).
  assert (rows = [Some (chars "Algebra I", chars "MATH101", 2);
                  Some (chars "Biology", chars "SCI201", 0)]) as <-
    by congruence.
  exact (conj Hrun Hperm).
Defined.

(** ** The report of students by grade *)

(** [s => s.grade ?? 'Unknown']. *)
Definition grade_or_Unknown (h : heap) (s : hval) : res (option hval) :=
  rbind (get_prop h (Some s) "grade") (fun v =>
  Ok (nullish_or v (HStr "Unknown"))).

(** The key a student is grouped under. *)
Definition grade_key (h : heap) (s : hval) : string :=
  of_chars (shown h (nullish_or (field h s "grade") (HStr "Unknown"))).

(** Every element is counted under exactly one of its keys. *)
Lemma count_one (ks : list string) (k : string) :
  NoDup ks -> k ∈ ks ->
  sum_list ((fun k' => if decide (k = k') then 1 else 0) <$> ks) = 1.
Proof.
  induction 1 as [|k' ks Hnot _ IH]; [by intros ?%elem_of_nil|].
  intros Hin. cbn [fmap list_fmap sum_list sum_list_with].
  destruct (decide (k = k')) as [->|Hne].
  - assert (sum_list ((fun k'' => if decide (k' = k'') then 1 else 0) <$> ks) = 0)
      as ->; [|done].
    clear IH Hin. induction ks as [|x ks IH]; [done|].
    cbn [fmap list_fmap sum_list sum_list_with].
    apply not_elem_of_cons in Hnot as [Hx Hks].
    rewrite decide_False by done. by rewrite IH.
  - apply elem_of_cons in Hin as [?|Hin]; [done|]. by rewrite IH.
Qed.

Lemma count_groups {A} (keyf : A -> string) (ks : list string) (vs : list A) :
  NoDup ks -> Forall (fun x => keyf x ∈ ks) vs ->
  sum_list ((fun k => length (filter (fun x => keyf x = k) vs)) <$> ks) =
  length vs.
Proof.
  intros Hnd. induction 1 as [|x vs Hx _ IH].
  - induction ks as [|k ks IHk]; [done|].
    cbn [fmap list_fmap sum_list sum_list_with].
    apply NoDup_cons in Hnd as [_ Hnd]. by rewrite (IHk Hnd).
  - assert (sum_list ((fun k => length (filter (fun y => keyf y = k) (x :: vs))) <$> ks) =
            sum_list ((fun k' => if decide (keyf x = k') then 1 else 0) <$> ks) +
            sum_list ((fun k => length (filter (fun y => keyf y = k) vs)) <$> ks))
      as ->.
    { clear. induction ks as [|k ks IHk]; [done|].
      cbn [fmap list_fmap sum_list sum_list_with]. rewrite IHk, filter_cons.
      destruct (decide (keyf x = k)); cbn [length]; unfold id; lia. }
    rewrite IH, (count_one ks (keyf x) Hnd Hx). done.
Qed.

Section grade_report.

Context {engine : Engine}.

(** [a.localeCompare(b)], as for [sortBy]. *)
Variable localeCompare : text -> text -> Z.

(** [entries.sort((a, b) => a[0].localeCompare(b[0]))]: the entries in
    ascending order of their names, those that compare equal in their
    former order; by insertion from the right. *)
Fixpoint insert_entry (x : string * list hval) (l : groups) : groups :=
  match l with
  | [] => [x]
  | y :: r =>
      if (localeCompare (chars x.1) (chars y.1) <=? 0)%Z then x :: l
      else y :: insert_entry x r
  end.

Definition sort_entries (l : groups) : groups := foldr insert_entry [] l.

(** The rows of the report: the name of a group and its size. *)
Definition grade_rows (w : World) : res (list (text * nat)) :=
  rbind (get_prop (heap_of w) (Some (app_state w)) "students") (fun students =>
  rbind (groupBy (heap_of w) students (Computed grade_or_Unknown)) (fun acc =>
  Ok ((fun e : string * list hval => (chars e.1, length e.2)) <$>
      sort_entries (Object_entries acc)))).

(** What [renderReportOutput('studentsByGrade')] puts into the body of
    the table; the rows have the form of those of the teacher report. *)
Definition studentsByGrade (w : World) : res text :=
  rbind (grade_rows w) (fun rows =>
  Ok (match concat (row_html <$> rows) with
      | [] => no_data
      | html => html
      end)).

(** The labels ascend: each is below every later one. *)
Fixpoint labels_ascending (l : list text) : Prop :=
  match l with
  | [] => True
  | x :: r => Forall (fun y => (localeCompare x y <= 0)%Z) r /\ labels_ascending r
  end.

Lemma grade_key_run h s :
  flat_record h s = true ->
  group_key h (Computed grade_or_Unknown) s = Ok (grade_key h s).
Proof.
  intros Hflat. unfold group_key, grade_or_Unknown, grade_key.
  rewrite (get_prop_field _ _ _ Hflat). cbn [rbind String_member].
  pose proof (field_prim h s "grade" Hflat) as Hprim.
  rewrite shown_prim; [done|].
  destruct (field h s "grade") as [[]|]; done.
Qed.

Lemma insert_entry_perm x l : insert_entry x l ≡ₚ x :: l.
Proof.
  induction l as [|y r IH]; [done|]. cbn [insert_entry].
  destruct (_ <=? 0)%Z; [done|]. rewrite IH. apply Permutation_swap.
Qed.

Lemma sort_entries_perm l : sort_entries l ≡ₚ l.
Proof.
  induction l as [|x l IH]; [done|]. cbn [sort_entries foldr].
  rewrite insert_entry_perm. by apply Permutation_skip.
Qed.

Section order.

Hypothesis compare_trans : forall a b c,
  (localeCompare a b <= 0)%Z -> (localeCompare b c <= 0)%Z ->
  (localeCompare a c <= 0)%Z.
Hypothesis compare_total : forall a b,
  (localeCompare a b <= 0)%Z \/ (localeCompare b a <= 0)%Z.

Lemma insert_entry_ascending x l :
  labels_ascending ((fun e : string * list hval => chars e.1) <$> l) ->
  labels_ascending ((fun e : string * list hval => chars e.1) <$> insert_entry x l).
Proof.
  induction l as [|y r IH]; [by repeat constructor|].
  intros [Hy Hr]. cbn [insert_entry].
  destruct (_ <=? 0)%Z eqn:Hc.
  - apply Z.leb_le in Hc. rewrite !fmap_cons. cbn [labels_ascending].
    split_and!; [|done|done].
    constructor; [done|]. eapply Forall_impl; [exact Hy|].
    intros z Hz. by eapply compare_trans.
  - apply Z.leb_gt in Hc. rewrite fmap_cons. cbn [labels_ascending].
    split; [|by apply IH].
    rewrite insert_entry_perm, fmap_cons. constructor; [|done].
    destruct (compare_total (chars x.1) (chars y.1)); [lia|done].
Qed.

Lemma sort_entries_ascending l :
  labels_ascending ((fun e : string * list hval => chars e.1) <$> sort_entries l).
Proof.
  induction l as [|x l IH]; [done|]. by apply insert_entry_ascending.
Qed.

(** X27. The report of students by grade on a well-formed snapshot, when
    no student has a grade whose text names an inherited property of
    objects, for a [localeCompare] that is transitive and total.  A student
    is grouped under the text of the grade, and under [Unknown] only when
    the record has no grade or the grade is [null]: a student whose grade
    is the empty string, as the student form stores a grade left open, is
    counted in a row with an empty label.  There is one row for each key
    that occurs, with the number of students of that key, which is never
    zero; the rows are in ascending order of their labels, and together
    they count every student once. *)
Theorem studentsByGrade_report (w : World) (ss : list hval) :
  well_formed w = true ->
  collection w Students = Some ss ->
  Forall (fun s => grade_key (heap_of w) s ∉ Object_prototype_names) ss ->
  exists rows,
    grade_rows w = Ok rows /\
    rows ≡ₚ (fun k => (chars k,
                        length (filter (fun s => grade_key (heap_of w) s = k) ss)))
             <$> firsts (grade_key (heap_of w) <$> ss) /\
    labels_ascending (rows.*1) /\
    Forall (fun r : text * nat => 1 <= r.2) rows /\
    sum_list (rows.*2) = length ss /\
    (forall s, s ∈ ss -> field (heap_of w) s "grade" = Some (HStr "") ->
       exists n, ([], n) ∈ rows) /\
    studentsByGrade w =
      Ok (match ss with [] => no_data | _ => concat (row_html <$> rows) end).
Proof.
  intros (st & sm & al & el & Sh)%well_formed_shape Hss Hproto.
  rewrite (collection_shape _ _ _ _ _ Students Sh) in Hss. injection Hss as <-.
  set (h := heap_of w) in *.
  set (g := fun e : string * list hval => (chars e.1, length e.2)).
  assert (grade_rows w =
          Ok (g <$> sort_entries (Object_entries (groups_of (grade_key h) (el Students)))))
    as Hrun.
  { unfold grade_rows. rewrite (sh_state _ _ _ _ _ Sh).
    assert (record (heap_of w) (HRef st) = Some sm) as Hst
      by (unfold record; by rewrite (sh_obj _ _ _ _ _ Sh)).
    rewrite (get_prop_record _ _ _ "students" Hst).
    pose proof (sh_loc _ _ _ _ _ Sh Students) as Hloc. cbn [kind_name] in Hloc.
    rewrite Hloc. cbn [rbind]. unfold groupBy.
    rewrite (elements_arr _ _ _ (sh_arr _ _ _ _ _ Sh Students)).
    assert (groupBy_from (heap_of w) (Computed grade_or_Unknown) (el Students) [] =
            Ok (groups_of (grade_key h) (el Students))) as ->; [|done].
    apply (groupBy_from_groups _ _ (grade_key h) (el Students) []); [|done].
    apply Forall_forall. intros s Hs. apply grade_key_run.
    by apply (sh_rec _ _ _ _ _ Sh Students). }
  assert (g <$> sort_entries (Object_entries (groups_of (grade_key h) (el Students))) ≡ₚ
          (fun k => (chars k,
                     length (filter (fun s => grade_key h s = k) (el Students))))
          <$> firsts (grade_key h <$> el Students)) as Hperm.
  { rewrite sort_entries_perm, Object_entries_perm. unfold groups_of.
    by rewrite <- list_fmap_compose. }
  assert (Forall (fun r : text * nat => 1 <= r.2)
            (g <$> sort_entries (Object_entries (groups_of (grade_key h) (el Students)))))
    as Hpos.
  { rewrite Hperm. apply Forall_fmap, Forall_forall. intros k Hk. simpl.
    apply elem_of_firsts, list_elem_of_fmap in Hk as (s & -> & Hs).
    assert (s ∈ filter (fun s' => grade_key h s' = grade_key h s) (el Students))
      as Hin by (by apply list_elem_of_filter).
    destruct (filter _ (el Students)); [by apply elem_of_nil in Hin|simpl; lia]. }
  eexists. split_and!; [exact Hrun|exact Hperm| |exact Hpos| | |].
  - rewrite <- list_fmap_compose. apply sort_entries_ascending.
  - rewrite Hperm, <- list_fmap_compose.
    apply (count_groups (grade_key h)); [apply NoDup_firsts|].
    apply Forall_forall. intros s Hs.
    apply elem_of_firsts, list_elem_of_fmap. by exists s.
  - intros s Hs Hgrade.
    exists (length (filter (fun s' => grade_key h s' = "") (el Students))).
    rewrite Hperm. apply list_elem_of_fmap. exists "". split; [done|].
    apply elem_of_firsts, list_elem_of_fmap. exists s. split; [|done].
    unfold grade_key. fold h. by rewrite Hgrade.
  - unfold studentsByGrade. rewrite Hrun. cbn [rbind].
    destruct (el Students) as [|s ss'] eqn:Hsts; [done|].
    destruct (g <$> sort_entries (Object_entries (groups_of (grade_key h) (s :: ss'))))
      as [|r rows] eqn:Hrows.
    + apply Permutation_nil_l in Hperm. symmetry in Hperm.
      by apply fmap_nil_inv in Hperm.
    + cbn [fmap list_fmap concat]. unfold row_html at 1. done.
Qed.

End order.
End grade_report.

(** A comparison for the examples: by the code of the first character. *)
Definition by_first (x y : text) : Z :=
  (Z.of_N (N_of_ascii (default "000"%char (head x))) -
   Z.of_N (N_of_ascii (default "000"%char (head y))))%Z.

(** The school with a student whose grade was left open in the form. *)
Definition school_open_grade : World :=
  snd ((s4 <- new_record [("id", "s4"); ("firstName", "Max"); ("lastName", "Moe");
                          ("grade", ""); ("dob", ""); ("email", "")] ;;
        Data_add "students" s4) school).

Lemma studentsByGrade_report_witness :
  grade_rows (engine := V8) by_first school_open_grade =
    Ok [([], 1); (chars "3", 2); (chars "4", 1)] /\
  sum_list ([([], 1); (chars "3", 2); (chars "4", 1)].*2) = 4 /\
  labels_ascending by_first ([([], 1); (chars "3", 2); (chars "4", 1)].*1).
Proof.
  assert (well_formed school_open_grade = true) as Hwf by (vm_compute; reflexivity).
  assert (collection school_open_grade Students =
            Some [HRef 7; HRef 9; HRef 10; HRef 14]) as Hss
    by (vm_compute; reflexivity).
  assert (Forall (fun s => grade_key (heap_of school_open_grade) s
                             ∉ Object_prototype_names)
                 [HRef 7; HRef 9; HRef 10; HRef 14]) as Hproto.
  { repeat (constructor;
      [intros H; unfold Object_prototype_names in H;
       repeat (apply elem_of_cons in H as [H|H]; [vm_compute in H; discriminate|]);
       by apply elem_of_nil in H|]).
    constructor. }
  destruct (studentsByGrade_report (engine := V8) by_first
              ltac:(unfold by_first; intros x y z; lia)
              ltac:(unfold by_first; intros x y; lia)
              school_open_grade [HRef 7; HRef 9; HRef 10; HRef 14] Hwf Hss Hproto)
    as (rows & Hrun & _ & Hasc & _ & Hsum & _).
  assert (grade_rows (engine := V8) by_first school_open_grade =
            Ok [([], 1); (chars "3", 2); (chars "4", 1)]) as E
    by (vm_compute; reflexivity).
  assert (rows = [([], 1); (chars "3", 2); (chars "4", 1)]) as <- by congruence.
  exact (conj Hrun (conj Hsum Hasc)).
Defined.

(** ** [sortBy] *)

(** The text of a primitive member of a document, as [String] gives it for
    the value [JSON.parse] makes of it. *)
Definition doc_text (j : value) : text :=
  match j with
  | VNull => chars "null"
  | VBool b => chars (if b then "true" else "false")
  | VNum n => Number_toString n
  | VStr s => chars s
  | VArr _ | VObj _ => []
  end.

(** The sort key of a record document under a property name: the text of
    [x[key] ?? ''].  Without a member of that name, it is the text of the
    member [Object.prototype] has under the name, if it has one, and
    empty otherwise. *)
Definition doc_key {engine : Engine} (f : string) (j : value) : text :=
  match j with
  | VObj jm =>
      match jm !! f with
      | None =>
          if bool_decide (f ∈ Object_prototype_names) then inherited_text f
          else []
      | Some VNull => []
      | Some p => doc_text p
      end
  | _ => []
  end.

(** A record document whose member [f], if it has one, is primitive. *)
Definition has_plain_key (f : string) (j : value) : bool :=
  match j with
  | VObj jm =>
      match jm !! f with
      | Some (VArr _) | Some (VObj _) => false
      | _ => true
      end
  | _ => false
  end.

Section sorting.

Context {engine : Engine}.

(** [a.localeCompare(b)]: negative, zero or positive; which, depends on
    the locale of the browser. *)
Variable localeCompare : text -> text -> Z.

(** The comparison function [sortBy] passes to [sort]. *)
Definition compare_by (key : selector) (h : heap) (a b : hval) : res Z :=
  rbind (rbind (getter h a key) (String_member h)) (fun ka =>
  rbind (rbind (getter h b key) (String_member h)) (fun kb =>
  Ok (localeCompare ka kb))).

(** [arr.sort(cmp)].  For a consistent comparison function, as
    [localeCompare] is, the result is determined: the elements in
    ascending order, those that compare equal in their former order.
    Insertion from the right computes it. *)
Fixpoint insert_res (cmp : hval -> hval -> res Z) (x : hval) (l : list hval)
  : res (list hval) :=
  match l with
  | [] => Ok [x]
  | y :: r =>
      rbind (cmp x y) (fun c =>
      if (c <=? 0)%Z then Ok (x :: l)
      else rbind (insert_res cmp x r) (fun r' => Ok (y :: r')))
  end.

Fixpoint sort_res (cmp : hval -> hval -> res Z) (l : list hval)
  : res (list hval) :=
  match l with
  | [] => Ok []
  | x :: r => rbind (sort_res cmp r) (insert_res cmp x)
  end.

(** In place; the result is the array itself. *)
Definition Array_sort (arr : hval) (cmp : heap -> hval -> hval -> res Z)
  : M hval :=
  fun w =>
    match arr with
    | HRef l =>
        match heap_of w !! l with
        | Some (CArr vs) =>
            match sort_res (cmp (heap_of w)) vs with
            | Ok vs' => (Ok arr, set_heap (<[l := CArr vs']> (heap_of w)) w)
            | Throw e => (Throw e, w)
            end
        | _ => (Throw TypeError, w)
        end
    | _ => (Throw TypeError, w)
    end.

(** [sortBy(list, key)]; [items] is the parameter [list]. *)
Definition sortBy (items : hval) (key : selector) : M hval :=
  copy <- deepClone items ;;
  Array_sort copy (compare_by key).

(** The same order on documents. *)
Definition key_le (f : string) (x y : value) : Prop :=
  (localeCompare (doc_key f x) (doc_key f y) <= 0)%Z.

Fixpoint insert_doc (f : string) (x : value) (l : list value) : list value :=
  match l with
  | [] => [x]
  | y :: r =>
      if (localeCompare (doc_key f x) (doc_key f y) <=? 0)%Z then x :: l
      else y :: insert_doc f x r
  end.

Definition sort_docs (f : string) (l : list value) : list value :=
  foldr (insert_doc f) [] l.

(** Ascending: every element is below every later one. *)
Fixpoint ascending (f : string) (l : list value) : Prop :=
  match l with
  | [] => True
  | x :: r => Forall (key_le f x) r /\ ascending f r
  end.

(** Two documents compare equal. *)
Definition key_eq (f : string) (x y : value) : Prop :=
  key_le f x y /\ key_le f y x.

Global Instance key_le_dec f x y : Decision (key_le f x y).
Proof. unfold key_le. apply _. Defined.

Global Instance key_eq_dec f x y : Decision (key_eq f x y).
Proof. unfold key_eq. apply _. Defined.

Lemma insert_doc_perm f x l : insert_doc f x l ≡ₚ x :: l.
Proof.
  induction l as [|y r IH]; [done|]. cbn [insert_doc].
  destruct (_ <=? 0)%Z; [done|]. rewrite IH. apply Permutation_swap.
Qed.

Lemma sort_docs_perm f l : sort_docs f l ≡ₚ l.
Proof.
  induction l as [|x l IH]; [done|]. cbn [sort_docs foldr].
  rewrite insert_doc_perm. by apply Permutation_skip.
Qed.

Section order.

Hypothesis compare_trans : forall a b c,
  (localeCompare a b <= 0)%Z -> (localeCompare b c <= 0)%Z ->
  (localeCompare a c <= 0)%Z.
Hypothesis compare_total : forall a b,
  (localeCompare a b <= 0)%Z \/ (localeCompare b a <= 0)%Z.

Lemma insert_doc_ascending f x l :
  ascending f l -> ascending f (insert_doc f x l).
Proof.
  induction l as [|y r IH]; [by repeat constructor|].
  intros [Hy Hr]. cbn [insert_doc].
  destruct (_ <=? 0)%Z eqn:Hc.
  - apply Z.leb_le in Hc. cbn [ascending]. split_and!; [|done|done].
    constructor; [done|]. eapply Forall_impl; [exact Hy|].
    intros z Hz. unfold key_le in *. by eapply compare_trans.
  - apply Z.leb_gt in Hc. cbn [ascending]. split; [|by apply IH].
    rewrite insert_doc_perm. constructor; [|done].
    unfold key_le. destruct (compare_total (doc_key f x) (doc_key f y)); [lia|done].
Qed.

Lemma sort_docs_ascending f l : ascending f (sort_docs f l).
Proof.
  induction l as [|x l IH]; [done|]. by apply insert_doc_ascending.
Qed.

Lemma insert_doc_stable f z x l :
  filter (key_eq f z) (insert_doc f x l) = filter (key_eq f z) (x :: l).
Proof.
  induction l as [|y r IH]; [done|]. cbn [insert_doc].
  destruct (_ <=? 0)%Z eqn:Hc; [done|]. apply Z.leb_gt in Hc.
  rewrite filter_cons, IH, !filter_cons.
  destruct (decide (key_eq f z y)) as [Hy|Hy], (decide (key_eq f z x)) as [Hx|Hx];
    try done.
  exfalso. destruct Hy as [Hzy _], Hx as [_ Hxz]. unfold key_le in *.
  pose proof (compare_trans _ _ _ Hxz Hzy). lia.
Qed.

Lemma sort_docs_stable f z l :
  filter (key_eq f z) (sort_docs f l) = filter (key_eq f z) l.
Proof.
  induction l as [|x l IH]; [done|]. cbn [sort_docs foldr].
  rewrite insert_doc_stable, !filter_cons. fold (sort_docs f l). by rewrite IH.
Qed.

End order.

(** The sort of the elements follows the sort of their documents. *)
Lemma insert_res_docs (R : hval -> value -> Prop) f cmp x jx l jl :
  (forall r j r' j', R r j -> R r' j' ->
     cmp r r' = Ok (localeCompare (doc_key f j) (doc_key f j'))) ->
  R x jx -> Forall2 R l jl ->
  exists l', insert_res cmp x l = Ok l' /\ Forall2 R l' (insert_doc f jx jl).
Proof.
  intros Hcmp Hx Hl. induction Hl as [|y jy r jr Hy Hr IH].
  - exists [x]. split; [done|]. by repeat constructor.
  - cbn [insert_res insert_doc]. rewrite (Hcmp _ _ _ _ Hx Hy). cbn [rbind].
    destruct (_ <=? 0)%Z.
    + eexists. split; [done|]. by repeat constructor.
    + destruct IH as (r' & -> & Hr'). cbn [rbind].
      eexists. split; [done|]. by constructor.
Qed.

Lemma sort_res_docs (R : hval -> value -> Prop) f cmp l jl :
  (forall r j r' j', R r j -> R r' j' ->
     cmp r r' = Ok (localeCompare (doc_key f j) (doc_key f j'))) ->
  Forall2 R l jl ->
  exists l', sort_res cmp l = Ok l' /\ Forall2 R l' (sort_docs f jl).
Proof.
  intros Hcmp Hl. induction Hl as [|x jx r jr Hx Hr IH].
  - by exists [].
  - destruct IH as (r' & Hr' & HR). cbn [sort_res sort_docs foldr].
    rewrite Hr'. cbn [rbind]. by eapply insert_res_docs.
Qed.


(** The key [sortBy] computes of a record is the key of its document. *)
Lemma getter_doc_key n h r j f :
  view (S n) h r = Some j -> has_plain_key f j = true ->
  rbind (getter h r (Name f)) (String_member h) = Ok (doc_key f j).
Proof.
  intros Hview Hplain. destruct j as [| | | | |jm]; try discriminate.
  destruct r as [| | | |l]; try discriminate.
  rewrite view_ref in Hview.
  destruct (h !! l) as [[vs|m]|] eqn:Hl; [|  |done].
  { by destruct (mapM (view n h) vs). }
  destruct (map_mapM (view n h) m) as [jm'|] eqn:Hm; [|done].
  cbn in Hview. injection Hview as ->.
  pose proof (proj1 (map_mapM_Some _ _ _) Hm f) as Hf.
  cbn [getter]. unfold get_member, get_prop, record. rewrite Hl. cbn [rbind].
  unfold has_plain_key in Hplain. unfold doc_key.
  inversion Hf as [x p Hx Hmf Hjf|Hmf Hjf].
  2:{ by destruct (bool_decide (f ∈ Object_prototype_names)). }
  rewrite <- Hjf in Hplain.
  destruct x as [| | | |l'].
  - destruct n; cbn in Hx; by injection Hx as <-.
  - destruct n; cbn in Hx; by injection Hx as <-.
  - destruct n; cbn in Hx; by injection Hx as <-.
  - destruct n; cbn in Hx; by injection Hx as <-.
  - destruct n; [done|]. rewrite view_ref in Hx.
    destruct (h !! l') as [[vs|m']|]; [| |done].
    + destruct (mapM (view n h) vs); [|done]. cbn in Hx. injection Hx as <-. done.
    + destruct (map_mapM (view n h) m'); [|done]. cbn in Hx. injection Hx as <-. done.
Qed.

(** The run of [sortBy] on a serializable array of records. *)
Lemma sortBy_run w a js f :
  JSON_stringify (heap_of w) (HRef a) = Some (VArr js) ->
  forallb (has_plain_key f) js = true ->
  exists new,
    sortBy (HRef a) (Name f) w =
      (Ok (HRef (length (heap_of w) + sum_nodes js)),
       set_heap (heap_of w ++ new) w) /\
    length new = S (sum_nodes js) /\
    JSON_stringify (heap_of w ++ new) (HRef (length (heap_of w) + sum_nodes js))
      = Some (VArr (sort_docs f js)).
Proof.
  intros Hdoc Hplain. rewrite forallb_forall in Hplain.
  set (h := heap_of w) in *.
  destruct (alloc_list JSON_parse js h) as [vs h1] eqn:Halloc.
  destruct (alloc_list_spec JSON_parse js
              (fun x _ h0 v h' => JSON_parse_spec x h0 v h') _ _ _ Halloc)
    as [[new [-> Hnew]] Hspec].
  assert (length vs = length js) as Hlen.
  { destruct (Hspec (h ++ new)) as [H2 _]; [apply agree_on_refl|].
    symmetry. by eapply Forall2_length. }
  set (R := fun (r : hval) (j : value) =>
         j ∈ js /\
         forall h2, agree_on (length h) (length (h ++ new)) (h ++ new) h2 ->
           view (nodes j) h2 r = Some j).
  assert (Forall2 R vs js) as HR.
  { apply Forall2_same_length_lookup_2; [done|]. intros i r j Hr Hj. split.
    - by eapply list_elem_of_lookup_2.
    - intros h2 Hag. destruct (Hspec h2 Hag) as [H2 _].
      by apply (Forall2_lookup_lr _ _ _ i _ _ H2). }
  set (hc := (h ++ new) ++ [CArr vs]).
  assert (forall ws, agree_on (length h) (length (h ++ new)) (h ++ new)
                       ((h ++ new) ++ [CArr ws])) as Hag.
  { intros ws l Hl. by rewrite lookup_app_l by lia. }
  assert (forall r j, R r j -> forall ws,
            rbind (getter ((h ++ new) ++ [CArr ws]) r (Name f))
                  (String_member ((h ++ new) ++ [CArr ws])) = Ok (doc_key f j))
    as Hkey.
  { intros r j [Hj Hview] ws.
    pose proof (Hplain j (proj1 (list_elem_of_In _ _) Hj)) as Hp.
    specialize (Hview _ (Hag ws)).
    destruct j as [| | | | |jm]; try discriminate.
    rewrite nodes_VObj in Hview. by eapply getter_doc_key. }
  destruct (sort_res_docs R f (compare_by (Name f) hc) vs js) as (vs' & Hsort & HR').
  { intros r j r' j' Hr Hr'. unfold compare_by, hc.
    rewrite (Hkey r j Hr vs). cbn [rbind]. rewrite (Hkey r' j' Hr' vs). done. }
  { exact HR. }
  exists (new ++ [CArr vs']).
  assert (length (h ++ new) = length h + sum_nodes js) as Hlen1
    by (rewrite length_app; lia).
  split_and!.
  - unfold sortBy, bind, deepClone. fold h. rewrite Hdoc.
    rewrite JSON_parse_VArr, Halloc. cbn [heap_of set_heap].
    unfold Array_sort. cbn [heap_of set_heap].
    rewrite lookup_app_r, Nat.sub_diag by lia. cbn [lookup list_lookup].
    fold hc. rewrite Hsort. rewrite Hlen1. f_equal.
    unfold set_heap. cbn [heap_of app_state storage saved]. f_equal.
    rewrite <- Hlen1. unfold hc.
    rewrite insert_app_r_alt, Nat.sub_diag by lia. cbn [insert list_insert].
    by rewrite <- app_assoc.
  - rewrite length_app. cbn [length]. lia.
  - unfold JSON_stringify. rewrite app_assoc, length_app. cbn [length].
    rewrite Nat.add_1_r, view_ref, <- Hlen1.
    rewrite lookup_app_r, Nat.sub_diag by lia. cbn [lookup list_lookup].
    assert (mapM (view (length (h ++ new)) ((h ++ new) ++ [CArr vs'])) vs' =
            Some (sort_docs f js)) as ->; [|done].
    apply mapM_Some. eapply Forall2_impl; [exact HR'|].
    intros r j [Hj Hview]. eapply view_mono; [apply Hview, Hag|].
    apply sum_nodes_elem in Hj. rewrite length_app. lia.
Qed.

End sorting.

(** X20. [sortBy] by a property name, on an array that JSON can serialize
    as record documents whose member of that name, if present, is
    primitive; [localeCompare] is taken to be transitive and total.  The
    result is a new array of new records, past everything that existed;
    nothing that existed is changed, the argument least of all; the
    documents of the result are those of the argument, rearranged in
    ascending order of the text of the member, and documents that compare
    equal keep their order.  The text of a number is what
    [Number_toString] prints; a null member counts as the empty text, and
    so does a missing one, unless the name is that of a member of
    [Object.prototype]: then every record without a member of its own is
    sorted by the text of the inherited one. *)
Theorem sortBy_sorted {engine : Engine} (localeCompare : text -> text -> Z)
    (w : World) (a : loc) (js : list value) (f : string) :
  (forall x y z, (localeCompare x y <= 0)%Z -> (localeCompare y z <= 0)%Z ->
                 (localeCompare x z <= 0)%Z) ->
  (forall x y, (localeCompare x y <= 0)%Z \/ (localeCompare y x <= 0)%Z) ->
  JSON_stringify (heap_of w) (HRef a) = Some (VArr js) ->
  forallb (has_plain_key f) js = true ->
  exists new out,
    sortBy localeCompare (HRef a) (Name f) w =
      (Ok (HRef (length (heap_of w) + sum_nodes js)),
       set_heap (heap_of w ++ new) w) /\
    JSON_stringify (heap_of w ++ new) (HRef (length (heap_of w) + sum_nodes js))
      = Some (VArr out) /\
    out ≡ₚ js /\
    ascending localeCompare f out /\
    (forall z, filter (key_eq localeCompare f z) out =
               filter (key_eq localeCompare f z) js) /\
    (forall u k, JSON_stringify (heap_of w) u = Some k ->
                 JSON_stringify (heap_of w ++ new) u = Some k).
Proof.
  intros Htrans Htotal Hdoc Hplain.
  destruct (sortBy_run localeCompare w a js f Hdoc Hplain) as (new & Hrun & _ & Hout).
  exists new, (sort_docs localeCompare f js). split_and!.
  - exact Hrun.
  - exact Hout.
  - apply sort_docs_perm.
  - by apply sort_docs_ascending.
  - intros z. by apply sort_docs_stable.
  - intros u k Hu. by apply JSON_stringify_app.
Qed.

(** A comparison for the examples: by length. *)
Definition by_length (x y : text) : Z :=
  (Z.of_nat (length x) - Z.of_nat (length y))%Z.

(** The keys of the documents of the array a call of [sortBy] returns. *)
Definition sorted_keys {engine : Engine} (localeCompare : text -> text -> Z)
    (items : hval) (f : string) (w : World) : option (list text) :=
  match sortBy localeCompare items (Name f) w with
  | (Ok v, w') =>
      match JSON_stringify (heap_of w') v with
      | Some (VArr out) => Some (doc_key f <$> out)
      | _ => None
      end
  | _ => None
  end.

Lemma sortBy_sorted_witness :
  exists js new out,
    JSON_stringify (heap_of school) (HRef 0) = Some (VArr js) /\
    doc_key (engine := V8) "lastName" <$> js =
      [chars "One"; chars "Lovelace"; chars "Lee"] /\
    sortBy (engine := V8) by_length (HRef 0) (Name "lastName") school =
      (Ok (HRef (length (heap_of school) + sum_nodes js)),
       set_heap (heap_of school ++ new) school) /\
    JSON_stringify (heap_of school ++ new)
      (HRef (length (heap_of school) + sum_nodes js)) = Some (VArr out) /\
    out ≡ₚ js /\
    ascending (engine := V8) by_length "lastName" out /\
    sorted_keys (engine := V8) by_length (HRef 0) "lastName" school =
      Some [chars "One"; chars "Lee"; chars "Lovelace"].
Proof.
  assert (exists js, JSON_stringify (heap_of school) (HRef 0) = Some (VArr js) /\
                     doc_key (engine := V8) "lastName" <$> js =
                       [chars "One"; chars "Lovelace"; chars "Lee"] /\
                     forallb (has_plain_key "lastName") js = true)
    as (js & Hdoc & Hkeys & Hplain).
  { eexists. split; [vm_compute; reflexivity|]. split; vm_compute; reflexivity. }
  destruct (sortBy_sorted (engine := V8) by_length school 0 js "lastName")
    as (new & out & Hrun & Hout & Hperm & Hasc & _).
  - unfold by_length. intros x y z. lia.
  - unfold by_length. intros x y. lia.
  - exact Hdoc.
  - exact Hplain.
  - exists js, new, out. split; [exact Hdoc|]. split; [exact Hkeys|].
    split; [exact Hrun|]. split; [exact Hout|]. split; [exact Hperm|].
    split; [exact Hasc|]. vm_compute. reflexivity.
Defined.

(** ** The CSV import *)

(** Which collection the import handler adds the rows of a CSV file to:
    it looks for words anywhere in the text, in small letters. *)
Definition csv_kind (csvText : string) : option kind :=
  let lower := toLowerCase (chars csvText) in
  if includes lower (chars "grade") && includes lower (chars "firstname")
  then Some Students
  else if includes lower (chars "department") then Some Teachers
  else if includes lower (chars "code") && includes lower (chars "name")
  then Some Classes
  else None.

(** [for (const row of rows) Data.add(entity, { id: generateId(..), ...row })],
    from the row of index [i] on; [generateId i] stands for the result of
    the call of [generateId] for that row, which depends on the clock and
    on [Math.random]. *)
Fixpoint add_rows (entity : string) (generateId : nat -> string)
    (rows : list (gmap string string)) (i : nat) : M unit :=
  match rows with
  | [] => ret tt
  | row :: rest =>
      item <- alloc (CObj ((HStr <$> row) ∪ {["id" := HStr (generateId i)]})) ;;
      Data_add entity item ;;
      add_rows entity generateId rest (S i)
  end.

(** The branch of the import handler for a file whose name ends in
    [.csv]. *)
Definition import_CSV (csvText : string) (generateId : nat -> string) : M unit :=
  match csv_kind csvText with
  | Some k => add_rows (kind_name k) generateId (parseCSV csvText) 0
  | None => ret tt
  end.

Lemma shape_el_ext w st sm al el el' :
  (forall k, el k = el' k) -> shape w st sm al el -> shape w st sm al el'.
Proof.
  intros E [H1 H2 H3 H4 H5 H6 H7]. split; try done.
  - intros k. by rewrite <- E.
  - intros k r. rewrite <- E. apply H6.
Qed.

Lemma add_rows_shape k generateId rows :
  forall w i st sm al el,
    shape w st sm al el ->
    exists w' news,
      add_rows (kind_name k) generateId rows i w = (Ok tt, w') /\
      shape w' st sm al (<[k := el k ++ news]> el) /\
      keeps st (heap_of w) (heap_of w') /\
      length (saved w') = length (saved w) + length rows /\
      length news = length rows /\
      forall j row, rows !! j = Some row ->
        exists r, news !! j = Some r /\
          record (heap_of w') r =
            Some ((HStr <$> row) ∪ {["id" := HStr (generateId (i + j))]}).
Proof.
  induction rows as [|row rows IH]; intros w i st sm al el Sh.
  - exists w, []. split_and!; [done| |apply keeps_refl|simpl; lia|done|done].
    eapply shape_el_ext; [|exact Sh]. intros k'. rewrite app_nil_r.
    destruct (decide (k = k')) as [<-|Hne];
      [by rewrite fn_lookup_insert|by rewrite fn_lookup_insert_ne].
  - set (props := (HStr <$> row) ∪ {["id" := HStr (generateId i)]}).
    set (h := heap_of w).
    set (w1 := set_heap (h ++ [CObj props]) w).
    assert (shape w1 st sm al el) as S1 by apply (shape_app _ _ _ _ _ _ Sh).
    assert (st < length h) as Hst
      by (eapply lookup_lt_Some, (sh_obj _ _ _ _ _ Sh)).
    assert (flat_record (heap_of w1) (HRef (length h)) = true) as Hflat.
    { unfold flat_record. cbn [heap_of w1 set_heap]. rewrite record_new.
      apply bool_decide_eq_true. intros f v Hf. unfold props in Hf.
      apply lookup_union_Some_raw in Hf as [Hf|[_ Hf]].
      - rewrite lookup_fmap in Hf. by destruct (row !! f); simplify_eq/=.
      - apply lookup_singleton_Some in Hf as [_ <-]. done. }
    destruct (Data_add_shape _ _ _ _ _ k _ S1 Hflat)
      as (j & w2 & Hrun & Hheap & Hstate & _ & Hsaved & _ & S2).
    destruct (IH w2 (S i) st sm al _ S2)
      as (w' & news & Hrest & S' & K & Hlen & Hnews & Hrec).
    exists w', (HRef (length h) :: news).
    assert (keeps st (heap_of w1) (heap_of w2)) as K12.
    { rewrite Hheap. eapply keeps_insert_arr, (sh_arr _ _ _ _ _ S1). }
    split_and!.
    + cbn [add_rows]. unfold bind at 1. unfold alloc. fold h. fold props. fold w1.
      unfold bind at 1. by rewrite Hrun.
    + eapply shape_el_ext; [|exact S']. intros k'.
      destruct (decide (k = k')) as [<-|Hne].
      * rewrite !fn_lookup_insert. by rewrite <- app_assoc.
      * by rewrite !fn_lookup_insert_ne.
    + eapply keeps_trans; [|exact K]. eapply keeps_trans; [|exact K12].
      apply keeps_app.
    + rewrite Hlen, Hsaved, length_app. cbn [length saved w1 set_heap]. lia.
    + cbn [length]. by rewrite Hnews.
    + intros [|n] row' Hrow'.
      * injection Hrow' as <-. exists (HRef (length h)). split; [done|].
        rewrite Nat.add_0_r. eapply keeps_record; [exact K| |].
        { intros [= E]. lia. }
        eapply keeps_record; [exact K12| |].
        { intros [= E]. lia. }
        apply record_new.
      * destruct (Hrec n row' Hrow') as (r & Hr & Hm). exists r. split; [done|].
        by replace (i + S n) with (S i + n) by lia.
Qed.

(** X21. The CSV import on a well-formed snapshot.  When the words the
    handler looks for are missing, nothing happens.  Otherwise the records
    of [parseCSV] are added to the chosen collection, one new record for
    each and no other, in their order and without any validation: the new
    record has the row's properties and a generated [id], unless the row
    has an [id] column of its own, which then wins over the generated one.
    The other collections and all older records stay as they were, the
    snapshot stays well-formed, and the snapshot is saved once for each
    row. *)
Theorem import_CSV_adds (w : World) (csvText : string)
    (generateId : nat -> string) :
  well_formed w = true ->
  match csv_kind csvText with
  | None => import_CSV csvText generateId w = (Ok tt, w)
  | Some k =>
      exists w' vs news,
        import_CSV csvText generateId w = (Ok tt, w') /\
        well_formed w' = true /\
        collection w k = Some vs /\
        collection w' k = Some (vs ++ news) /\
        (forall k', k' <> k -> collection w' k' = collection w k') /\
        (forall k' xs x f, collection w k' = Some xs -> x ∈ xs ->
           field (heap_of w') x f = field (heap_of w) x f) /\
        length (saved w') = length (saved w) + length (parseCSV csvText) /\
        length news = length (parseCSV csvText) /\
        forall j row, parseCSV csvText !! j = Some row ->
          exists r, news !! j = Some r /\
            forall f, field (heap_of w') r f =
              match row !! f with
              | Some s => Some (HStr s)
              | None => if decide (f = "id") then Some (HStr (generateId j))
                        else None
              end
  end.
Proof.
  intros (st & sm & al & el & S)%well_formed_shape.
  unfold import_CSV. destruct (csv_kind csvText) as [k|]; [|done].
  destruct (add_rows_shape k generateId (parseCSV csvText) w 0 _ _ _ _ S)
    as (w' & news & Hrun & S' & K & Hlen & Hnews & Hrec).
  exists w', (el k), news. split_and!.
  - exact Hrun.
  - by eapply shape_well_formed.
  - by eapply collection_shape.
  - rewrite (collection_shape _ _ _ _ _ k S'). by rewrite fn_lookup_insert.
  - intros k' Hne. rewrite (collection_shape _ _ _ _ _ k' S'),
      (collection_shape _ _ _ _ _ k' S). by rewrite fn_lookup_insert_ne.
  - intros k' xs x f Hxs Hx.
    rewrite (collection_shape _ _ _ _ _ k' S) in Hxs. injection Hxs as <-.
    by eapply shape_field_kept.
  - exact Hlen.
  - exact Hnews.
  - intros j row Hrow. destruct (Hrec j row Hrow) as (r & Hr & Hm).
    exists r. split; [done|]. intros f. unfold field. rewrite Hm.
    cbn [mbind option_bind]. rewrite lookup_union, lookup_fmap.
    destruct (row !! f) as [s|]; cbn.
    + by destruct ({["id" := HStr (generateId j)]} !! f).
    + destruct (decide (f = "id")) as [->|Hne].
      * by rewrite lookup_singleton_eq.
      * by rewrite lookup_singleton_ne.
Qed.

Definition students_csv : string :=
  of_chars (chars "firstName,lastName,grade" ++ [LF] ++
            chars "Ada,Lovelace,3" ++ [LF] ++ chars "Grace,Hopper,4").

Lemma import_CSV_adds_witness :
  well_formed seeded = true /\
  exists w' r1 r2,
    import_CSV students_csv (fun i => "stu_" +:+ pretty i) seeded = (Ok tt, w') /\
    well_formed w' = true /\
    collection w' Students = Some [HRef 7; r1; r2] /\
    field (heap_of w') r1 "firstName" = Some (HStr "Ada") /\
    field (heap_of w') r2 "lastName" = Some (HStr "Hopper") /\
    field (heap_of w') r2 "id" = Some (HStr "stu_1") /\
    length (saved w') = length (saved seeded) + 2.
Proof.
  assert (well_formed seeded = true) as Hwf by (vm_compute; reflexivity).
  split; [exact Hwf|].
  pose proof (import_CSV_adds seeded students_csv
                (fun i => "stu_" +:+ pretty i) Hwf) as H.
  assert (csv_kind students_csv = Some Students) as E by (vm_compute; reflexivity).
  rewrite E in H.
  destruct H as (w' & vs & news & Hrun & Hwf' & Hvs & Hnew & _ & _ & Hsaved
                 & Hlen & Hrec).
  assert (collection seeded Students = Some [HRef 7]) as Hs
    by (vm_compute; reflexivity).
  rewrite Hs in Hvs. injection Hvs as <-.
  assert (parseCSV students_csv =
            [<["firstName" := "Ada"]> (<["lastName" := "Lovelace"]>
               (<["grade" := "3"]> ∅));
             <["firstName" := "Grace"]> (<["lastName" := "Hopper"]>
               (<["grade" := "4"]> ∅))]) as Hrows by (vm_compute; reflexivity).
  rewrite Hrows in Hlen, Hrec, Hsaved.
  destruct news as [|r1 [|r2 [|r3 news]]]; cbn [length] in Hlen; try lia.
  destruct (Hrec 0 _ eq_refl) as (r & [= <-] & Hr1).
  destruct (Hrec 1 _ eq_refl) as (r & [= <-] & Hr2).
  exists w', r1, r2. split; [exact Hrun|]. split; [exact Hwf'|].
  split; [exact Hnew|]. split; [|split; [|split]].
  - rewrite (Hr1 "firstName"). reflexivity.
  - rewrite (Hr2 "lastName"). reflexivity.
  - rewrite (Hr2 "id"). reflexivity.
  - exact Hsaved.
Defined.

(** ** What the import does not check *)





(** ** Snapshot documents of the data model *)

Definition prim_doc (j : value) : bool :=
  match j with VArr _ | VObj _ => false | _ => true end.

(** The document of a flat record. *)
Definition flat_doc (j : value) : bool :=
  match j with
  | VObj rm => bool_decide (map_Forall (fun _ x => prim_doc x = true) rm)
  | _ => false
  end.

(** The document of a well-formed snapshot: the four collections are
    arrays of flat records, every other member is primitive. *)
Definition well_typed (jm : gmap string value) : bool :=
  forallb (fun k => match jm !! kind_name k with
                    | Some (VArr js) => forallb flat_doc js
                    | _ => false
                    end) [Students; Teachers; Classes; Enrollments] &&
  bool_decide (map_Forall (fun f j => prim_doc j = true \/ is_kind_name f = true) jm).

Lemma view_prim_doc n h x j :
  view n h x = Some j -> prim_doc j = true -> is_ref x = false.
Proof.
  intros Hview Hj. destruct x as [| | | |l]; try done.
  destruct n as [|n]; [done|]. rewrite view_ref in Hview.
  destruct (h !! l) as [[vs|m]|]; [| |done].
  - destruct (mapM (view n h) vs); [|done]. cbn in Hview. by injection Hview as <-.
  - destruct (map_mapM (view n h) m); [|done]. cbn in Hview. by injection Hview as <-.
Qed.

Lemma view_flat_doc n h r j :
  view n h r = Some j -> flat_doc j = true -> flat_record h r = true.
Proof.
  intros Hview Hj. destruct j as [| | | | |rm]; try discriminate.
  destruct r as [| | | |l]; try (by destruct n).
  destruct n as [|n]; [done|]. rewrite view_ref in Hview.
  destruct (h !! l) as [[vs|m]|] eqn:Hl; [| |done].
  { by destruct (mapM (view n h) vs). }
  destruct (map_mapM (view n h) m) as [rm'|] eqn:Hm; [|done].
  cbn in Hview. injection Hview as ->.
  unfold flat_record, record. rewrite Hl.
  apply bool_decide_eq_true. intros f x Hf.
  apply bool_decide_eq_true in Hj.
  pose proof (proj1 (map_mapM_Some _ _ _) Hm f) as Hrel.
  rewrite Hf in Hrel. inversion Hrel as [? jx Hx Hxx Hjx|]; subst.
  eapply view_prim_doc; [exact Hx|]. symmetry in Hjx. by eapply Hj.
Qed.

Lemma view_array n h x js :
  view n h x = Some (VArr js) ->
  exists a vs n', x = HRef a /\ n = S n' /\ h !! a = Some (CArr vs) /\
                  Forall2 (fun r j => view n' h r = Some j) vs js.
Proof.
  intros Hview. destruct x as [| | | |a]; try (by destruct n).
  destruct n as [|n']; [done|]. rewrite view_ref in Hview.
  destruct (h !! a) as [[vs|m]|] eqn:Ha; [| |done].
  - destruct (mapM (view n' h) vs) as [js'|] eqn:Hvs; [|done].
    cbn in Hview. injection Hview as ->.
    exists a, vs, n'. split_and!; try done. by apply mapM_Some.
  - by destruct (map_mapM (view n' h) m).
Qed.

(** A snapshot object whose document is well typed and whose collections
    are distinct arrays is well formed. *)
Lemma typed_well_formed w st nm jm n :
  app_state w = HRef st ->
  heap_of w !! st = Some (CObj nm) ->
  (forall key, option_Forall2 (fun x j => view n (heap_of w) x = Some j)
                              (nm !! key) (jm !! key)) ->
  well_typed jm = true ->
  (forall k k' a, nm !! kind_name k = Some (HRef a) ->
                  nm !! kind_name k' = Some (HRef a) -> k = k') ->
  well_formed w = true.
Proof.
  intros Hst Hcell Hrel Htyped Hdistinct.
  apply andb_prop in Htyped as [Hkinds Hother].
  apply bool_decide_eq_true in Hother. rewrite forallb_forall in Hkinds.
  assert (forall k, exists a vs,
            nm !! kind_name k = Some (HRef a) /\
            heap_of w !! a = Some (CArr vs) /\
            Forall (fun r => flat_record (heap_of w) r = true) vs) as Harr.
  { intros k. assert (In k [Students; Teachers; Classes; Enrollments]) as Hk
      by (destruct k; simpl; tauto).
    specialize (Hkinds k Hk).
    destruct (jm !! kind_name k) as [[| | | |js|]|] eqn:Hj; try discriminate.
    specialize (Hrel (kind_name k)). rewrite Hj in Hrel.
    inversion Hrel as [x ? Hx Hnm|]; subst.
    destruct (view_array _ _ _ _ Hx) as (a & vs & n' & -> & -> & Ha & Hvs).
    exists a, vs. split_and!; [done|done|].
    rewrite forallb_forall in Hkinds.
    apply Forall_forall. intros r Hr.
    apply list_elem_of_lookup in Hr as [i Hi].
    destruct (Forall2_lookup_l _ _ _ _ _ Hvs Hi) as (j & Hj' & Hview).
    eapply view_flat_doc; [exact Hview|].
    apply Hkinds, list_elem_of_In. by eapply list_elem_of_lookup_2. }
  destruct (Harr Students) as (a1 & v1 & N1 & C1 & F1).
  destruct (Harr Teachers) as (a2 & v2 & N2 & C2 & F2).
  destruct (Harr Classes) as (a3 & v3 & N3 & C3 & F3).
  destruct (Harr Enrollments) as (a4 & v4 & N4 & C4 & F4).
  set (al := fun k => match k with
                      | Students => a1 | Teachers => a2
                      | Classes => a3 | Enrollments => a4 end).
  assert (forall k, nm !! kind_name k = Some (HRef (al k))) as Hloc by (by intros []).
  apply (shape_well_formed w st nm al
           (fun k => match k with
                     | Students => v1 | Teachers => v2
                     | Classes => v3 | Enrollments => v4 end)).
  split; try done.
  - by intros [].
  - intros k k' E. apply (Hdistinct k k' (al k)); [apply Hloc|].
    rewrite E. apply Hloc.
  - intros [] r Hr; [by apply (proj1 (Forall_forall _ _) F1)
                    |by apply (proj1 (Forall_forall _ _) F2)
                    |by apply (proj1 (Forall_forall _ _) F3)
                    |by apply (proj1 (Forall_forall _ _) F4)].
  - intros f v Hf. specialize (Hrel f). rewrite Hf in Hrel.
    inversion Hrel as [? j Hv Hvv Hj|]; subst. symmetry in Hj.
    destruct (Hother f j Hj) as [Hp|Hk]; [|by right].
    left. by eapply view_prim_doc.
Qed.

(** The members [JSON.parse] allocates for an object are distinct
    cells. *)
Lemma alloc_pairs_roots (kvs : list (string * value)) :
  NoDup (kvs.*1) ->
  forall h mh h1,
    foldr (uncurry (fun k x (acc : gmap string hval * heap) =>
                      let '(v, h1) := JSON_parse x (snd acc) in
                      (<[k := v]> (fst acc), h1))) (∅, h) kvs = (mh, h1) ->
    forall k k' a,
      mh !! k = Some (HRef a) -> mh !! k' = Some (HRef a) -> k = k'.
Proof.
  induction kvs as [|[k0 x] kvs IH]; intros Hnd h mh h1 Ha; simpl in Ha.
  - injection Ha as <- <-. intros k k' a Hk. by rewrite lookup_empty in Hk.
  - destruct (foldr _ _ kvs) as [mh' ha] eqn:Hl. simpl in Ha.
    destruct (JSON_parse x ha) as [v hb] eqn:Hx. injection Ha as <- <-.
    apply NoDup_cons in Hnd as [Hk0 Hnd].
    destruct (alloc_pairs_spec JSON_parse kvs Hnd
                (fun k' y _ h0 v0 h0' => JSON_parse_spec y h0 v0 h0') _ _ _ Hl)
      as [[n1 [-> Hn1]] [_ Hrest]].
    destruct (Hrest (h ++ n1) (agree_on_refl _ _ _)) as [_ Hold].
    destruct (JSON_parse_spec _ _ _ _ Hx) as [[n2 [-> Hn2]] Hv].
    destruct (Hv ((h ++ n1) ++ n2) (agree_on_refl _ _ _)) as [_ Hnew].
    assert (forall k a, k <> k0 -> mh' !! k = Some (HRef a) ->
              v = HRef a -> False) as Hfresh.
    { intros k a Hne Hk ->.
      pose proof (Hold _ _ Hk a (reach_root _ a)) as H1.
      pose proof (Hnew a (reach_root _ a)) as H2. lia. }
    intros k k' a Hk Hk'.
    destruct (decide (k = k0)) as [->|Hne], (decide (k' = k0)) as [->|Hne'];
      [done| | |].
    + rewrite lookup_insert_eq in Hk. rewrite lookup_insert_ne in Hk' by done.
      injection Hk as ->. by destruct (Hfresh k' a).
    + rewrite lookup_insert_eq in Hk'. rewrite lookup_insert_ne in Hk by done.
      injection Hk' as ->. by destruct (Hfresh k a).
    + rewrite lookup_insert_ne in Hk, Hk' by done. by eapply IH.
Qed.

Lemma JSON_parse_well_formed m h v h' s sv :
  JSON_parse (VObj m) h = (v, h') ->
  well_typed m = true ->
  well_formed (mkWorld h' v s sv) = true.
Proof.
  intros Hp Htyped.
  destruct (JSON_parse_spec _ _ _ _ Hp) as [_ Hv].
  destruct (Hv h' (agree_on_refl _ _ _)) as [Hview _].
  rewrite JSON_parse_VObj in Hp. unfold alloc_fields in Hp.
  rewrite map_fold_foldr in Hp.
  destruct (foldr _ _ (map_to_list m)) as [mh h1] eqn:Ha.
  injection Hp as <- <-.
  rewrite nodes_VObj, view_ref in Hview.
  rewrite lookup_app_r, Nat.sub_diag in Hview by lia. cbn in Hview.
  destruct (map_mapM _ mh) as [jm|] eqn:Hm; [|done].
  cbn in Hview. injection Hview as ->.
  eapply (typed_well_formed _ (length h1) mh m); cbn [heap_of app_state].
  - done.
  - by rewrite lookup_app_r, Nat.sub_diag by lia.
  - intros key. apply (proj1 (map_mapM_Some _ _ _) Hm key).
  - done.
  - intros k k' a Hk Hk'. apply kind_name_inj.
    eapply (alloc_pairs_roots _ (NoDup_fst_map_to_list m) _ _ _ Ha); eassumption.
Qed.



Lemma flat_record_doc n h r j :
  flat_record h r = true -> view n h r = Some j -> flat_doc j = true.
Proof.
  intros (l & m & -> & Hl & Hm)%flat_record_inv Hview.
  destruct n as [|n]; [done|]. rewrite view_ref, Hl in Hview.
  destruct (map_mapM (view n h) m) as [jm|] eqn:Hjm; [|done].
  cbn in Hview. injection Hview as <-. cbn [flat_doc].
  apply bool_decide_eq_true. intros f jx Hf.
  pose proof (proj1 (map_mapM_Some _ _ _) Hjm f) as Hrel.
  rewrite Hf in Hrel. inversion Hrel as [x ? Hx Hmf Hj|]; subst.
  symmetry in Hmf. specialize (Hm _ _ Hmf).
  destruct x; try done; destruct n; cbn in Hx; by injection Hx as <-.
Qed.

(** The document of a well-formed snapshot is well typed. *)
Lemma shape_typed w st sm al el :
  shape w st sm al el ->
  exists jm, JSON_stringify (heap_of w) (app_state w) = Some (VObj jm) /\
             well_typed jm = true.
Proof.
  intros Sh. destruct (shape_serializable _ _ _ _ _ Sh) as [j Hj].
  pose proof Hj as Hj'. unfold JSON_stringify in Hj'.
  rewrite (sh_state _ _ _ _ _ Sh) in Hj'.
  destruct (length (heap_of w)) as [|n] eqn:Hlen; [done|].
  rewrite view_ref, (sh_obj _ _ _ _ _ Sh) in Hj'.
  destruct (map_mapM (view n (heap_of w)) sm) as [jm|] eqn:Hjm; [|done].
  cbn in Hj'. injection Hj' as <-. exists jm. split; [done|].
  pose proof (proj1 (map_mapM_Some _ _ _) Hjm) as Hrel.
  unfold well_typed. apply andb_true_intro. split.
  - apply forallb_forall. intros k _.
    specialize (Hrel (kind_name k)). rewrite (sh_loc _ _ _ _ _ Sh k) in Hrel.
    inversion Hrel as [? jk Hx Hxx Hjk|]; subst.
    destruct n as [|n']; [done|].
    rewrite view_ref, (sh_arr _ _ _ _ _ Sh k) in Hx.
    destruct (mapM (view n' (heap_of w)) (el k)) as [js|] eqn:Hjs; [|done].
    cbn in Hx. injection Hx as <-.
    apply forallb_forall. intros jr Hjr%list_elem_of_In.
    apply mapM_Some in Hjs.
    apply list_elem_of_lookup in Hjr as [i Hi].
    destruct (Forall2_lookup_r _ _ _ _ _ Hjs Hi) as (r & Hr & Hview).
    eapply flat_record_doc; [|exact Hview].
    eapply (sh_rec _ _ _ _ _ Sh k). by eapply list_elem_of_lookup_2.
  - apply bool_decide_eq_true. intros f jf Hf.
    specialize (Hrel f). rewrite Hf in Hrel.
    inversion Hrel as [x ? Hx Hsm Hjf|]; subst. symmetry in Hsm.
    destruct (sh_other _ _ _ _ _ Sh f x Hsm) as [Hp|Hk]; [|by right].
    left. destruct x; try done; destruct n; cbn in Hx; by injection Hx as <-.
Qed.

(** X24. Reloading the page loses no data.  On a well-formed snapshot
    whose stored document is the document of the state, as it is after
    every mutation of the repository, [AppState.init] ends, with the
    TypeError of [UI.renderAll], in a state that has the same document and
    is again well formed, and it leaves the store alone. *)
Theorem reload_well_formed (w : World) :
  well_formed w = true ->
  storage w = JSON_stringify (heap_of w) (app_state w) ->
  exists w',
    AppState_init w = (Throw TypeError, w') /\
    well_formed w' = true /\
    JSON_stringify (heap_of w') (app_state w') =
      JSON_stringify (heap_of w) (app_state w) /\
    storage w' = storage w /\
    saved w' = saved w.
Proof.
  intros (st & sm & al & el & Sh)%well_formed_shape Hs.
  destruct (shape_typed _ _ _ _ _ Sh) as (jm & Hdoc & Htyped).
  rewrite Hdoc in Hs |- *.
  destruct (StorageService_load_run w (VObj jm) Hs)
    as (v & new & Hload & Hdoc' & Ht & Hnull).
  pose proof Hload as Hload'.
  unfold StorageService_load in Hload'. rewrite Hs in Hload'.
  destruct (JSON_parse (VObj jm) (heap_of w)) as [v0 h0] eqn:Hp.
  injection Hload' as -> ->.
  exists (mkWorld (heap_of w ++ new) v (storage w) (saved w)). split_and!.
  - unfold AppState_init, bind at 1. rewrite Hload.
    assert (v <> HNull) as Hv by (intros E; by apply Hnull in E).
    unfold bind at 1.
    assert ((match v with HNull => AppState_initial | _ => ret v end)
              (set_heap (heap_of w ++ new) w) =
            (Ok v, set_heap (heap_of w ++ new) w)) as -> by (by destruct v).
    unfold bind, set_AppState_state. rewrite Ht. cbn [doc_truthy negb].
    reflexivity.
  - by eapply JSON_parse_well_formed.
  - exact Hdoc'.
  - done.
  - done.
Qed.

Lemma reload_well_formed_witness :
  exists w',
    AppState_init seeded = (Throw TypeError, w') /\
    well_formed w' = true /\
    saved w' = saved seeded.
Proof.
  destruct (reload_well_formed seeded) as (w' & Hrun & Hwf & _ & _ & Hsaved).
  - vm_compute. reflexivity.
  - vm_compute. reflexivity.
  - exists w'. exact (conj Hrun (conj Hwf Hsaved)).
Defined.

(** ** Importing a snapshot of the data model *)



